(** * gnark-crypto: multi-column Plookup and the Ring-SIS hash

    A shallow embedding of
      - [ecc/bw6-761/fr/plookup/table.go] ([ProveLookupTables],
        [VerifyLookupTables], [deriveRandomness]), and
      - the [sis] package ([NewRSis], [Write], [Sum], [Reset], [Size],
        [MulMod]), and
      - the template of the curve points ([package point]: [FromJacobian],
        [FromAffine], [Equal], [AddAssign], [AddMixed], [DoubleAssign],
        [SubAssign], [Neg], [IsOnCurve], [mulWindowed],
        [BatchJacobianToAffine]),
    followed by the properties the specification states about them, and
    by further properties of the code.

    Go values are modelled as follows.
      - [int], [int64], [uint64]: [Z]; where the source can leave the range
        of the machine type the wrap-around is written out ([int64_wrap]).
      - [byte]: [Z], reduced with [u8] where the source computes on [uint8].
      - [fr.Element]: the canonical representative in [[0, q)], a [Z]; the
        Montgomery form is an internal encoding of the field package.
      - slices: [list]; an index or slice expression out of range panics.
      - [(T, error)] results: a pair with an [option error] ([None] is [nil]).
      - a run-time panic: the [Panic] outcome of [exec]. *)

From Stdlib Require Import String Ascii ZArith List Lia Bool Field.
From Stdlib Require QArith Qcanon.
Import ListNotations.
Open Scope Z_scope.

(* ===================================================================== *)
(** * Part I. Definitions *)
(* ===================================================================== *)

(** ** The Go run-time: panics, slices, loops, machine integers *)

Module Go.

Inductive panic : Type :=
| IndexOutOfRange          (* a[i] with i outside [0, len a) *)
| SliceBoundsOutOfRange    (* a[lo:hi] with bounds outside the slice *)
| NegativeShift            (* x << s with s < 0 *)
| DivideByZero             (* x / 0 on integers *)
| MakeLenOutOfRange        (* make([]T, n) with n < 0 *)
| PanicErr.                (* panic(err) *)

Inductive exec (A : Type) : Type :=
| Return (a : A)
| Panic (p : panic).
Arguments Return {A} a.
Arguments Panic {A} p.

Definition bind {A B} (m : exec A) (k : A -> exec B) : exec B :=
  match m with
  | Return a => k a
  | Panic p => Panic p
  end.

Definition len {A} (l : list A) : Z := Z.of_nat (length l).

(** [a[i]] *)
Definition index {A} (a : list A) (i : Z) : exec A :=
  if (0 <=? i) && (i <? len a) then
    match nth_error a (Z.to_nat i) with
    | Some x => Return x
    | None => Panic IndexOutOfRange
    end
  else Panic IndexOutOfRange.

(** [a[i] = v] *)
Definition store {A} (a : list A) (i : Z) (v : A) : exec (list A) :=
  if (0 <=? i) && (i <? len a) then
    Return (firstn (Z.to_nat i) a ++ v :: skipn (S (Z.to_nat i)) a)
  else Panic IndexOutOfRange.

(** [make([]T, n)] with [zero] the zero value of [T] *)
Definition make {A} (zero : A) (n : Z) : exec (list A) :=
  if n <? 0 then Panic MakeLenOutOfRange
  else Return (repeat zero (Z.to_nat n)).

(** [copy(dst, src)]: the first [min (len dst) (len src)] elements. *)
Definition copy {A} (dst src : list A) : list A :=
  firstn (length dst) src ++ skipn (length src) dst.

(** [a[lo:hi]]; every slice below has its capacity equal to its length. *)
Definition slice {A} (a : list A) (lo hi : Z) : exec (list A) :=
  if (0 <=? lo) && (lo <=? hi) && (hi <=? len a) then
    Return (firstn (Z.to_nat (hi - lo)) (skipn (Z.to_nat lo) a))
  else Panic SliceBoundsOutOfRange.

(** [for i := lo; i < lo + n; i++ { s = body i s }] *)
Fixpoint for_loop {St} (n : nat) (i : Z) (body : Z -> St -> exec St)
  (s : St) : exec St :=
  match n with
  | O => Return s
  | S n' => bind (body i s) (for_loop n' (i + 1) body)
  end.

(** [for i := hi; i >= hi - n + 1; i-- { s = body i s }] *)
Fixpoint for_down {St} (n : nat) (i : Z) (body : Z -> St -> exec St)
  (s : St) : exec St :=
  match n with
  | O => Return s
  | S n' => bind (body i s) (for_down n' (i - 1) body)
  end.

(** Two's complement wrap-around of a 64-bit signed integer. *)
Definition int64_wrap (z : Z) : Z := (z + 2 ^ 63) mod 2 ^ 64 - 2 ^ 63.

Definition int_add (a b : Z) : Z := int64_wrap (a + b).
Definition int_sub (a b : Z) : Z := int64_wrap (a - b).
Definition int_mul (a b : Z) : Z := int64_wrap (a * b).

(** [a / b] and [a % b] on [int]: truncated, panics on a zero divisor. *)
Definition int_div (a b : Z) : exec Z :=
  if b =? 0 then Panic DivideByZero else Return (int64_wrap (Z.quot a b)).
Definition int_rem (a b : Z) : exec Z :=
  if b =? 0 then Panic DivideByZero else Return (Z.rem a b).

(** [a << s] on [int]: panics on a negative count, wraps otherwise. *)
Definition int_shl (a s : Z) : exec Z :=
  if s <? 0 then Panic NegativeShift else Return (int64_wrap (Z.shiftl a s)).

(** [uint64(x)] *)
Definition uint64 (z : Z) : Z := z mod 2 ^ 64.

(** [uint8] arithmetic. *)
Definition u8 (z : Z) : Z := z mod 256.

(** Big-endian reading of a byte string, and the [n]-byte big-endian
    writing of a number. *)
Definition be_decode (bs : list Z) : Z :=
  fold_left (fun acc b => acc * 256 + b) bs 0.

Fixpoint be_encode (n : nat) (z : Z) : list Z :=
  match n with
  | O => []
  | S n' => be_encode n' (z / 256) ++ [z mod 256]
  end.

Fixpoint le_encode (n : nat) (z : Z) : list Z :=
  match n with
  | O => []
  | S n' => (z mod 256) :: le_encode n' (z / 256)
  end.

Definition le_decode (bs : list Z) : Z :=
  fold_right (fun b acc => b + 256 * acc) 0 bs.

End Go.

Import Go.

Declare Scope exec_scope.
Delimit Scope exec_scope with exec.
Notation "x <- m ;; k" := (Go.bind m (fun x => k))
  (at level 61, m at next level, right associativity) : exec_scope.
Notation "' p <- m ;; k" := (Go.bind m (fun x => let p := x in k))
  (at level 61, p pattern, m at next level, right associativity) : exec_scope.

(** ** Prime-field arithmetic ([fr.Element]) over a modulus [q] *)

Module Fr.

Definition Add (q x y : Z) : Z := (x + y) mod q.
Definition Mul (q x y : Z) : Z := (x * y) mod q.
Definition Neg (q x : Z) : Z := (- x) mod q.

(** [z.Exp(x, e)]: square and multiply along the bits of [e]; the source
    only calls it with [e >= 0]. *)
Fixpoint pow_pos (q x : Z) (e : positive) : Z :=
  match e with
  | xH => x mod q
  | xO e' => let y := pow_pos q x e' in Mul q y y
  | xI e' => let y := pow_pos q x e' in Mul q (Mul q y y) x
  end.

Definition Exp (q x e : Z) : Z :=
  match e with
  | Zpos p => pow_pos q x p
  | _ => 1 mod q
  end.

(** [z.Inverse(x)] for a prime [q], by the extended Euclidean algorithm on
    [(q, x)]: [r_i = t_i . x] modulo [q] all along, and the last [r_i]
    that is not zero is 1. The inverse of zero is zero. *)
Fixpoint inverse_loop (fuel : nat) (r0 r1 t0 t1 : Z) : Z :=
  match fuel with
  | O => t0
  | S fuel' =>
      if r1 =? 0 then t0
      else
        let k := r0 / r1 in
        inverse_loop fuel' r1 (r0 - k * r1) t1 (t0 - k * t1)
  end.

Definition Inverse (q x : Z) : Z :=
  inverse_loop (Z.to_nat (2 * Z.log2 q + 2)) q (x mod q) 0 1 mod q.

(** [z.SetBytes(b)]: [b] read big-endian, reduced modulo [q]. *)
Definition SetBytes (q : Z) (b : list Z) : Z := be_decode b mod q.

End Fr.

(** ** BLAKE2b-256 ([blake2b.Sum256], RFC 7693)

    The hash [genRandom] draws the key from.  It belongs to
    [golang.org/x/crypto]; it is written out here so that instances of the
    hash can be evaluated ([test_blake2b] compares it with a known digest). *)

Module Blake2b.

Definition add64 (a b : Z) : Z := (a + b) mod 2 ^ 64.

Definition rotr64 (x n : Z) : Z :=
  Z.lor (Z.shiftr x n) (Z.shiftl x (64 - n) mod 2 ^ 64).

Definition IV : list Z :=
  [ 0x6a09e667f3bcc908; 0xbb67ae8584caa73b; 0x3c6ef372fe94f82b;
    0xa54ff53a5f1d36f1; 0x510e527fade682d1; 0x9b05688c2b3e6c1f;
    0x1f83d9abfb41bd6b; 0x5be0cd19137e2179 ].

Definition SIGMA : list (list nat) :=
  [ [ 0; 1; 2; 3; 4; 5; 6; 7; 8; 9; 10; 11; 12; 13; 14; 15 ];
    [ 14; 10; 4; 8; 9; 15; 13; 6; 1; 12; 0; 2; 11; 7; 5; 3 ];
    [ 11; 8; 12; 0; 5; 2; 15; 13; 10; 14; 3; 6; 7; 1; 9; 4 ];
    [ 7; 9; 3; 1; 13; 12; 11; 14; 2; 6; 5; 10; 4; 0; 15; 8 ];
    [ 9; 0; 5; 7; 2; 4; 10; 15; 14; 1; 11; 12; 6; 8; 3; 13 ];
    [ 2; 12; 6; 10; 0; 11; 8; 3; 4; 13; 7; 5; 15; 14; 1; 9 ];
    [ 12; 5; 1; 15; 14; 13; 4; 10; 0; 7; 6; 3; 9; 2; 8; 11 ];
    [ 13; 11; 7; 14; 12; 1; 3; 9; 5; 0; 15; 4; 8; 6; 2; 10 ];
    [ 6; 15; 14; 9; 11; 3; 0; 8; 12; 2; 13; 7; 1; 4; 10; 5 ];
    [ 10; 2; 8; 4; 7; 6; 1; 5; 15; 11; 9; 14; 3; 12; 13; 0 ] ]%nat.

Definition get (v : list Z) (i : nat) : Z := nth i v 0.

Definition set (v : list Z) (i : nat) (x : Z) : list Z :=
  firstn i v ++ x :: skipn (S i) v.

(** The mixing function G. *)
Definition G (v : list Z) (a b c d : nat) (x y : Z) : list Z :=
  let v := set v a (add64 (add64 (get v a) (get v b)) x) in
  let v := set v d (rotr64 (Z.lxor (get v d) (get v a)) 32) in
  let v := set v c (add64 (get v c) (get v d)) in
  let v := set v b (rotr64 (Z.lxor (get v b) (get v c)) 24) in
  let v := set v a (add64 (add64 (get v a) (get v b)) y) in
  let v := set v d (rotr64 (Z.lxor (get v d) (get v a)) 16) in
  let v := set v c (add64 (get v c) (get v d)) in
  set v b (rotr64 (Z.lxor (get v b) (get v c)) 63).

Definition round (m : list Z) (v : list Z) (r : nat) : list Z :=
  let s := nth (r mod 10) SIGMA [] in
  let w (i : nat) := get m (nth i s O) in
  let v := G v 0 4 8 12 (w 0%nat) (w 1%nat) in
  let v := G v 1 5 9 13 (w 2%nat) (w 3%nat) in
  let v := G v 2 6 10 14 (w 4%nat) (w 5%nat) in
  let v := G v 3 7 11 15 (w 6%nat) (w 7%nat) in
  let v := G v 0 5 10 15 (w 8%nat) (w 9%nat) in
  let v := G v 1 6 11 12 (w 10%nat) (w 11%nat) in
  let v := G v 2 7 8 13 (w 12%nat) (w 13%nat) in
  G v 3 4 9 14 (w 14%nat) (w 15%nat).

(** The sixteen little-endian words of a 128-byte block. *)
Definition words (block : list Z) : list Z :=
  map (fun i => le_decode (firstn 8 (skipn (8 * i) block))) (seq 0 16).

(** The compression function F: chaining value [h], block, byte counter
    [t], final-block flag. *)
Definition compress (h : list Z) (block : list Z) (t : Z) (final : bool)
  : list Z :=
  let m := words block in
  let v := h ++ IV in
  let v := set v 12 (Z.lxor (get v 12) (t mod 2 ^ 64)) in
  let v := set v 13 (Z.lxor (get v 13) (t / 2 ^ 64)) in
  let v := if final then set v 14 (Z.lxor (get v 14) (2 ^ 64 - 1)) else v in
  let v := fold_left (round m) (seq 0 12) v in
  map (fun i => Z.lxor (Z.lxor (get h i) (get v i)) (get v (i + 8)))
    (seq 0 8).

Definition pad_block (b : list Z) : list Z :=
  b ++ repeat 0 (128 - length b).

(** All blocks but the last are compressed with the flag clear; the last
    one (the only one for an input of at most 128 bytes) with it set. *)
Fixpoint absorb (fuel : nat) (h : list Z) (t : Z) (msg : list Z) : list Z :=
  match fuel with
  | O => compress h (pad_block msg) (t + len msg) true
  | S fuel' =>
      if len msg <=? 128 then compress h (pad_block msg) (t + len msg) true
      else absorb fuel' (compress h (firstn 128 msg) (t + 128) false)
             (t + 128) (skipn 128 msg)
  end.

(** Parameter block of an unkeyed hash with a 32-byte digest. *)
Definition h0 : list Z := set IV 0 (Z.lxor (get IV 0) 0x01010020).

Definition Sum256 (msg : list Z) : list Z :=
  flat_map (le_encode 8) (firstn 4 (absorb (length msg) h0 0 msg)).

End Blake2b.

(** ** The scalar field of BN254 and its NTT domains ([bn254/fr], [fr/fft])

    The [sis] package imports [bn254/fr] and [bn254/fr/fft]; the source
    files of both are outside the files at hand. *)

Module Bn254.

(** Modelled from the spec: the modulus of the prime field [fr] of BN254
    (the source quotes its 2^28-th root of unity, the tests its residues). *)
Definition Modulus : Z :=
  21888242871839275222246405745257275088548364400416034343698204186575808495617.

(** [fr.Modulus().BitLen()] *)
Definition BitLen : Z := Z.log2 Modulus + 1.

(** Modelled from the spec: an element is stored on four 64-bit words, and
    [Bytes()] is its fixed-width big-endian encoding on [FBYTES] = 32
    bytes (the test reads the digest back 32 bytes at a time). *)
Definition Limbs : Z := 4.
Definition FrBytes : Z := Limbs * 8.

Definition Add := Fr.Add Modulus.
Definition Mul := Fr.Mul Modulus.
Definition Exp := Fr.Exp Modulus.
Definition Inverse := Fr.Inverse Modulus.
Definition SetBytes := Fr.SetBytes Modulus.
Definition Bytes (x : Z) : list Z := be_encode (Z.to_nat FrBytes) x.

(** The 2^28-th root of unity the source starts from. *)
Definition rootOfUnity : Z :=
  19103219067921713944291392827692070036145651957329286315305642004821462161904.
Definition maxOrderRoot : Z := 28.

(** Modelled from the spec: the NTT domain [D(n, shift)], [n] the
    smallest power of two at least the size asked for, with the generator
    of the subgroup of order [n] and the coset generator [shift]. *)
Record Domain : Type := mkDomain {
  Cardinality : Z;
  Generator : Z;
  FrMultiplicativeGen : Z
}.

Definition nextPowerOfTwo (m : Z) : Z := 2 ^ Z.log2_up m.

Definition NewDomain (m : Z) (shift : Z) : Domain :=
  let x := nextPowerOfTwo m in
  {| Cardinality := x;
     Generator := Exp rootOfUnity (Z.shiftl 1 (maxOrderRoot - Z.log2 x));
     FrMultiplicativeGen := shift |}.

(** Reversal of the low [nbits] bits of [k]. *)
Fixpoint bitrev (nbits : nat) (k : Z) : Z :=
  match nbits with
  | O => 0
  | S n => (k mod 2) * 2 ^ Z.of_nat n + bitrev n (k / 2)
  end.

(** Value of the polynomial with coefficients [a] at [x]. *)
Definition eval (a : list Z) (x : Z) : Z :=
  fold_right (fun c acc => Add (Mul acc x) c) 0 a.

(** Modelled from the spec: [d.FFT(a, fft.DIF, true)], the forward NTT on
    the coset [shift . <g>], natural order in, bit-reversed order out:
    entry [k] is the value at [shift . g^(rev k)]. In place: the result has
    the length of [a]. *)
Definition FFT (d : Domain) (a : list Z) : list Z :=
  let nbits := Z.to_nat (Z.log2 (Cardinality d)) in
  map (fun k =>
         eval a (Mul (FrMultiplicativeGen d)
                   (Exp (Generator d) (bitrev nbits (Z.of_nat k)))))
    (seq 0 (length a)).

(** Modelled from the spec: [d.FFTInverse(a, fft.DIT, true)], the inverse
    NTT on the coset, bit-reversed order in, natural order out:
    coefficient [j] is [n^-1 . shift^-j . sum_k a[k] . g^(-j . rev k)]. *)
Definition FFTInverse (d : Domain) (a : list Z) : list Z :=
  let nbits := Z.to_nat (Z.log2 (Cardinality d)) in
  let gInv := Inverse (Generator d) in
  let sInv := Inverse (FrMultiplicativeGen d) in
  let nInv := Inverse (Cardinality d mod Modulus) in
  map (fun j =>
         let s :=
           fold_left
             (fun acc k =>
                Add acc (Mul (nth k a 0)
                           (Exp gInv (bitrev nbits (Z.of_nat k) * Z.of_nat j))))
             (seq 0 (length a)) 0 in
         Mul (Mul nInv (Exp sInv (Z.of_nat j))) s)
    (seq 0 (length a)).

End Bn254.

(** ** The Ring-SIS hash (package [sis]) *)

Module Sis.

Import Bn254.
Local Open Scope exec_scope.

Inductive error : Type :=
| ErrNotAPowerOfTwo.   (* errors.New("d must be a power of 2") *)

Record RSis : Type := mkRSis {
  buffer : list Z;                        (* bytes written and not yet read *)
  A : list (list Z);
  AfftCosetBitreversed : list (list Z);
  LogTwoBound : Z;
  NbBytesToSum : Z;
  Domain : Bn254.Domain;
  Degree : Z
}.

Definition set_buffer (r : RSis) (b : list Z) : RSis :=
  {| buffer := b;
     A := A r;
     AfftCosetBitreversed := AfftCosetBitreversed r;
     LogTwoBound := LogTwoBound r;
     NbBytesToSum := NbBytesToSum r;
     Domain := Domain r;
     Degree := Degree r |}.

(** [binary.Write(&buf, binary.BigEndian, x)] for an [int64]. *)
Definition be64 (x : Z) : list Z := be_encode 8 (x mod 2 ^ 64).

(** The bytes of the string "SIS". *)
Definition SIS : list Z := [83; 73; 83].

Definition genRandom (seed i j : Z) : Z :=
  let buf := SIS ++ be64 seed ++ be64 i ++ be64 j in
  let digest := Blake2b.Sum256 buf in
  SetBytes digest.

Definition NewRSis (seed logTwoDegree logTwoBound keySize : Z)
  : exec (RSis * option error) :=
  (* domains (shift is sqrt(gen)) *)
  e <- int_shl 1 (int_sub 28 (int_add logTwoDegree 1)) ;;
  let shift := Exp rootOfUnity e in
  n <- int_shl 1 logTwoDegree ;;
  let domain := NewDomain (uint64 n) shift in
  (* filling A *)
  degree <- int_shl 1 logTwoDegree ;;
  A0 <- make [] keySize ;;
  A <- for_loop (Z.to_nat keySize) 0
         (fun i A =>
            row <- make 0 degree ;;
            row <- for_loop (Z.to_nat degree) 0
                     (fun j row => store row j (genRandom seed i j)) row ;;
            store A i row) A0 ;;
  (* filling AfftCosetBitreversed *)
  Afft0 <- make [] keySize ;;
  Afft <- for_loop (Z.to_nat keySize) 0
            (fun i Afft =>
               row <- make 0 degree ;;
               row <- for_loop (Z.to_nat degree) 0
                        (fun j row =>
                           Ai <- index A i ;;
                           Return (FFT domain (copy row Ai))) row ;;
               store Afft i row) Afft0 ;;
  (* the maximal size in bytes of a vector to hash *)
  let nbBytesToSum :=
    int64_wrap (Z.quot (int_mul (int_mul logTwoBound degree) (len A)) 8) in
  Return ({| buffer := [];
             A := A;
             AfftCosetBitreversed := Afft;
             LogTwoBound := logTwoBound;
             NbBytesToSum := nbBytesToSum;
             Domain := domain;
             Degree := degree |}, None).

(** [r.MulMod(p, q)]: the pointwise product, of the length of [p]. *)
Definition MulMod (r : RSis) (p q : list Z) : exec (list Z) :=
  res <- make 0 (len p) ;;
  for_loop (length p) 0
    (fun i res =>
       pi <- index p i ;;
       qi <- index q i ;;
       store res i (Mul pi qi)) res.

(** [r.Write(p)]: the new state, the count and the error. *)
Definition Write (r : RSis) (p : list Z) : RSis * (Z * option error) :=
  (set_buffer r (buffer r ++ p), (len p, None)).

(** First stage of [Sum]: the buffer is padded with zeroes up to
    [NbBytesToSum], then [NbBytesToSum] bytes are read from it, each
    giving eight bits, most significant first. Returns what is left in
    the buffer and [mBits]. *)
Definition Sum_bits (r : RSis) : exec (list Z * list Z) :=
  let sizeBuffer := len (buffer r) in
  buf <- (if sizeBuffer <? NbBytesToSum r then
            toPadd <- make 0 (NbBytesToSum r - sizeBuffer) ;;
            Return (buffer r ++ toPadd)
          else Return (buffer r)) ;;
  let totalNbBits := int_mul (NbBytesToSum r) 8 in
  mBits <- make 0 totalNbBits ;;
  for_loop (Z.to_nat (NbBytesToSum r)) 0
    (fun i st =>
       let '(buf, mBits) := st in
       match buf with
       | [] => Panic PanicErr               (* Read fails: io.EOF *)
       | tmp :: buf' =>
           mBits <- for_loop 8 0
                      (fun j mBits =>
                         store mBits (i * 8 + j)
                           (Z.land (Z.shiftr tmp (7 - j)) 1)) mBits ;;
           Return (buf', mBits)
       end) (buf, mBits).

(** Second stage of [Sum]: the vector [m] to hash, one field element for
    every [LogTwoBound] bits of [mBits]. *)
Definition Sum_m (r : RSis) (mBits : list Z) : exec (list Z) :=
  let totalNbBits := int_mul (NbBytesToSum r) 8 in
  let nbBytesPerCoefficients :=
    Z.quot (LogTwoBound r - Z.rem (LogTwoBound r) 8) 8 in
  let nbBitsPerCoefficients := LogTwoBound r in
  let offset := Z.rem nbBitsPerCoefficients 8 in
  let sizeM := int_mul (Degree r) (len (A r)) in
  buf <- make 0 (nbBytesPerCoefficients + 1) ;;
  m <- make 0 sizeM ;;
  n <- int_div totalNbBits nbBitsPerCoefficients ;;
  st <- for_loop (Z.to_nat n) 0
          (fun i st =>
             let '(buf, m) := st in
             buf <- for_loop (Z.to_nat offset) 0
                      (fun j buf =>
                         bit <- index mBits (i * nbBitsPerCoefficients + j) ;;
                         b0 <- index buf 0 ;;
                         store buf 0
                           (u8 (b0 + u8 (Z.shiftl bit (offset - 1 - j))))) buf ;;
             buf <- for_loop (Z.to_nat nbBytesPerCoefficients) 0
                      (fun j buf =>
                         for_loop 8 0
                           (fun k buf =>
                              bit <- index mBits
                                       (i * nbBitsPerCoefficients
                                        + offset + 8 * j + k) ;;
                              bj <- index buf (j + 1) ;;
                              store buf (j + 1)
                                (u8 (bj + u8 (Z.shiftl bit (7 - k))))) buf)
                      buf ;;
             m <- store m i (SetBytes buf) ;;
             buf <- for_loop (Z.to_nat (nbBytesPerCoefficients + 1)) 0
                      (fun j buf => store buf j 0) buf ;;
             Return (buf, m)) (buf, m) ;;
  Return (snd st).

(** [copy(a[lo:hi], src)], written through to [a]. *)
Definition copy_into (a : list Z) (lo hi : Z) (src : list Z)
  : exec (list Z) :=
  dst <- slice a lo hi ;;
  Return (firstn (Z.to_nat lo) a ++ copy dst src ++ skipn (Z.to_nat hi) a).

(** Third stage of [Sum]: the products with the key in evaluation form
    are accumulated, brought back to coefficients, and serialised. (The
    NTT of a chunk of [m] is taken in place; [m] is not read again.) *)
Definition Sum_hash (r : RSis) (m : list Z) : exec (list Z) :=
  res <- make 0 (Degree r) ;;
  res <- for_loop (length (AfftCosetBitreversed r)) 0
           (fun i res =>
              mi <- slice m (i * Degree r) ((i + 1) * Degree r) ;;
              let mi := FFT (Domain r) mi in
              Ai <- index (AfftCosetBitreversed r) i ;;
              t <- MulMod r Ai mi ;;
              for_loop (length res) 0
                (fun j res =>
                   rj <- index res j ;;
                   tj <- index t j ;;
                   store res j (Add rj tj)) res) res ;;
  let res := FFTInverse (Domain r) res in
  r0 <- index res 0 ;;
  let sizeFrElmt := len (Bytes r0) in
  resBytes <- make 0 (int_mul sizeFrElmt (Degree r)) ;;
  for_loop (Z.to_nat (Degree r)) 0
    (fun i resBytes =>
       ri <- index res i ;;
       let b := Bytes ri in
       copy_into resBytes (i * sizeFrElmt) ((i + 1) * sizeFrElmt) b)
    resBytes.

(** [r.Sum(b)]: the state after the call and the slice returned. *)
Definition Sum (r : RSis) (b : list Z) : exec (RSis * list Z) :=
  st <- Sum_bits r ;;
  m <- Sum_m r (snd st) ;;
  resBytes <- Sum_hash r m ;;
  Return (set_buffer r (fst st), b ++ resBytes).

(** [r.Reset()] *)
Definition Reset (r : RSis) : RSis := set_buffer r [].

(** [r.Size()] *)
Definition Size (r : RSis) : exec Z :=
  A0 <- index (A r) 0 ;;
  let degree := len A0 in
  let totalSize := int64_wrap (Z.quot (int_mul degree BitLen) 8) in
  Return totalSize.

(** [r.BlockSize()] *)
Definition BlockSize (r : RSis) : Z := 0.

(** *** Vocabulary of the properties *)

Definition is_bit (b : Z) : Prop := 0 <= b <= 1.
Definition is_byte (b : Z) : Prop := 0 <= b < 256.

(** The bound on the coefficients of the vector to hash. *)
Definition in_bound (B : Z) (x : Z) : Prop := 0 <= x < 2 ^ B.

(** The buffer once padded by [Sum]. *)
Definition padded (r : RSis) : list Z :=
  buffer r ++ repeat 0 (Z.to_nat (NbBytesToSum r - len (buffer r))).

(** The configurations [NewRSis] and [Sum] are studied on: a degree
    [2^l] whose coset generator exists, a positive bit width, and a
    number of input bits that fits an [int]. *)
Definition valid_config (l B k : Z) : Prop :=
  0 <= l <= 27 /\ 1 <= B /\ 0 <= k /\ B * 2 ^ l * k < 2 ^ 63.

(** An instance of degree [2^l] with a key of [k] polynomials. *)
Definition shaped (r : RSis) (l k : Z) : Prop :=
  Degree r = 2 ^ l /\ len (A r) = k /\ len (AfftCosetBitreversed r) = k
  /\ Forall (fun row => len row = 2 ^ l) (A r)
  /\ Forall (fun row => len row = 2 ^ l) (AfftCosetBitreversed r).

(** What the operations keep true of an instance made by [NewRSis]. *)
Definition instance (r : RSis) (l B k : Z) : Prop :=
  valid_config l B k /\ shaped r l k /\ LogTwoBound r = B
  /\ NbBytesToSum r = B * 2 ^ l * k / 8.

(** The instance of [TestRSis]. *)
Definition test_instance : RSis :=
  match NewRSis 5 1 4 8 with
  | Return (r, _) => r
  | Panic _ => mkRSis [] [] [] 0 0 (mkDomain 0 0 0) 0
  end.

(** An instance with one coefficient of eight bits: it sums one byte. *)
Definition small_instance : RSis :=
  match NewRSis 5 0 8 1 with
  | Return (r, _) => r
  | Panic _ => mkRSis [] [] [] 0 0 (mkDomain 0 0 0) 0
  end.

End Sis.

(** ** Multi-column Plookup (package [plookup], [table.go]) *)

Module Plookup.

Local Open Scope exec_scope.

(** [bw6761.G1Affine]: a point in affine coordinates over the base field;
    [kzg.Digest] is this type. *)
Record G1Affine : Type := mkG1 { X : Z; Y : Z }.

(** [p.Equal(a)]: [p.X.Equal(&a.X) && p.Y.Equal(&a.Y)]. *)
Definition G1_Equal (p a : G1Affine) : bool := (X p =? X a) && (Y p =? Y a).

Definition Digest : Type := G1Affine.
Definition Digest_zero : Digest := {| X := 0; Y := 0 |}.

(** [type Table []fr.Element] *)
Definition Table : Type := list Z.

(** What [table.go] takes from the rest of the repository: the scalar
    field, the group of the digests and its serialisation, the NTT, the
    commitment scheme, the single-column lookup argument and SHA-256. *)
Class Collaborators : Type := {
  fr_Modulus : Z;
  SRS : Type;                                   (* kzg.SRS *)
  CollabError : Type;                           (* the errors they return *)
  ProofLookupVector : Type;
  ProofLookupVector_zero : ProofLookupVector;   (* the zero value *)
  ProofLookupVector_f : ProofLookupVector -> Digest;      (* the field f *)
  G1_Add : G1Affine -> G1Affine -> G1Affine;
  G1_ScalarMultiplication : G1Affine -> Z -> G1Affine;
  G1_RawBytes : G1Affine -> list Z;
  sha256_Sum : list Z -> list Z;
  fft_FFTInverse : Z -> list Z -> list Z;       (* d.FFTInverse(a, DIF, 0) *)
  fft_BitReverse : list Z -> list Z;
  kzg_Commit : list Z -> SRS -> Digest * option CollabError;
  ProveLookupVector :
    SRS -> Table -> Table -> ProofLookupVector * option CollabError;
  VerifyLookupVector : SRS -> ProofLookupVector -> option CollabError
}.

(** Errors of the [fiat-shamir] package. *)
Inductive transcript_error : Type :=
| ErrChallengeNotFound
| ErrChallengeAlreadyComputed
| ErrPreviousChallengeNotComputed.

(** A toy collaborator, to run the definitions on. The field is Z/97; a
    digest is the pair of the values of the committed polynomial at 2 and
    at 3, so that digests add and scale as polynomials do; the inner
    prover commits to its query extended by its last entry, and the inner
    verifier accepts. *)
Definition toy_eval (x : Z) (p : list Z) : Z :=
  fold_right (fun c acc => (c + x * acc) mod 97) 0 p.

Definition toy_commit (p : list Z) : Digest :=
  {| X := toy_eval 2 p; Y := toy_eval 3 p |}.

#[export] Instance toy : Collaborators := {|
  fr_Modulus := 97;
  SRS := unit;
  CollabError := unit;
  ProofLookupVector := Digest * (Table * Table);
  ProofLookupVector_zero := (Digest_zero, ([], []));
  ProofLookupVector_f := fst;
  G1_Add := fun p a => {| X := (X p + X a) mod 97; Y := (Y p + Y a) mod 97 |};
  G1_ScalarMultiplication :=
    fun a s => {| X := (s * X a) mod 97; Y := (s * Y a) mod 97 |};
  G1_RawBytes := fun p => be_encode 2 (X p) ++ be_encode 2 (Y p);
  sha256_Sum := fun b => [fold_left Z.add b 0 mod 256];
  fft_FFTInverse := fun _ a => a;
  fft_BitReverse := fun a => a;
  kzg_Commit := fun p _ => (toy_commit p, None);
  ProveLookupVector := fun _ f t =>
    ((toy_commit (f ++ [last f 0]), (f, t)), None);
  VerifyLookupVector := fun _ _ => None
|}.

Section Definitions.

Context {C : Collaborators}.

Inductive error : Type :=
| ErrIncompatibleSize     (* "the tables in f and t are not of the same size" *)
| ErrFoldedCommitment     (* "the folded commitment is malformed" *)
| ErrTranscript (e : transcript_error)
| ErrCollaborator (e : CollabError).

Definition Add := Fr.Add fr_Modulus.
Definition Mul := Fr.Mul fr_Modulus.
Definition SetBytes := Fr.SetBytes fr_Modulus.

(** [lambda.ToBigIntRegular(&blambda)]: the canonical representative. *)
Definition ToBigIntRegular (x : Z) : Z := x.

Record ProofLookupTables : Type := mkProof {
  fs : list Digest;                  (* commitments to the rows f *)
  foldedProof : ProofLookupVector    (* lookup proof for f and t folded *)
}.

(** *** Programs that call the commitment scheme and the inner argument

    A program either is done, or panics, or asks a collaborator and goes
    on with the answer; [run] answers with the collaborator's functions. *)

Inductive call : Type -> Type :=
| Commit (p : list Z) (srs : SRS) : call (Digest * option CollabError)
| InnerProve (srs : SRS) (f t : Table)
  : call (ProofLookupVector * option CollabError)
| InnerVerify (srs : SRS) (pr : ProofLookupVector)
  : call (option CollabError).

Inductive prog (A : Type) : Type :=
| Done (a : A)
| Abort (p : panic)
| Ask (X : Type) (c : call X) (k : X -> prog A).
Arguments Done {A} a.
Arguments Abort {A} p.
Arguments Ask {A X} c k.

Definition answer {X} (c : call X) : X :=
  match c with
  | Commit p srs => kzg_Commit p srs
  | InnerProve srs f t => ProveLookupVector srs f t
  | InnerVerify srs pr => VerifyLookupVector srs pr
  end.

Fixpoint run {A} (p : prog A) : exec A :=
  match p with
  | Done a => Return a
  | Abort e => Panic e
  | Ask c k => run (k (answer c))
  end.

(** A step of the prover that calls no collaborator. *)
Definition lift {A B} (m : exec A) (k : A -> prog B) : prog B :=
  match m with
  | Return a => k a
  | Panic e => Abort e
  end.

Fixpoint pbind {A B} (p : prog A) (k : A -> prog B) : prog B :=
  match p with
  | Done a => k a
  | Abort e => Abort e
  | Ask c h => Ask c (fun x => pbind (h x) k)
  end.

(** The number of calls to [kzg.Commit] a run makes. *)
Fixpoint commits {A} (p : prog A) : nat :=
  match p with
  | Done _ | Abort _ => O
  | Ask c k =>
      (match c with Commit _ _ => 1 | _ => 0 end + commits (k (answer c)))%nat
  end.

(** *** The Fiat-Shamir transcript *)

Record challenge : Type := mkChallenge {
  position : Z;
  bindings : list (list Z);
  value : list Z;
  isComputed : bool
}.

Record Transcript : Type := mkTranscript {
  challenges : list (string * challenge);
  previous : option challenge
}.

Definition bytes_of_string (s : string) : list Z :=
  map (fun c => Z.of_N (N_of_ascii c)) (list_ascii_of_string s).

Fixpoint lookup (id : string) (cs : list (string * challenge))
  : option challenge :=
  match cs with
  | [] => None
  | (k, c) :: cs' => if String.eqb k id then Some c else lookup id cs'
  end.

Fixpoint update (id : string) (c : challenge)
  (cs : list (string * challenge)) : list (string * challenge) :=
  match cs with
  | [] => []
  | (k, c') :: cs' =>
      if String.eqb k id then (k, c) :: cs' else (k, c') :: update id c cs'
  end.

(** Modelled from the spec: [fiatshamir.NewTranscript(hash, labels...)],
    a hash over labelled challenges, in the order of the labels. *)
Definition NewTranscript (challengesID : list string) : Transcript :=
  {| challenges :=
       map (fun p => (snd p, {| position := Z.of_nat (fst p);
                                bindings := [];
                                value := [];
                                isComputed := false |}))
         (combine (seq 0 (length challengesID)) challengesID);
     previous := None |}.

(** Modelled from the spec: [Bind(label, bytes)] appends labelled data;
    the transcript refuses a label it does not know and a challenge that
    is already computed. *)
Definition Bind (t : Transcript) (challengeID : string) (bValue : list Z)
  : Transcript * option transcript_error :=
  match lookup challengeID (challenges t) with
  | None => (t, Some ErrChallengeNotFound)
  | Some c =>
      if isComputed c then (t, Some ErrChallengeAlreadyComputed)
      else
        let c' := {| position := position c;
                     bindings := bindings c ++ [bValue];
                     value := value c;
                     isComputed := false |} in
        ({| challenges := update challengeID c' (challenges t);
            previous := previous t |}, None)
  end.

(** Modelled from the spec: [ComputeChallenge(label)] hashes the label,
    the previous challenge when there is one before it, and the data
    bound to the label, in the order they were bound. *)
Definition ComputeChallenge (t : Transcript) (challengeID : string)
  : Transcript * (list Z * option transcript_error) :=
  match lookup challengeID (challenges t) with
  | None => (t, ([], Some ErrChallengeNotFound))
  | Some c =>
      if isComputed c then (t, (value c, None))
      else
        let computed (prev : list Z) :=
          let res :=
            sha256_Sum (bytes_of_string challengeID ++ prev
                        ++ concat (bindings c)) in
          let c' := {| position := position c;
                       bindings := bindings c;
                       value := res;
                       isComputed := true |} in
          ({| challenges := update challengeID c' (challenges t);
              previous := Some c' |}, (res, None)) in
        if position c =? 0 then computed []
        else
          match previous t with
          | Some p =>
              if position p =? position c - 1 then computed (value p)
              else (t, ([], Some ErrPreviousChallengeNotComputed))
          | None => (t, ([], Some ErrPreviousChallengeNotComputed))
          end
  end.

(** *** [deriveRandomness]

    The transcript is bound to the uncompressed encoding of every point,
    in order; the challenge is read as a field element. The transcript
    is local to the caller and not read again: its final state is
    dropped. *)
Fixpoint bind_points (t : Transcript) (challenge : string)
  (points : list G1Affine) : Transcript * option transcript_error :=
  match points with
  | [] => (t, None)
  | p :: ps =>
      let buf := G1_RawBytes p in
      match Bind t challenge buf with
      | (t', None) => bind_points t' challenge ps
      | (t', Some err) => (t', Some err)
      end
  end.

Definition deriveRandomness (t : Transcript) (challenge : string)
  (points : list G1Affine) : Z * option error :=
  let r := 0 in
  match bind_points t challenge points with
  | (_, Some err) => (r, Some (ErrTranscript err))
  | (t', None) =>
      match ComputeChallenge t' challenge with
      | (_, (_, Some err)) => (r, Some (ErrTranscript err))
      | (_, (b, None)) => (SetBytes b, None)
      end
  end.

(** Modelled from the spec: [fft.NewDomain(m, 0, false).Cardinality],
    the size of the smallest power-of-two domain with at least [m]
    points. *)
Definition NewDomain_Cardinality (m : Z) : Z := 2 ^ Z.log2_up m.

(** *** [ProveLookupTables] *)

(** [for i := 1; i < len(rows); i++ { if len(rows[i]) != s { ... } }]:
    some row after the first has a length other than [s]. *)
Definition size_differs (rows : list Table) (s : Z) : bool :=
  existsb (fun row => negb (len row =? s)) (skipn 1 rows).

(** A row of evaluations: [make], [copy], then the last entry of the
    source repeated up to [nbColumns]. *)
Definition pad_row (row : Table) (nbColumns : Z) : exec (list Z) :=
  l <- make 0 nbColumns ;;
  let l := copy l row in
  for_loop (Z.to_nat (nbColumns - len row)) (len row)
    (fun j l =>
       last <- index row (len row - 1) ;;
       store l j last) l.

(** The state of the loop over the rows: [proof.fs], [lfs], [lts]. (The
    coefficient form [cfs[i]] of a row is only read by its commitment.) *)
Definition rows_state : Type :=
  (list Digest * (list (list Z) * list (list Z)))%type.

(** The loop over the rows, from row [i], [n] rows to go; it ends early,
    with what [ProveLookupTables] returns, when a commitment fails. *)
Fixpoint rows_loop (srs : SRS) (f t : list Table) (nbColumns : Z)
  (n : nat) (i : Z) (st : rows_state)
  : prog ((ProofLookupTables * option error) + rows_state) :=
  match n with
  | O => Done (inr st)
  | S n' =>
      let '(pfs, (lfs, lts)) := st in
      lift (index f i) (fun fi =>
      lift (pad_row fi nbColumns) (fun cfsi =>
      lift (pad_row fi nbColumns) (fun lfsi =>
      lift (store lfs i lfsi) (fun lfs =>
      let cfsi := fft_FFTInverse nbColumns cfsi in
      let cfsi := fft_BitReverse cfsi in
      Ask (Commit cfsi srs) (fun r =>
      lift (store pfs i (fst r)) (fun pfs =>
      match snd r with
      | Some err =>
          Done (inl ({| fs := pfs; foldedProof := ProofLookupVector_zero |},
                     Some (ErrCollaborator err)))
      | None =>
          lift (index t i) (fun ti =>
          lift (pad_row ti nbColumns) (fun ltsi =>
          lift (store lts i ltsi) (fun lts =>
          rows_loop srs f t nbColumns n' (i + 1) (pfs, (lfs, lts)))))
      end))))))
  end.

(** The folding of the rows with [lambda] (Horner, from the last row). *)
Definition fold_step (lambda : Z) (rows : list (list Z)) (i j : Z)
  (folded : list Z) : exec (list Z) :=
  row <- index rows j ;;
  x <- index row i ;;
  a <- index folded i ;;
  store folded i (Add (Mul a lambda) x).

Definition fold_rows (lambda : Z) (lfs lts : list (list Z))
  (nbRows nbColumns : Z) : exec (Table * Table) :=
  foldedf <- make 0 nbColumns ;;
  foldedt <- make 0 nbColumns ;;
  for_loop (Z.to_nat nbColumns) 0
    (fun i st =>
       for_down (Z.to_nat nbRows) (nbRows - 1)
         (fun j st =>
            foldedf <- fold_step lambda lfs i j (fst st) ;;
            foldedt <- fold_step lambda lts i j (snd st) ;;
            Return (foldedf, foldedt)) st)
    (foldedf, foldedt).

Definition ProveLookupTables (srs : SRS) (f t : list Table)
  : prog (ProofLookupTables * option error) :=
  let proof := {| fs := []; foldedProof := ProofLookupVector_zero |} in
  (* transcript to derive the challenge *)
  let tr := NewTranscript ["lambda"%string] in
  (* check the sizes *)
  if negb (len f =? len t) then Done (proof, Some ErrIncompatibleSize) else
  lift (index f 0) (fun f0 =>
  if size_differs f (len f0) then Done (proof, Some ErrIncompatibleSize) else
  lift (index t 0) (fun t0 =>
  if size_differs t (len t0) then Done (proof, Some ErrIncompatibleSize) else
  (* commit to the tables in f and t *)
  let nbRows := len t in
  lift (make Digest_zero nbRows) (fun pfs =>
  let _nbColumns := len f0 + 1 in
  let _nbColumns := if _nbColumns <? len t0 then len t0 else _nbColumns in
  (* uint64(_nbColumns): a slice length, unchanged by the conversion *)
  let nbColumns := NewDomain_Cardinality _nbColumns in
  lift (make [] nbRows) (fun lfs =>
  lift (make [] nbRows) (fun lts =>
  pbind (rows_loop srs f t nbColumns (Z.to_nat nbRows) 0 (pfs, (lfs, lts)))
    (fun r =>
       match r with
       | inl res => Done res
       | inr (pfs, (lfs, lts)) =>
           (* fold f and t *)
           let comms := pfs in
           match deriveRandomness tr "lambda" comms with
           | (_, Some err) =>
               Done ({| fs := pfs; foldedProof := ProofLookupVector_zero |},
                     Some err)
           | (lambda, None) =>
               lift (fold_rows lambda lfs lts nbRows nbColumns) (fun folded =>
               let foldedf := fst folded in
               let foldedt := snd folded in
               (* plookupVector on foldedf[:len(foldedf)-1] *)
               lift (slice foldedf 0 (len foldedf - 1)) (fun fq =>
               Ask (InnerProve srs fq foldedt) (fun r =>
               Done ({| fs := pfs; foldedProof := fst r |},
                     option_map ErrCollaborator (snd r)))))
           end
       end)))))).

(** *** [VerifyLookupTables] *)

Definition VerifyLookupTables (srs : SRS) (proof : ProofLookupTables)
  : prog (option error) :=
  (* transcript to derive the challenge *)
  let tr := NewTranscript ["lambda"%string] in
  (* fold the commitments *)
  let nbRows := len (fs proof) in
  let comms := fs proof in
  match deriveRandomness tr "lambda" comms with
  | (_, Some err) => Done (Some err)
  | (lambda, None) =>
      lift (index (fs proof) (nbRows - 1)) (fun comf =>
      let blambda := ToBigIntRegular lambda in
      lift (for_down (Z.to_nat (nbRows - 1)) (nbRows - 2)
              (fun i comf =>
                 fsi <- index (fs proof) i ;;
                 Return (G1_Add (G1_ScalarMultiplication comf blambda) fsi))
              comf) (fun comf =>
      if negb (G1_Equal comf (ProofLookupVector_f (foldedProof proof)))
      then Done (Some ErrFoldedCommitment)
      else
        (* verify the inner proof *)
        Ask (InnerVerify srs (foldedProof proof)) (fun err =>
        Done (option_map ErrCollaborator err))))
  end.

(** *** Vocabulary of the properties *)

(** A row extended to [n] entries by repeating its last one. *)
Definition pad (row : Table) (n : Z) : list Z :=
  row ++ repeat (last row 0) (Z.to_nat (n - len row)).

(** Column [j] of a table given by its rows. *)
Definition column (rows : list (list Z)) (j : nat) : list Z :=
  map (fun row => nth j row 0) rows.

(** [lambda^i . c_0 + lambda^(i+1) . c_1 + ...] over the integers. *)
Fixpoint sum_pow (lambda : Z) (i : nat) (col : list Z) : Z :=
  match col with
  | [] => 0
  | c :: col' => lambda ^ Z.of_nat i * c + sum_pow lambda (S i) col'
  end.

(** The rows folded column by column:
    entry [j] is [sum_i lambda^i . rows[i][j]] in the field. *)
Definition folded (lambda : Z) (rows : list (list Z)) (nbColumns : Z)
  : Table :=
  map (fun j => sum_pow lambda 0 (column rows j) mod fr_Modulus)
    (seq 0 (Z.to_nat nbColumns)).

(** The digests folded by Horner's rule from the last one:
    [fs[n-1]], then [blambda . acc + fs[i]] for [i = n-2 .. 0]. *)
Definition folded_digest (blambda : Z) (fs : list Digest) : Digest :=
  match rev fs with
  | [] => Digest_zero
  | top :: below =>
      fold_left
        (fun acc fsi => G1_Add (G1_ScalarMultiplication acc blambda) fsi)
        below top
  end.

(** The challenge both sides derive from the commitments. *)
Definition challenge_of (points : list G1Affine) : Z :=
  SetBytes (sha256_Sum (bytes_of_string "lambda"
                        ++ concat (map G1_RawBytes points))).

(** The coefficient form of a row, as it is committed to. *)
Definition coefficients (row : Table) (nbColumns : Z) : list Z :=
  fft_BitReverse (fft_FFTInverse nbColumns (pad row nbColumns)).

(** Horner's rule over the integers. *)
Definition horner (lambda : Z) (col : list Z) : Z :=
  fold_right (fun x acc => x + lambda * acc) 0 col.

(** The transcript of the prover and of the verifier, once [bs] is bound. *)
Definition lambda_transcript (bs : list (list Z)) : Transcript :=
  {| challenges := [("lambda"%string,
                     {| position := 0; bindings := bs; value := [];
                        isComputed := false |})];
     previous := None |}.

(** One step of the fold of the digests. *)
Definition digest_step (blambda : Z) (acc fsi : Digest) : Digest :=
  G1_Add (G1_ScalarMultiplication acc blambda) fsi.

(** The commitment to a row, and that the commitment scheme accepts it. *)
Definition commitment (srs : SRS) (nbColumns : Z) (row : Table) : Digest :=
  fst (kzg_Commit (coefficients row nbColumns) srs).

Definition commits_to (srs : SRS) (nbColumns : Z) (row : Table) : Prop :=
  snd (kzg_Commit (coefficients row nbColumns) srs) = None.

(** [ProofLookupTables{}] *)
Definition empty_proof : ProofLookupTables :=
  {| fs := []; foldedProof := ProofLookupVector_zero |}.

(** Some row has a length other than the first row's. *)
Definition row_differs (rows : list Table) : Prop :=
  exists r0 r, nth_error rows 0 = Some r0 /\ In r rows /\ len r <> len r0.

(** The sizes [ProveLookupTables] refuses. *)
Definition incompatible (f t : list Table) : Prop :=
  len f <> len t \/ row_differs f \/ row_differs t.

End Definitions.

Arguments Done {C A} a.
Arguments Abort {C A} p.
Arguments Ask {C A X} c k.

(** The truth table of XOR, by rows, and a query made of three of its
    columns. *)
Definition xor_t : list Table := [[0; 0; 1; 1]; [0; 1; 0; 1]; [0; 1; 1; 0]].
Definition xor_f : list Table := [[1; 0; 1]; [0; 1; 1]; [1; 1; 0]].

(** The proof the prover makes of it with the toy collaborators. *)
Definition xor_proof : @ProofLookupTables toy :=
  match run (ProveLookupTables (C := toy) tt xor_f xor_t) with
  | Return (proof, _) => proof
  | Panic _ => empty_proof
  end.

End Plookup.

(** ** The vector [Sum] hashes

    Vocabulary for the two first stages of [Sum]: the bits of the bytes
    read, and the coefficients cut out of them. *)

Module SumVector.
Import Bn254 Sis.
(** The eight bits of a byte, most significant first. *)
Definition bits_of_byte (tmp : Z) : list Z :=
  map (fun j => Z.land (Z.shiftr tmp (7 - Z.of_nat j)) 1) (seq 0 8).

(** The number written by a sequence of bits, most significant first. *)
Definition bits_value (bs : list Z) : Z :=
  fold_left (fun acc b => 2 * acc + b) bs 0.

(** The number written by the [n] bits from position [base]. *)
Definition window (mBits : list Z) (base n : Z) : Z :=
  bits_value (firstn (Z.to_nat n) (skipn (Z.to_nat base) mBits)).

(** The vector to hash: one coefficient for every [B] bits, as many as
    [nbBits] bits give, and zeroes up to [sizeM] entries. *)
Definition coefficients_of (mBits : list Z) (B nbBits sizeM : Z) : list Z :=
  map (fun i => window mBits (Z.of_nat i * B) B mod Modulus)
    (seq 0 (Z.to_nat (nbBits / B)))
  ++ repeat 0 (Z.to_nat (sizeM - nbBits / B)).

(** The vector [m] that [Sum] builds from the buffer (its two first
    stages). *)
Definition Sum_vector (r : RSis) : exec (list Z) :=
  (st <- Sum_bits r ;; Sum_m r (snd st))%exec.

(** The bytes [Sum] reads: the first [NbBytesToSum] of the padded buffer. *)
Definition bytes_read (r : RSis) : list Z :=
  firstn (Z.to_nat (NbBytesToSum r)) (padded r).

(** The digest [Sum] appends for an instance whose buffer is [w]. *)
Definition digest (r : RSis) (w : list Z) : exec (list Z) :=
  (s <- Sum (set_buffer r w) [] ;; Return (snd s))%exec.
End SumVector.

(** ** What the prover and the verifier of [table.go] expect of their
    collaborators *)

Module Commitments.
Import Plookup.
Section D.
Context {C : Collaborators}.

(** A field element in canonical form. *)
Definition canonical (x : Z) : Prop := 0 <= x < fr_Modulus.

(** [lambda . a + b], entry by entry. *)
Definition axpy (lambda : Z) (a b : list Z) : list Z :=
  map (fun p => Add (Mul (fst p) lambda) (snd p)) (combine a b).

(** The commitment scheme is linear on the rows of [n] evaluations: the
    digest of [lambda . a + b] is the digest of [a] scaled by [lambda]
    plus the digest of [b]. *)
Definition linear_commitment (srs : SRS) (n : Z) : Prop :=
  forall (lambda : Z) (a b : list Z),
    len a = n -> len b = n -> Forall canonical a -> Forall canonical b ->
    commitment srs n (axpy lambda a b)
    = G1_Add (G1_ScalarMultiplication (commitment srs n a)
                (ToBigIntRegular lambda))
        (commitment srs n b).

(** The inner prover puts in its proof the commitment to its query,
    extended by its last entry to the size of the table. *)
Definition inner_commits_query (srs : SRS) : Prop :=
  forall (q t : Table) (pr : ProofLookupVector),
    len q + 1 = len t ->
    ProveLookupVector srs q t = (pr, None) ->
    ProofLookupVector_f pr = commitment srs (len t) q.


(** A row with its last entry written once more. *)
Definition repeat_last (row : Table) : Table := row ++ [last row 0].

End D.

(** A collaborator whose commitment scheme can fail, as [kzg.Commit]
    does on a polynomial with more coefficients than the SRS has points:
    the toy collaborator, with the size of the SRS as its SRS. *)
#[export] Instance bounded : Collaborators := {|
  fr_Modulus := 97;
  SRS := Z;
  CollabError := unit;
  ProofLookupVector := Digest * (Table * Table);
  ProofLookupVector_zero := (Digest_zero, ([], []));
  ProofLookupVector_f := fst;
  G1_Add := G1_Add (Collaborators := toy);
  G1_ScalarMultiplication := G1_ScalarMultiplication (Collaborators := toy);
  G1_RawBytes := G1_RawBytes (Collaborators := toy);
  sha256_Sum := sha256_Sum (Collaborators := toy);
  fft_FFTInverse := fun _ a => a;
  fft_BitReverse := fun a => a;
  kzg_Commit := fun p srs =>
    if (len p =? 0) || (srs <? len p) then (Digest_zero, Some tt)
    else (toy_commit p, None);
  ProveLookupVector := fun _ f t =>
    ((toy_commit (f ++ [last f 0]), (f, t)), None);
  VerifyLookupVector := fun _ _ => None
|}.

(** A query on two columns of the truth table of XOR. *)
Definition xor_f2 : list Table := [[1; 0]; [0; 1]; [1; 1]].

End Commitments.

(** ** Points of a curve [y^2 = x^3 + b] (the template of [package point])

    The template is instantiated with a coordinate type ([fp.Element] or
    [fptower.E2]) and its methods; the model takes them as a class.
    A method with a pointer receiver that writes its result to the
    receiver is a function that returns the receiver's new value. *)

Module Point.

Import Stdlib.QArith.QArith Stdlib.QArith.Qcanon.
Local Open Scope Z_scope.

Local Open Scope exec_scope.

Class Coord (F : Type) : Type := {
  zero : F;
  one : F;
  Add : F -> F -> F;
  Sub : F -> F -> F;
  Mul : F -> F -> F;
  Neg : F -> F;
  Inverse : F -> F;
  Equal : F -> F -> bool;
  bCurveCoeff : F
}.

Section Template.

Context {F : Type} {C : Coord F}.

Definition Square (x : F) : F := Mul x x.
Definition Double (x : F) : F := Add x x.
Definition IsZero (x : F) : bool := Equal x zero.

Record Affine : Type := mkAffine { X : F; Y : F }.
Record Jac : Type := mkJac { JX : F; JY : F; JZ : F }.
Record Proj : Type := mkProj { Px : F; Py : F; Pz : F }.

Definition Affine_Equal (p a : Affine) : bool :=
  Equal (X p) (X a) && Equal (Y p) (Y a).

Definition Affine_Neg (a : Affine) : Affine :=
  {| X := X a; Y := Neg (Y a) |}.

Definition FromJacobian (p1 : Jac) : Affine :=
  if IsZero (JZ p1) then {| X := zero; Y := zero |}
  else
    let a := Inverse (JZ p1) in
    let b := Square a in
    let x := Mul (JX p1) b in
    let y := Mul (Mul (JY p1) b) a in
    {| X := x; Y := y |}.

Definition IsInfinity (p : Affine) : bool := IsZero (X p) && IsZero (Y p).

Definition Jac_Equal (p a : Jac) : bool :=
  if IsZero (JZ p) && IsZero (JZ a) then true
  else
    let _p := FromJacobian p in
    let _a := FromJacobian a in
    Equal (X _p) (X _a) && Equal (Y _p) (Y _a).

Definition Jac_Neg (a : Jac) : Jac :=
  {| JX := JX a; JY := Neg (JY a); JZ := JZ a |}.

Definition DoubleAssign (p : Jac) : Jac :=
  let XX := Square (JX p) in
  let YY := Square (JY p) in
  let YYYY := Square YY in
  let ZZ := Square (JZ p) in
  let S := Add (JX p) YY in
  let S := Double (Sub (Sub (Square S) XX) YYYY) in
  let M := Add (Double XX) XX in
  let pZ := Sub (Sub (Square (Add (JZ p) (JY p))) YY) ZZ in
  let T := Square M in
  let pX := T in
  let T := Double S in
  let pX := Sub pX T in
  let pY := Mul (Sub S pX) M in
  let YYYY := Double (Double (Double YYYY)) in
  let pY := Sub pY YYYY in
  {| JX := pX; JY := pY; JZ := pZ |}.

Definition Jac_Double (q : Jac) : Jac := DoubleAssign q.

Definition AddAssign (p a : Jac) : Jac :=
  if IsZero (JZ p) then a
  else if IsZero (JZ a) then p
  else
    let Z1Z1 := Square (JZ a) in
    let Z2Z2 := Square (JZ p) in
    let U1 := Mul (JX a) Z2Z2 in
    let U2 := Mul (JX p) Z1Z1 in
    let S1 := Mul (Mul (JY a) (JZ p)) Z2Z2 in
    let S2 := Mul (Mul (JY p) (JZ a)) Z1Z1 in
    if Equal U1 U2 && Equal S1 S2 then DoubleAssign p
    else
      let H := Sub U2 U1 in
      let I := Square (Double H) in
      let J := Mul H I in
      let r := Double (Sub S2 S1) in
      let V := Mul U1 I in
      let pX := Sub (Sub (Sub (Square r) J) V) V in
      let pY := Mul (Sub V pX) r in
      let S1 := Double (Mul S1 J) in
      let pY := Sub pY S1 in
      let pZ := Add (JZ p) (JZ a) in
      let pZ := Mul (Sub (Sub (Square pZ) Z1Z1) Z2Z2) H in
      {| JX := pX; JY := pY; JZ := pZ |}.

Definition SubAssign (p a : Jac) : Jac :=
  let tmp := a in
  let tmp := {| JX := JX tmp; JY := Neg (JY tmp); JZ := JZ tmp |} in
  AddAssign p tmp.

Definition AddMixed (p : Jac) (a : Affine) : Jac :=
  if IsZero (X a) && IsZero (Y a) then p
  else if IsZero (JZ p) then {| JX := X a; JY := Y a; JZ := one |}
  else
    let Z1Z1 := Square (JZ p) in
    let U2 := Mul (X a) Z1Z1 in
    let S2 := Mul (Mul (Y a) (JZ p)) Z1Z1 in
    if Equal U2 (JX p) && Equal S2 (JY p) then DoubleAssign p
    else
      let H := Sub U2 (JX p) in
      let HH := Square H in
      let I := Double (Double HH) in
      let J := Mul H I in
      let r := Double (Sub S2 (JY p)) in
      let V := Mul (JX p) I in
      let pX := Sub (Sub (Sub (Square r) J) V) V in
      let J := Double (Mul J (JY p)) in
      let pY := Mul (Sub V pX) r in
      let pY := Sub pY J in
      let pZ := Add (JZ p) H in
      let pZ := Sub (Sub (Square pZ) Z1Z1) HH in
      {| JX := pX; JY := pY; JZ := pZ |}.

Definition FromAffine (Q : Affine) : Jac :=
  if IsZero (X Q) && IsZero (Y Q) then {| JX := one; JY := one; JZ := zero |}
  else {| JX := X Q; JY := Y Q; JZ := one |}.

Definition Jac_IsOnCurve (p : Jac) : bool :=
  let left := Square (JY p) in
  let right := Mul (Square (JX p)) (JX p) in
  let tmp := Mul (Mul (Mul (Square (Square (JZ p))) (JZ p)) (JZ p)) bCurveCoeff in
  let right := Add right tmp in
  Equal left right.

Definition Affine_IsOnCurve (p : Affine) : bool :=
  Jac_IsOnCurve (FromAffine p).

Definition Proj_FromJacobian (Q : Jac) : Proj :=
  let buf := Square (JZ Q) in
  {| Px := Mul (JX Q) (JZ Q); Py := JY Q; Pz := Mul (JZ Q) buf |}.

(** [BatchJacobianToAffineG1Affine(points, result)]: the conversion of
    [points] written to [result], with one field inversion. The function
    returns nothing; the model returns [result] as the call leaves it.
    (The last loop is handed to [parallel.Execute] in chunks of indexes;
    every index is visited once and an iteration reads and writes entry
    [i] only.) *)
Definition BatchJacobianToAffine (points : list Jac) (result : list Affine)
  : exec (list Affine) :=
  zeroes <- make false (len points) ;;
  let accumulator := one in
  s <- for_loop (length points) 0
         (fun i s =>
            let '(zeroes, result, accumulator) := s in
            pi <- index points i ;;
            if IsZero (JZ pi) then
              zeroes <- store zeroes i true ;;
              Return (zeroes, result, accumulator)
            else
              ri <- index result i ;;
              result <- store result i {| X := accumulator; Y := Y ri |} ;;
              Return (zeroes, result, Mul accumulator (JZ pi)))
         (zeroes, result, accumulator) ;;
  let '(zeroes, result, accumulator) := s in
  let accInverse := Inverse accumulator in
  s <- for_down (length points) (len points - 1)
         (fun i s =>
            let '(result, accInverse) := s in
            z <- index zeroes i ;;
            if z : bool then Return (result, accInverse)
            else
              ri <- index result i ;;
              result <- store result i
                          {| X := Mul (X ri) accInverse; Y := Y ri |} ;;
              pi <- index points i ;;
              Return (result, Mul accInverse (JZ pi)))
         (result, accInverse) ;;
  let result := fst s in
  for_loop (length points) 0
    (fun i result =>
       z <- index zeroes i ;;
       if z : bool then Return result
       else
         ri <- index result i ;;
         pi <- index points i ;;
         let a := X ri in
         let b := Square a in
         let x := Mul (JX pi) b in
         let y := Mul (Mul (JY pi) b) a in
         store result i {| X := x; Y := y |})
    result.

(** [s.Bytes()] of [math/big], modelled from its documentation: the
    absolute value of [s] as a big-endian byte slice (without leading
    zero bytes; empty for zero). *)
Definition big_Bytes (s : Z) : list Z :=
  let n := Z.abs s in
  if n =? 0 then [] else be_encode (Z.to_nat (Z.log2 n / 8 + 1)) n.

(** [mulWindowed]: 2-bits windowed exponentiation. [g1Infinity] is a
    variable of the package, declared in another file. *)
Definition mulWindowed (g1Infinity a : Jac) (s : Z) : exec Jac :=
  let res := g1Infinity in
  let ops0 := a in
  let ops1 := Jac_Double ops0 in
  let ops2 := AddAssign ops0 ops1 in
  let ops := [ops0; ops1; ops2] in
  let b := big_Bytes s in
  for_loop (length b) 0
    (fun i res =>
       w <- index b i ;;
       st <- for_loop 4 0
               (fun j st =>
                  let '(res, mask) := st in
                  let res := DoubleAssign (DoubleAssign res) in
                  let c := Z.shiftr (Z.land w mask) (6 - 2 * j) in
                  res <- (if negb (c =? 0) then
                            op <- index ops (c - 1) ;;
                            Return (AddAssign res op)
                          else Return res) ;;
                  Return (res, Z.shiftr mask 2))
               (res, 0xc0) ;;
       Return (fst st))
    res.

(** *** Vocabulary of the properties: the chord-and-tangent rule *)

Definition Div (x y : F) : F := Mul x (Inverse y).

(** The coordinates form a field, and [Equal] decides equality. *)
Definition is_field : Prop :=
  field_theory zero one Add Mul Sub Neg Div Inverse eq
  /\ forall x y : F, Equal x y = true <-> x = y.

Definition two : F := Add one one.
Definition three : F := Add two one.

(** The sum of two affine points with distinct abscissas. *)
Definition chord (p a : Affine) : Affine :=
  let l := Div (Sub (Y a) (Y p)) (Sub (X a) (X p)) in
  let x3 := Sub (Sub (Square l) (X p)) (X a) in
  {| X := x3; Y := Sub (Mul l (Sub (X p) x3)) (Y p) |}.

(** The double of an affine point with a non-zero ordinate, on a curve
    [y^2 = x^3 + b]. *)
Definition tangent (p : Affine) : Affine :=
  let l := Div (Mul three (Square (X p))) (Mul two (Y p)) in
  let x3 := Sub (Sub (Square l) (X p)) (X p) in
  {| X := x3; Y := Sub (Mul l (Sub (X p) x3)) (Y p) |}.

(** The curve equation in affine coordinates. *)
Definition on_curve (p : Affine) : Prop :=
  Square (Y p) = Add (Mul (Square (X p)) (X p)) bCurveCoeff.

(** The point [(l^2 X, l^3 Y, l Z)]: the same point in other coordinates. *)
Definition rescale (l : F) (p : Jac) : Jac :=
  {| JX := Mul (Square l) (JX p);
     JY := Mul (Mul (Square l) l) (JY p);
     JZ := Mul l (JZ p) |}.

(** What [BatchJacobianToAffine] leaves in [result]: the affine form of
    every point that is not at infinity; the other entries as they were. *)
Fixpoint converted (points : list Jac) (result : list Affine)
  : list Affine :=
  match points, result with
  | p :: ps, r :: rs =>
      (if IsZero (JZ p) then r else FromJacobian p) :: converted ps rs
  | _, _ => result
  end.

(** [points[i].Z.IsZero()] *)
Definition at_infinity (p : Jac) : bool := IsZero (JZ p).

(** The accumulator of the first loop: [acc] times the [Z] not zero. *)
Definition prod_Z (acc : F) (ps : list Jac) : F :=
  fold_left (fun acc p => if IsZero (JZ p) then acc else Mul acc (JZ p))
    ps acc.

(** [result] after the first loop: the partial products. *)
Fixpoint partials (acc : F) (ps : list Jac) (rs : list Affine)
  : list Affine :=
  match ps, rs with
  | p :: ps', r :: rs' =>
      if IsZero (JZ p) then r :: partials acc ps' rs'
      else {| X := acc; Y := Y r |} :: partials (Mul acc (JZ p)) ps' rs'
  | _, _ => rs
  end.

(** [result] after the second loop: the inverses of the [Z]. *)
Fixpoint inverses (ps : list Jac) (rs : list Affine) : list Affine :=
  match ps, rs with
  | p :: ps', r :: rs' =>
      (if IsZero (JZ p) then r else {| X := Inverse (JZ p); Y := Y r |})
        :: inverses ps' rs'
  | _, _ => rs
  end.

End Template.

Arguments is_field {F} C.

(** Coordinates to run the template on: the rational numbers, with the
    curve [y^2 = x^3 + 3]. *)
#[export] Instance rational : Coord Qc := {|
  zero := Q2Qc 0;
  one := Q2Qc 1;
  Add := Qcplus;
  Sub := Qcminus;
  Mul := Qcmult;
  Neg := Qcopp;
  Inverse := Qcinv;
  Equal := Qc_eq_bool;
  bCurveCoeff := Q2Qc 3
|}.

(** Two points of the curve, and other coordinates of the first one. *)
Definition P1 : @Jac Qc := {| JX := Q2Qc 1; JY := Q2Qc 2; JZ := Q2Qc 1 |}.
Definition P2 : @Jac Qc :=
  {| JX := Q2Qc (-23 # 16); JY := Q2Qc (-11 # 64); JZ := Q2Qc 1 |}.
Definition P1' : @Jac Qc := {| JX := Q2Qc 4; JY := Q2Qc 16; JZ := Q2Qc 2 |}.
Definition A1 : @Affine Qc := {| X := Q2Qc 1; Y := Q2Qc 2 |}.

(** The point at infinity, as [FromAffine] writes it. *)
Definition Pinf : @Jac Qc := {| JX := Q2Qc 1; JY := Q2Qc 1; JZ := Q2Qc 0 |}.

(** A batch to convert, with the point at infinity in it. *)
Definition batch : list (@Jac Qc) := [P1'; Pinf; P2].
Definition zeroed (n : nat) : list (@Affine Qc) :=
  repeat {| X := Q2Qc 0; Y := Q2Qc 0 |} n.

End Point.

(* ===================================================================== *)
(** * Part II. Properties *)
(* ===================================================================== *)

(** ** The Go run-time *)

Module GoFacts.

Local Open Scope exec_scope.

Lemma int64_wrap_small (z : Z) :
  - 2 ^ 63 <= z < 2 ^ 63 -> int64_wrap z = z.
Proof.
  intros H. unfold int64_wrap.
  rewrite Z.mod_small by lia. lia.
Qed.

Lemma len_nonneg {A} (l : list A) : 0 <= len l.
Proof. unfold len. lia. Qed.

Lemma len_app {A} (l1 l2 : list A) : len (l1 ++ l2) = len l1 + len l2.
Proof. unfold len. rewrite length_app. lia. Qed.

Lemma len_repeat {A} (x : A) (n : nat) : len (repeat x n) = Z.of_nat n.
Proof. unfold len. now rewrite repeat_length. Qed.

Lemma index_nth {A} (a : list A) (i : Z) (d : A) :
  0 <= i < len a -> index a i = Return (nth (Z.to_nat i) a d).
Proof.
  intros H. unfold index.
  replace ((0 <=? i) && (i <? len a)) with true
    by (symmetry; apply andb_true_iff; split; [apply Z.leb_le | apply Z.ltb_lt]; lia).
  destruct (nth_error a (Z.to_nat i)) eqn:E.
  - now rewrite (nth_error_nth _ _ d E).
  - apply nth_error_None in E. unfold len in H. lia.
Qed.

Lemma index_out {A} (a : list A) (i : Z) :
  i < 0 \/ len a <= i -> index a i = Panic IndexOutOfRange.
Proof.
  intros H. unfold index.
  destruct (Z.leb_spec 0 i); destruct (Z.ltb_spec i (len a)); simpl;
    try reflexivity; lia.
Qed.

Lemma index_app {A} (xs : list A) (z : A) (zs : list A) :
  index (xs ++ z :: zs) (len xs) = Return z.
Proof.
  rewrite (index_nth _ _ z).
  - unfold len. rewrite Nat2Z.id, nth_middle. reflexivity.
  - rewrite len_app. unfold len. simpl length. lia.
Qed.

Lemma store_app {A} (xs : list A) (z v : A) (zs : list A) :
  store (xs ++ z :: zs) (len xs) v = Return (xs ++ v :: zs).
Proof.
  unfold store.
  replace ((0 <=? len xs) && (len xs <? len (xs ++ z :: zs))) with true.
  - unfold len. rewrite Nat2Z.id.
    rewrite firstn_app, firstn_all, Nat.sub_diag. simpl firstn.
    rewrite app_nil_r.
    replace (S (length xs)) with (length (xs ++ [z]))
      by (rewrite length_app; simpl; lia).
    replace (xs ++ z :: zs) with ((xs ++ [z]) ++ zs)
      by (now rewrite <- app_assoc).
    rewrite skipn_app, skipn_all, Nat.sub_diag. reflexivity.
  - symmetry. apply andb_true_iff. split; [apply Z.leb_le | apply Z.ltb_lt].
    + apply len_nonneg.
    + rewrite len_app. unfold len. simpl length. lia.
Qed.

Lemma store_ok {A} (a : list A) (i : Z) (v : A) :
  0 <= i < len a ->
  exists a', store a i v = Return a' /\ len a' = len a
             /\ nth_error a' (Z.to_nat i) = Some v
             /\ (forall k, k <> Z.to_nat i -> nth_error a' k = nth_error a k).
Proof.
  intros H. unfold len in H.
  destruct (nth_error a (Z.to_nat i)) as [z|] eqn:E;
    [| apply nth_error_None in E; lia].
  apply nth_error_split in E. destruct E as (xs & zs & -> & Hl).
  replace i with (len xs) by (unfold len; lia).
  rewrite store_app. eexists. split; [reflexivity |].
  split; [| split].
  - rewrite !len_app. unfold len. simpl. lia.
  - unfold len. rewrite Nat2Z.id.
    rewrite nth_error_app2, Nat.sub_diag by lia. reflexivity.
  - intros k Hk. unfold len in Hk. rewrite Nat2Z.id in Hk.
    destruct (Nat.lt_ge_cases k (length xs)).
    + now rewrite !nth_error_app1 by lia.
    + rewrite !nth_error_app2 by lia.
      destruct (k - length xs)%nat eqn:E; [lia | reflexivity].
Qed.

Lemma store_out {A} (a : list A) (i : Z) (v : A) :
  i < 0 \/ len a <= i -> store a i v = Panic IndexOutOfRange.
Proof.
  intros H. unfold store.
  destruct (Z.leb_spec 0 i); destruct (Z.ltb_spec i (len a)); simpl;
    try reflexivity; lia.
Qed.

Lemma make_ok {A} (zero : A) (n : Z) :
  0 <= n -> make zero n = Return (repeat zero (Z.to_nat n)).
Proof.
  intros H. unfold make. destruct (Z.ltb_spec n 0); [lia | reflexivity].
Qed.

Lemma slice_ok {A} (a : list A) (lo hi : Z) :
  0 <= lo <= hi -> hi <= len a ->
  slice a lo hi = Return (firstn (Z.to_nat (hi - lo)) (skipn (Z.to_nat lo) a)).
Proof.
  intros H1 H2. unfold slice.
  destruct (Z.leb_spec 0 lo); [| lia].
  destruct (Z.leb_spec lo hi); [| lia].
  destruct (Z.leb_spec hi (len a)); [| lia].
  reflexivity.
Qed.

Lemma length_copy {A} (dst src : list A) :
  length (copy dst src) = length dst.
Proof.
  unfold copy. rewrite length_app, length_firstn, length_skipn. lia.
Qed.

Lemma copy_repeat {A} (z : A) (n : nat) (src : list A) :
  (length src <= n)%nat ->
  copy (repeat z n) src = src ++ repeat z (n - length src).
Proof.
  intros H. unfold copy. rewrite repeat_length.
  rewrite firstn_all2 by lia. f_equal.
  replace n with (length src + (n - length src))%nat at 1 by lia.
  rewrite repeat_app, skipn_app.
  rewrite skipn_all2 by (rewrite repeat_length; lia).
  rewrite repeat_length, Nat.sub_diag. reflexivity.
Qed.

(** The invariant rule of an ascending loop. *)
Lemma for_loop_inv {St} (P : Z -> St -> Prop) (body : Z -> St -> exec St) :
  forall (n : nat) (i : Z) (s : St),
    P i s ->
    (forall j s, i <= j < i + Z.of_nat n -> P j s ->
                 exists s', body j s = Return s' /\ P (j + 1) s') ->
    exists s', for_loop n i body s = Return s' /\ P (i + Z.of_nat n) s'.
Proof.
  induction n as [| n IH]; intros i s Hs Hbody.
  - exists s. split; [reflexivity |]. now replace (i + Z.of_nat 0) with i by lia.
  - destruct (Hbody i s) as (s1 & E1 & H1); [lia | assumption |].
    destruct (IH (i + 1) s1 H1) as (s2 & E2 & H2).
    + intros j s' Hj. apply Hbody. lia.
    + exists s2. split.
      * simpl. rewrite E1. exact E2.
      * now replace (i + Z.of_nat (S n)) with (i + 1 + Z.of_nat n) by lia.
Qed.

(** The invariant rule of a descending loop: [P k s] holds when the
    iterations at [k + 1 ..] are done. *)
Lemma for_down_inv {St} (P : Z -> St -> Prop) (body : Z -> St -> exec St) :
  forall (n : nat) (i : Z) (s : St),
    P i s ->
    (forall j s, i - Z.of_nat n < j <= i -> P j s ->
                 exists s', body j s = Return s' /\ P (j - 1) s') ->
    exists s', for_down n i body s = Return s' /\ P (i - Z.of_nat n) s'.
Proof.
  induction n as [| n IH]; intros i s Hs Hbody.
  - exists s. split; [reflexivity |]. now replace (i - Z.of_nat 0) with i by lia.
  - destruct (Hbody i s) as (s1 & E1 & H1); [lia | assumption |].
    destruct (IH (i - 1) s1 H1) as (s2 & E2 & H2).
    + intros j s' Hj. apply Hbody. lia.
    + exists s2. split.
      * simpl. rewrite E1. exact E2.
      * now replace (i - Z.of_nat (S n)) with (i - 1 - Z.of_nat n) by lia.
Qed.

Lemma bind_Return {A B} (m : exec A) (k : A -> exec B) (a : A) :
  m = Return a -> Go.bind m k = k a.
Proof. now intros ->. Qed.

Lemma split_at {A} (a : list A) (i : Z) :
  0 <= i < len a ->
  exists xs z zs, a = xs ++ z :: zs /\ len xs = i.
Proof.
  intros H. unfold len in H.
  destruct (nth_error a (Z.to_nat i)) as [z|] eqn:E;
    [| apply nth_error_None in E; lia].
  apply nth_error_split in E. destruct E as (xs & zs & -> & Hl).
  exists xs, z, zs. split; [reflexivity | unfold len; lia].
Qed.

Lemma store_snoc {A} (a : list A) (i : Z) (v : A) :
  0 <= i < len a ->
  exists a', store a i v = Return a' /\ len a' = len a
             /\ firstn (Z.to_nat (i + 1)) a' = firstn (Z.to_nat i) a ++ [v].
Proof.
  intros H. destruct (split_at a i H) as (xs & z & zs & -> & Hl).
  subst i. rewrite store_app. eexists. split; [reflexivity |]. split.
  - rewrite !len_app. unfold len. simpl. lia.
  - unfold len. rewrite Nat2Z.id.
    replace (Z.to_nat (Z.of_nat (length xs) + 1)) with (length xs + 1)%nat by lia.
    rewrite firstn_app_2. simpl. rewrite firstn_app, firstn_all, Nat.sub_diag.
    simpl. now rewrite app_nil_r.
Qed.

Lemma store_Forall {A} (Q : A -> Prop) (a : list A) (i : Z) (v : A) :
  0 <= i < len a -> Forall Q a -> Q v ->
  exists a', store a i v = Return a' /\ len a' = len a /\ Forall Q a'.
Proof.
  intros H Ha Hv. destruct (split_at a i H) as (xs & z & zs & -> & Hl).
  subst i. rewrite store_app. eexists. split; [reflexivity |]. split.
  - rewrite !len_app. unfold len. simpl. lia.
  - apply Forall_app in Ha. destruct Ha as [H1 H2]. inversion H2; subst.
    apply Forall_app. split; [assumption | now constructor].
Qed.

(** A loop that fills [a] in order with values that satisfy [Q]. *)
Lemma fill_loop {A} (Q : A -> Prop) (body : Z -> list A -> exec (list A))
  (n : nat) (a0 : list A) :
  len a0 = Z.of_nat n ->
  (forall i a, 0 <= i < Z.of_nat n -> len a = Z.of_nat n ->
               exists v, Q v /\ body i a = store a i v) ->
  exists a, for_loop n 0 body a0 = Return a /\ len a = Z.of_nat n /\ Forall Q a.
Proof.
  intros Hl Hbody.
  destruct (for_loop_inv
              (fun j a => len a = Z.of_nat n /\ Forall Q (firstn (Z.to_nat j) a))
              body n 0 a0) as (a & E & Hlen & HQ).
  - split; [assumption | constructor].
  - intros j a Hj [Hla HQa].
    destruct (Hbody j a) as (v & Hv & ->); [lia | assumption |].
    destruct (store_snoc a j v) as (a' & -> & Hl' & Hf); [lia |].
    exists a'. split; [reflexivity |]. split; [congruence |].
    rewrite Hf. apply Forall_app. split; [assumption | now constructor].
  - exists a. split; [assumption |]. split; [assumption |].
    rewrite firstn_all2 in HQ; [assumption | unfold len in Hlen; lia].
Qed.

Lemma bind_inv {A B} (m : exec A) (k : A -> exec B) (b : B) :
  Go.bind m k = Return b -> exists a, m = Return a /\ k a = Return b.
Proof. destruct m as [a | p]; simpl; [eauto | discriminate]. Qed.

Lemma store_at {A} (xs : list A) (z v : A) (zs : list A) (i : Z) :
  len xs = i -> store (xs ++ z :: zs) i v = Return (xs ++ v :: zs).
Proof. intros <-. apply store_app. Qed.

Lemma index_at {A} (xs : list A) (z : A) (zs : list A) (i : Z) :
  len xs = i -> index (xs ++ z :: zs) i = Return z.
Proof. intros <-. apply index_app. Qed.

(** The invariant rule applied to the loop in the goal. *)
Tactic Notation "loop_inv" constr(P) "as" simple_intropattern(pat) :=
  match goal with
  | |- context [for_loop ?n ?i ?body ?s] =>
      destruct (for_loop_inv P body n i s) as pat
  end.

End GoFacts.

(** ** The Ring-SIS hash *)

Module SisFacts.

Import GoFacts Bn254 Sis.
Local Open Scope exec_scope.

Lemma length_FFT d a : length (FFT d a) = length a.
Proof. unfold FFT. now rewrite length_map, length_seq. Qed.

Lemma length_FFTInverse d a : length (FFTInverse d a) = length a.
Proof. unfold FFTInverse. now rewrite length_map, length_seq. Qed.

Lemma two_pow_bounds (l : Z) : 0 <= l <= 27 -> 1 <= 2 ^ l <= 2 ^ 27.
Proof.
  intros H. split.
  - apply (Z.pow_le_mono_r 2 0 l); lia.
  - apply Z.pow_le_mono_r; lia.
Qed.

Lemma shl_one (l : Z) : 0 <= l <= 27 -> int_shl 1 l = Return (2 ^ l).
Proof.
  intros H. unfold int_shl. destruct (Z.ltb_spec l 0); [lia |].
  rewrite Z.shiftl_1_l. rewrite int64_wrap_small; [reflexivity |].
  pose proof (two_pow_bounds l H). lia.
Qed.

Lemma NewRSis_returns (seed l B k : Z) :
  0 <= l <= 27 -> 0 <= k ->
  exists r, NewRSis seed l B k = Return (r, None)
            /\ buffer r = [] /\ LogTwoBound r = B
            /\ NbBytesToSum r
               = int64_wrap (Z.quot (int_mul (int_mul B (2 ^ l)) k) 8)
            /\ shaped r l k
            /\ Domain r = NewDomain (uint64 (2 ^ l))
                            (Exp rootOfUnity (2 ^ (27 - l))).
Proof.
  intros Hl Hk. unfold NewRSis.
  pose proof (two_pow_bounds l Hl) as Hp.
  replace (int_sub 28 (int_add l 1)) with (27 - l)
    by (unfold int_sub, int_add; rewrite (int64_wrap_small (l + 1)) by lia;
        rewrite int64_wrap_small; lia).
  rewrite (shl_one (27 - l)) by lia. cbn [Go.bind].
  rewrite (shl_one l) by lia. cbn [Go.bind].
  rewrite (make_ok [] k) by lia. cbn [Go.bind].
  destruct (fill_loop (fun row : list Z => len row = 2 ^ l)
              (fun i A =>
                 row <- make 0 (2 ^ l) ;;
                 row <- for_loop (Z.to_nat (2 ^ l)) 0
                          (fun j row => store row j (genRandom seed i j)) row ;;
                 store A i row)
              (Z.to_nat k) (repeat [] (Z.to_nat k)))
    as (A & EA & HlenA & HA).
  { rewrite len_repeat. reflexivity. }
  { intros i a Hi Ha. rewrite (make_ok 0 (2 ^ l)) by lia. cbn [Go.bind].
    destruct (fill_loop (fun _ : Z => True)
                (fun j row => store row j (genRandom seed i j))
                (Z.to_nat (2 ^ l)) (repeat 0 (Z.to_nat (2 ^ l))))
      as (row & Er & Hlr & _).
    - now rewrite len_repeat.
    - intros j row _ _. eexists. split; [exact I | reflexivity].
    - exists row. split; [lia |]. rewrite Er. reflexivity. }
  rewrite EA. cbn [Go.bind].
  set (domain := NewDomain (uint64 (2 ^ l)) _).
  destruct (fill_loop (fun row : list Z => len row = 2 ^ l)
              (fun i Afft =>
                 row <- make 0 (2 ^ l) ;;
                 row <- for_loop (Z.to_nat (2 ^ l)) 0
                          (fun j row =>
                             Ai <- index A i ;;
                             Return (FFT domain (copy row Ai))) row ;;
                 store Afft i row)
              (Z.to_nat k) (repeat [] (Z.to_nat k)))
    as (Afft & EF & HlenF & HF).
  { rewrite len_repeat. reflexivity. }
  { intros i a Hi Ha. rewrite (make_ok 0 (2 ^ l)) by lia. cbn [Go.bind].
    destruct (for_loop_inv (fun (_ : Z) (row : list Z) => len row = 2 ^ l)
                (fun j row => Ai <- index A i ;; Return (FFT domain (copy row Ai)))
                (Z.to_nat (2 ^ l)) 0 (repeat 0 (Z.to_nat (2 ^ l))))
      as (row & Er & Hlr).
    - rewrite len_repeat. lia.
    - intros j row Hj Hrow. rewrite (index_nth A i []) by lia. cbn [Go.bind].
      eexists. split; [reflexivity |].
      unfold len. rewrite length_FFT, length_copy. exact Hrow.
    - exists row. split; [exact Hlr |]. rewrite Er. reflexivity. }
  rewrite EF. cbn [Go.bind].
  eexists. split; [reflexivity |].
  unfold shaped.
  cbn [buffer Sis.A AfftCosetBitreversed LogTwoBound NbBytesToSum Domain
         Degree].
  rewrite HlenA, HlenF, Z2Nat.id by lia.
  repeat split; try assumption; reflexivity.
Qed.

Lemma land_1_bit (x : Z) : is_bit (Z.land x 1).
Proof.
  unfold is_bit.
  assert (E : Z.land x 1 = x mod 2) by (apply (Z.land_ones x 1); lia).
  rewrite E. pose proof (Z.mod_pos_bound x 2). lia.
Qed.

Lemma Sum_bits_returns (r : RSis) :
  0 <= NbBytesToSum r < 2 ^ 60 ->
  exists mBits,
    Sum_bits r = Return (skipn (Z.to_nat (NbBytesToSum r)) (padded r), mBits)
    /\ len mBits = 8 * NbBytesToSum r
    /\ Forall is_bit mBits.
Proof.
  intros HN. unfold Sum_bits.
  set (N := NbBytesToSum r) in *.
  assert (Epad : (if len (buffer r) <? N
                  then toPadd <- make 0 (N - len (buffer r)) ;;
                       Return (buffer r ++ toPadd)
                  else Return (buffer r)) = Return (padded r)).
  { unfold padded. fold N. destruct (Z.ltb_spec (len (buffer r)) N).
    - rewrite make_ok by lia. reflexivity.
    - replace (Z.to_nat (N - len (buffer r))) with 0%nat by lia.
      simpl. now rewrite app_nil_r. }
  rewrite Epad. cbn [Go.bind].
  assert (Hpad : N <= len (padded r)).
  { unfold padded. rewrite len_app, len_repeat. fold N.
    pose proof (len_nonneg (buffer r)). lia. }
  replace (int_mul N 8) with (8 * N)
    by (unfold int_mul; rewrite int64_wrap_small; lia).
  rewrite make_ok by lia. cbn [Go.bind].
  destruct (for_loop_inv
              (fun i (st : list Z * list Z) =>
                 fst st = skipn (Z.to_nat i) (padded r)
                 /\ len (snd st) = 8 * N /\ Forall is_bit (snd st))
              (fun i st =>
                 let '(buf, mBits) := st in
                 match buf with
                 | [] => Panic PanicErr
                 | tmp :: buf' =>
                     mBits <- for_loop 8 0
                                (fun j mBits =>
                                   store mBits (i * 8 + j)
                                     (Z.land (Z.shiftr tmp (7 - j)) 1)) mBits ;;
                     Return (buf', mBits)
                 end)
              (Z.to_nat N) 0 (padded r, repeat 0 (Z.to_nat (8 * N))))
    as ([rest mBits] & E & H1 & H2 & H3).
  - cbn [fst snd]. split; [reflexivity |]. rewrite len_repeat. split; [lia |].
    apply Forall_forall. intros x Hx. apply repeat_spec in Hx. subst.
    unfold is_bit. lia.
  - intros i [buf mBits] Hi (Hb & Hl & Hf). cbn [fst snd] in Hb, Hl, Hf.
    destruct (split_at (padded r) i) as (xs & tmp & zs & Hsplit & Hxs); [lia |].
    assert (Hbuf : buf = tmp :: zs).
    { rewrite Hb, Hsplit. unfold len in Hxs.
      replace (Z.to_nat i) with (length xs) by lia.
      rewrite skipn_app, skipn_all, Nat.sub_diag. reflexivity. }
    rewrite Hbuf.
    destruct (for_loop_inv
                (fun (_ : Z) (mBits : list Z) =>
                   len mBits = 8 * N /\ Forall is_bit mBits)
                (fun j mBits =>
                   store mBits (i * 8 + j) (Z.land (Z.shiftr tmp (7 - j)) 1))
                8 0 mBits) as (mBits' & E' & Hl' & Hf').
    + split; assumption.
    + intros j s Hj (Hls & Hfs).
      destruct (store_Forall is_bit s (i * 8 + j)
                  (Z.land (Z.shiftr tmp (7 - j)) 1)) as (s' & -> & Hs1 & Hs2);
        [lia | assumption | apply land_1_bit |].
      exists s'. split; [reflexivity |]. split; [lia | assumption].
    + rewrite E'. cbn [Go.bind]. eexists. split; [reflexivity |].
      cbn [fst snd]. split; [| split; assumption].
      rewrite Hsplit. unfold len in Hxs.
      replace (Z.to_nat (i + 1)) with (length (xs ++ [tmp]))
        by (rewrite length_app; simpl; lia).
      replace (xs ++ tmp :: zs) with ((xs ++ [tmp]) ++ zs)
        by (now rewrite <- app_assoc).
      rewrite skipn_app, skipn_all, Nat.sub_diag. reflexivity.
  - exists mBits. cbn [fst snd] in H1, H2, H3. split; [| split; assumption].
    rewrite E. f_equal. f_equal. rewrite H1. f_equal. lia.
Qed.

Lemma u8_le (y : Z) : 0 <= y -> 0 <= u8 y <= y.
Proof.
  intros H. unfold u8. split.
  - apply Z.mod_pos_bound. lia.
  - apply Z.mod_le; lia.
Qed.

(** One more bit, of weight [2^s], added to a byte under construction. *)
Lemma acc_step (c bit s w : Z) :
  0 <= c -> is_bit bit -> 0 <= s -> c + 2 ^ (s + 1) <= w ->
  0 <= u8 (c + u8 (Z.shiftl bit s))
  /\ u8 (c + u8 (Z.shiftl bit s)) + 2 ^ s <= w.
Proof.
  intros Hc Hb Hs Hw. unfold is_bit in Hb.
  rewrite Z.shiftl_mul_pow2 by assumption.
  assert (Hp : 0 < 2 ^ s) by (apply Z.pow_pos_nonneg; lia).
  assert (H1 : 0 <= bit * 2 ^ s <= 2 ^ s) by nia.
  pose proof (u8_le (bit * 2 ^ s) (proj1 H1)) as H2.
  pose proof (u8_le (c + u8 (bit * 2 ^ s))) as H3.
  rewrite Z.pow_add_r in Hw by lia. change (2 ^ 1) with 2 in Hw. lia.
Qed.

Lemma be_decode_acc (bs : list Z) (acc : Z) :
  fold_left (fun a b => a * 256 + b) bs acc
  = acc * 256 ^ len bs + be_decode bs.
Proof.
  unfold be_decode. revert acc.
  induction bs as [| b bs IH]; intros acc.
  - simpl. change (len []) with 0. lia.
  - simpl fold_left. rewrite (IH (acc * 256 + b)), (IH b).
    replace (len (b :: bs)) with (len bs + 1)
      by (unfold len; simpl length; lia).
    rewrite Z.pow_add_r by (try apply len_nonneg; lia). lia.
Qed.

Lemma be_decode_bytes (bs : list Z) :
  Forall is_byte bs -> 0 <= be_decode bs < 256 ^ len bs.
Proof.
  induction 1 as [| b bs Hb Hbs IH].
  - cbn. lia.
  - unfold be_decode. simpl fold_left. rewrite be_decode_acc.
    replace (len (b :: bs)) with (len bs + 1)
      by (unfold len; simpl length; lia).
    rewrite Z.pow_add_r by (try apply len_nonneg; lia).
    unfold is_byte in Hb. nia.
Qed.

Lemma be_decode_bound (b0 : Z) (done : list Z) (offset : Z) :
  0 <= offset -> 0 <= b0 < 2 ^ offset -> Forall is_byte done ->
  0 <= be_decode (b0 :: done) < 2 ^ (offset + 8 * len done).
Proof.
  intros Ho Hb Hd. unfold be_decode. simpl fold_left. rewrite be_decode_acc.
  pose proof (be_decode_bytes done Hd) as H.
  pose proof (len_nonneg done) as Hl.
  rewrite Z.pow_add_r by lia.
  replace (2 ^ (8 * len done)) with (256 ^ len done)
    by (change 256 with (2 ^ 8); now rewrite <- Z.pow_mul_r by lia).
  nia.
Qed.

Section Coefficient.

Variable mBits : list Z.
Hypothesis mBits_bits : Forall is_bit mBits.

Lemma index_bit (i : Z) :
  0 <= i < len mBits -> exists bit, index mBits i = Return bit /\ is_bit bit.
Proof.
  intros H. rewrite (index_nth mBits i 0) by assumption.
  eexists. split; [reflexivity |].
  rewrite Forall_forall in mBits_bits. apply mBits_bits.
  apply nth_In. unfold len in H. lia.
Qed.

(** The bits above the whole bytes of a coefficient go to [buf[0]]. *)
Lemma offset_loop (base offset : Z) (rest : list Z) :
  0 <= offset -> 0 <= base -> base + offset <= len mBits ->
  exists b0,
    for_loop (Z.to_nat offset) 0
      (fun j buf =>
         bit <- index mBits (base + j) ;;
         b0 <- index buf 0 ;;
         store buf 0 (u8 (b0 + u8 (Z.shiftl bit (offset - 1 - j)))))
      (0 :: rest)
    = Return (b0 :: rest) /\ 0 <= b0 < 2 ^ offset.
Proof.
  intros Ho Hb Hlen.
  destruct (for_loop_inv
              (fun j buf => exists b0, buf = b0 :: rest /\ 0 <= b0
                                       /\ b0 + 2 ^ (offset - j) <= 2 ^ offset)
              (fun j buf =>
                 bit <- index mBits (base + j) ;;
                 b0 <- index buf 0 ;;
                 store buf 0 (u8 (b0 + u8 (Z.shiftl bit (offset - 1 - j)))))
              (Z.to_nat offset) 0 (0 :: rest)) as (buf & E & b0 & -> & H0 & H1).
  - exists 0. rewrite Z.sub_0_r. split; [reflexivity | lia].
  - intros j buf Hj (b0 & -> & H0 & H1).
    destruct (index_bit (base + j)) as (bit & -> & Hbit); [lia |].
    cbn [Go.bind].
    change (index (b0 :: rest) 0) with (index ([] ++ b0 :: rest) (len (@nil Z))).
    rewrite index_app. cbn [Go.bind].
    change (store (b0 :: rest) 0) with (store ([] ++ b0 :: rest) (len (@nil Z))).
    rewrite store_app. eexists. split; [reflexivity |].
    eexists. split; [reflexivity |].
    replace (offset - (j + 1)) with (offset - 1 - j) by lia.
    apply acc_step; try assumption; try lia.
    now replace (offset - 1 - j + 1) with (offset - j) by lia.
  - exists b0. split; [exact E |].
    replace (offset - (0 + Z.of_nat (Z.to_nat offset))) with 0 in H1 by lia.
    change (2 ^ 0) with 1 in H1. lia.
Qed.

(** The eight bits of the byte [buf[j+1]]. *)
Lemma byte_loop (base j : Z) (pre post : list Z) :
  0 <= j -> len pre = j + 1 -> 0 <= base -> base + 8 * j + 8 <= len mBits ->
  exists c,
    for_loop 8 0
      (fun k buf =>
         bit <- index mBits (base + 8 * j + k) ;;
         bj <- index buf (j + 1) ;;
         store buf (j + 1) (u8 (bj + u8 (Z.shiftl bit (7 - k)))))
      (pre ++ 0 :: post)
    = Return (pre ++ c :: post) /\ is_byte c.
Proof.
  intros Hj0 Hpre Hb Hlen.
  destruct (for_loop_inv
              (fun k buf => exists c, buf = pre ++ c :: post /\ 0 <= c
                                      /\ c + 2 ^ (8 - k) <= 256)
              (fun k buf =>
                 bit <- index mBits (base + 8 * j + k) ;;
                 bj <- index buf (j + 1) ;;
                 store buf (j + 1) (u8 (bj + u8 (Z.shiftl bit (7 - k)))))
              8 0 (pre ++ 0 :: post)) as (buf & E & c & -> & H0 & H1).
  - exists 0. split; [reflexivity |]. change (2 ^ (8 - 0)) with 256. lia.
  - intros k buf Hk (c & -> & H0 & H1).
    destruct (index_bit (base + 8 * j + k)) as (bit & -> & Hbit); [lia |].
    cbn [Go.bind]. rewrite <- Hpre, index_app. cbn [Go.bind].
    rewrite store_app. eexists. split; [reflexivity |].
    eexists. split; [reflexivity |].
    replace (8 - (k + 1)) with (7 - k) by lia.
    apply acc_step; try assumption; try lia.
    now replace (7 - k + 1) with (8 - k) by lia.
  - exists c. split; [exact E |]. unfold is_byte.
    change (2 ^ (8 - (0 + Z.of_nat 8))) with 1 in H1. lia.
Qed.

(** The whole bytes of a coefficient. *)
Lemma bytes_loop (base : Z) (W : nat) (b0 : Z) :
  0 <= base -> base + 8 * Z.of_nat W <= len mBits ->
  exists done,
    for_loop W 0
      (fun j buf =>
         for_loop 8 0
           (fun k buf =>
              bit <- index mBits (base + 8 * j + k) ;;
              bj <- index buf (j + 1) ;;
              store buf (j + 1) (u8 (bj + u8 (Z.shiftl bit (7 - k))))) buf)
      (b0 :: repeat 0 W)
    = Return (b0 :: done) /\ length done = W /\ Forall is_byte done.
Proof.
  intros Hb Hlen.
  destruct (for_loop_inv
              (fun j buf =>
                 exists done, buf = b0 :: done ++ repeat 0 (W - Z.to_nat j)
                              /\ len done = j /\ Forall is_byte done)
              (fun j buf =>
                 for_loop 8 0
                   (fun k buf =>
                      bit <- index mBits (base + 8 * j + k) ;;
                      bj <- index buf (j + 1) ;;
                      store buf (j + 1) (u8 (bj + u8 (Z.shiftl bit (7 - k)))))
                   buf)
              W 0 (b0 :: repeat 0 W)) as (buf & E & done & -> & H0 & H1).
  - exists []. simpl. rewrite Nat.sub_0_r. repeat split. constructor.
  - intros j buf Hj (done & -> & Hd & Hf).
    destruct (W - Z.to_nat j)%nat as [| w] eqn:Ew; [lia |].
    simpl repeat.
    destruct (byte_loop base j (b0 :: done) (repeat 0 w)) as (c & Ec & Hc).
    + lia.
    + unfold len in *. simpl length. lia.
    + assumption.
    + lia.
    + simpl app in Ec. rewrite Ec. eexists. split; [reflexivity |].
      exists (done ++ [c]). rewrite <- app_assoc. simpl.
      replace (W - Z.to_nat (j + 1))%nat with w by lia.
      split; [reflexivity |]. split.
      * rewrite len_app. unfold len in *. simpl. lia.
      * apply Forall_app. split; [assumption | now constructor].
  - exists done. replace (W - Z.to_nat (0 + Z.of_nat W))%nat with 0%nat in E by lia.
    simpl in E. rewrite app_nil_r in E. split; [exact E |].
    split; [unfold len in H0; lia | assumption].
Qed.

End Coefficient.

(** [buf] is cleared for the next coefficient. *)
Lemma zero_loop (n : nat) (buf : list Z) :
  length buf = n ->
  for_loop n 0 (fun j buf => store buf j 0) buf = Return (repeat 0 n).
Proof.
  intros Hl.
  destruct (fill_loop (fun x => 0 = x) (fun j buf => store buf j 0) n buf)
    as (a & E & Hla & Ha).
  - unfold len. lia.
  - intros i a _ _. exists 0. split; reflexivity.
  - rewrite E. f_equal. apply Forall_eq_repeat in Ha. rewrite Ha.
    f_equal. unfold len in Hla. lia.
Qed.

Lemma Modulus_pos : 0 < Modulus.
Proof. reflexivity. Qed.

Lemma SetBytes_bound (buf : list Z) (w : Z) :
  0 <= be_decode buf < w -> 0 <= SetBytes buf < w.
Proof.
  intros H. unfold SetBytes, Fr.SetBytes.
  pose proof (Z.mod_pos_bound (be_decode buf) Modulus Modulus_pos).
  pose proof (Z.mod_le (be_decode buf) Modulus (proj1 H) Modulus_pos). lia.
Qed.

Lemma Sum_m_returns (r : RSis) (mBits : list Z) (l k : Z) :
  shaped r l k -> 0 <= l <= 27 -> 0 <= k ->
  1 <= LogTwoBound r -> LogTwoBound r * 2 ^ l * k < 2 ^ 63 ->
  0 <= NbBytesToSum r -> 8 * NbBytesToSum r <= LogTwoBound r * 2 ^ l * k ->
  len mBits = 8 * NbBytesToSum r -> Forall is_bit mBits ->
  exists m, Sum_m r mBits = Return m /\ len m = 2 ^ l * k
            /\ Forall (in_bound (LogTwoBound r)) m.
Proof.
  intros (Hd & HA & _ & _ & _) Hl Hk HB Hprod HN0 HN Hlen Hbits.
  pose proof (two_pow_bounds l Hl) as Hp.
  unfold Sum_m. rewrite Hd, HA.
  set (B := LogTwoBound r) in *. set (N := NbBytesToSum r) in *.
  assert (Hdk : 0 <= 2 ^ l * k <= B * 2 ^ l * k) by nia.
  replace (int_mul N 8) with (8 * N)
    by (unfold int_mul; rewrite int64_wrap_small; lia).
  replace (int_mul (2 ^ l) k) with (2 ^ l * k)
    by (unfold int_mul; rewrite int64_wrap_small; lia).
  rewrite (Z.rem_mod_nonneg B 8) by lia.
  assert (EW : (B - B mod 8) ÷ 8 = B / 8).
  { pose proof (Z.mod_le B 8). pose proof (Z.div_mod B 8).
    rewrite Z.quot_div_nonneg by lia.
    replace (B - B mod 8) with (B / 8 * 8) by lia.
    apply Z.div_mul. lia. }
  rewrite EW.
  set (offset := B mod 8). set (W := B / 8).
  assert (HBW : B = 8 * W + offset) by (apply Z.div_mod; lia).
  assert (Hoff : 0 <= offset < 8) by (apply Z.mod_pos_bound; lia).
  assert (HW : 0 <= W) by (apply Z.div_pos; lia).
  rewrite make_ok by lia. cbn [Go.bind].
  rewrite make_ok by lia. cbn [Go.bind].
  unfold int_div. destruct (Z.eqb_spec B 0) as [? | _]; [lia |]. cbn [Go.bind].
  rewrite Z.quot_div_nonneg by lia.
  set (T := 8 * N / B).
  assert (HT : 0 <= T /\ T * B <= 8 * N /\ T <= 2 ^ l * k).
  { unfold T. split; [apply Z.div_pos; lia |]. split.
    - pose proof (Z.mul_div_le (8 * N) B). lia.
    - apply Z.div_le_upper_bound; lia. }
  rewrite (int64_wrap_small T) by lia.
  replace (Z.to_nat (W + 1)) with (S (Z.to_nat W)) by lia.
  match goal with
  | |- context [for_loop ?n ?i ?body ?s] =>
      destruct (for_loop_inv
                  (fun (_ : Z) (st : list Z * list Z) =>
                     fst st = repeat 0 (S (Z.to_nat W))
                     /\ len (snd st) = 2 ^ l * k
                     /\ Forall (in_bound B) (snd st))
                  body n i s) as ([buf m] & E & _ & H2 & H3)
  end.
  - cbn [fst snd]. split; [reflexivity |]. rewrite len_repeat.
    split; [lia |]. apply Forall_forall. intros x Hx.
    apply repeat_spec in Hx. subst x. unfold in_bound.
    assert (0 < 2 ^ B) by (apply Z.pow_pos_nonneg; lia). lia.
  - intros i [buf m] Hi (Hbuf & Hm & Hf). cbn [fst snd] in Hbuf, Hm, Hf.
    subst buf. simpl repeat.
    assert (Hi' : (i + 1) * B <= 8 * N) by nia.
    destruct (offset_loop mBits Hbits (i * B) offset (repeat 0 (Z.to_nat W)))
      as (b0 & E0 & Hb0); [lia | nia | nia |].
    rewrite E0. cbn [Go.bind].
    destruct (bytes_loop mBits Hbits (i * B + offset) (Z.to_nat W) b0)
      as (done & E1 & Hdl & Hdf); [nia | nia |].
    rewrite E1. cbn [Go.bind].
    destruct (store_Forall (in_bound B) m i (SetBytes (b0 :: done)))
      as (m' & -> & Hm1 & Hm2); [lia | assumption | |].
    { unfold in_bound. apply SetBytes_bound.
      replace (2 ^ B) with (2 ^ (offset + 8 * len done))
        by (f_equal; unfold len; lia).
      apply be_decode_bound; [lia | assumption | assumption]. }
    cbn [Go.bind].
    rewrite zero_loop by (simpl; lia). cbn [Go.bind].
    eexists. split; [reflexivity |]. cbn [fst snd].
    split; [reflexivity |]. split; [lia | assumption].
  - rewrite E. cbn [Go.bind snd]. exists m.
    split; [reflexivity |]. cbn [snd] in H2, H3. split; assumption.
Qed.

Lemma length_be_encode (n : nat) (z : Z) : length (be_encode n z) = n.
Proof.
  revert z. induction n as [| n IH]; intros z; simpl; [reflexivity |].
  rewrite length_app, IH. simpl. lia.
Qed.

Lemma len_Bytes (x : Z) : len (Bytes x) = FrBytes.
Proof. unfold len, Bytes. rewrite length_be_encode. reflexivity. Qed.

Lemma len_nth_row (rows : list (list Z)) (d i : Z) :
  Forall (fun row => len row = d) rows -> 0 <= i < len rows ->
  len (nth (Z.to_nat i) rows []) = d.
Proof.
  intros HF Hi. rewrite Forall_forall in HF. apply HF.
  apply nth_In. unfold len in Hi. lia.
Qed.

Lemma MulMod_returns (r : RSis) (p q : list Z) :
  len p <= len q ->
  exists res, MulMod r p q = Return res /\ len res = len p.
Proof.
  intros H. unfold MulMod. pose proof (len_nonneg p).
  rewrite make_ok by assumption. cbn [Go.bind].
  loop_inv (fun (_ : Z) (res : list Z) => len res = len p)
    as (res & E & Hres).
  - rewrite len_repeat. lia.
  - intros i res Hi Hres. unfold len in Hi.
    rewrite (index_nth p i 0) by (unfold len; lia). cbn [Go.bind].
    rewrite (index_nth q i 0) by (unfold len in *; lia). cbn [Go.bind].
    destruct (store_ok res i (Mul (nth (Z.to_nat i) p 0) (nth (Z.to_nat i) q 0)))
      as (res' & -> & Hl' & _); [unfold len in *; lia |].
    exists res'. split; [reflexivity | congruence].
  - exists res. split; assumption.
Qed.

Lemma copy_into_returns (a : list Z) (lo hi : Z) (src : list Z) :
  0 <= lo <= hi -> hi <= len a ->
  exists a', copy_into a lo hi src = Return a' /\ len a' = len a.
Proof.
  intros H1 H2. unfold copy_into. rewrite slice_ok by assumption.
  cbn [Go.bind]. eexists. split; [reflexivity |].
  unfold len in *.
  rewrite !length_app, length_copy, !length_firstn, !length_skipn. lia.
Qed.

Lemma Sum_hash_returns (r : RSis) (m : list Z) (l k : Z) :
  shaped r l k -> 0 <= l <= 27 -> 0 <= k -> len m = 2 ^ l * k ->
  exists out, Sum_hash r m = Return out /\ len out = FrBytes * 2 ^ l.
Proof.
  intros (Hd & HA & HF & HAr & HFr) Hl Hk Hm.
  pose proof (two_pow_bounds l Hl) as Hp.
  unfold Sum_hash. rewrite Hd.
  rewrite make_ok by lia. cbn [Go.bind].
  loop_inv (fun (_ : Z) (res : list Z) => len res = 2 ^ l)
    as (res & E & Hres).
  - rewrite len_repeat. lia.
  - intros i res Hi Hres.
    assert (Hi' : 0 <= i < k) by (unfold len in HF; lia).
    rewrite slice_ok by nia. cbn [Go.bind].
    rewrite (index_nth (AfftCosetBitreversed r) i []) by lia. cbn [Go.bind].
    match goal with
    | |- context [MulMod r ?p ?q] =>
        destruct (MulMod_returns r p q) as (t & -> & Ht)
    end.
    { rewrite (len_nth_row _ (2 ^ l)) by (try assumption; lia).
      unfold len. rewrite length_FFT, length_firstn, length_skipn.
      unfold len in Hm. nia. }
    rewrite (len_nth_row _ (2 ^ l)) in Ht by (try assumption; lia).
    cbn [Go.bind].
    loop_inv (fun (_ : Z) (res : list Z) => len res = 2 ^ l)
      as (res' & E' & Hres').
    + assumption.
    + intros j s Hj Hs. unfold len in Hj.
      rewrite (index_nth s j 0) by (unfold len in *; lia). cbn [Go.bind].
      rewrite (index_nth t j 0) by (unfold len in *; lia). cbn [Go.bind].
      destruct (store_ok s j (Add (nth (Z.to_nat j) s 0) (nth (Z.to_nat j) t 0)))
        as (s' & -> & Hl' & _); [unfold len in *; lia |].
      exists s'. split; [reflexivity | congruence].
    + exists res'. split; assumption.
  - rewrite E. cbn [Go.bind].
    rewrite (index_nth _ 0 0)
      by (unfold len in *; rewrite length_FFTInverse; lia).
    cbn [Go.bind]. rewrite len_Bytes.
    replace (int_mul FrBytes (2 ^ l)) with (FrBytes * 2 ^ l)
      by (unfold int_mul; rewrite int64_wrap_small;
          [reflexivity | change FrBytes with 32; lia]).
    rewrite make_ok by (change FrBytes with 32; lia). cbn [Go.bind].
    loop_inv (fun (_ : Z) (out : list Z) => len out = FrBytes * 2 ^ l)
      as (out & E' & Hout).
    + rewrite len_repeat. change FrBytes with 32. lia.
    + intros i s Hi Hs.
      rewrite (index_nth _ i 0)
        by (unfold len in *; rewrite length_FFTInverse; lia).
      cbn [Go.bind].
      match goal with
      | |- context [copy_into ?a ?lo ?hi ?src] =>
          destruct (copy_into_returns a lo hi src) as (s' & -> & Hs')
      end.
      * change FrBytes with 32. lia.
      * rewrite Hs. change FrBytes with 32. lia.
      * exists s'. split; [reflexivity | congruence].
    + exists out. split; assumption.
Qed.

Lemma instance_set_buffer r l B k buf :
  instance r l B k -> instance (set_buffer r buf) l B k.
Proof. intros H. exact H. Qed.

Lemma NewRSis_instance (seed l B k : Z) :
  valid_config l B k ->
  exists r, NewRSis seed l B k = Return (r, None)
            /\ buffer r = [] /\ instance r l B k.
Proof.
  intros Hv. pose proof Hv as (Hl & HB & Hk & Hprod).
  destruct (NewRSis_returns seed l B k Hl Hk)
    as (r & E & Hbuf & HLB & HN & Hs & _).
  exists r. split; [exact E |]. split; [exact Hbuf |].
  split; [exact Hv |]. split; [exact Hs |]. split; [exact HLB |].
  rewrite HN. pose proof (two_pow_bounds l Hl) as Hp.
  destruct (Z.eq_dec k 0) as [-> | Hk0].
  - unfold int_mul at 1. rewrite Z.mul_0_r, Z.mul_0_r. reflexivity.
  - assert (H1 : 0 <= B * 2 ^ l) by nia.
    assert (H2 : B * 2 ^ l <= B * 2 ^ l * k) by nia.
    assert (E1 : int_mul B (2 ^ l) = B * 2 ^ l).
    { unfold int_mul. apply int64_wrap_small. lia. }
    assert (E2 : int_mul (B * 2 ^ l) k = B * 2 ^ l * k).
    { unfold int_mul. apply int64_wrap_small. lia. }
    rewrite E1, E2. rewrite Z.quot_div_nonneg by lia.
    apply int64_wrap_small.
    pose proof (Z.div_pos (B * 2 ^ l * k) 8).
    pose proof (Z.div_le_upper_bound (B * 2 ^ l * k) 8 (B * 2 ^ l * k)). lia.
Qed.

Lemma instance_facts r l B k :
  instance r l B k ->
  0 <= NbBytesToSum r < 2 ^ 60
  /\ 8 * NbBytesToSum r <= LogTwoBound r * 2 ^ l * k.
Proof.
  intros ((Hl & HB & Hk & Hprod) & Hs & HLB & HN).
  pose proof (two_pow_bounds l Hl) as Hp.
  assert (H0 : 0 <= B * 2 ^ l * k) by nia.
  rewrite HN, HLB.
  pose proof (Z.div_pos (B * 2 ^ l * k) 8).
  pose proof (Z.mul_div_le (B * 2 ^ l * k) 8).
  change (2 ^ 63) with (8 * 2 ^ 60) in Hprod. lia.
Qed.

Lemma skipn_padded (r : RSis) :
  0 <= NbBytesToSum r ->
  skipn (Z.to_nat (NbBytesToSum r)) (padded r)
  = skipn (Z.to_nat (NbBytesToSum r)) (buffer r).
Proof.
  intros HN. unfold padded. rewrite skipn_app.
  destruct (Z.le_gt_cases (NbBytesToSum r) (len (buffer r))) as [H | H];
    unfold len in H.
  - replace (Z.to_nat (NbBytesToSum r - len (buffer r))) with 0%nat
      by (unfold len; lia).
    simpl. rewrite skipn_nil. apply app_nil_r.
  - rewrite (skipn_all2 (buffer r)) by lia. simpl.
    apply skipn_all2. rewrite repeat_length. unfold len. lia.
Qed.

(** [Sum] returns on every instance: it leaves in the buffer what lies
    beyond the first [NbBytesToSum] bytes, and appends [FrBytes] bytes for
    each of the [2^l] coefficients. *)
Lemma Sum_returns (r : RSis) (l B k : Z) (b : list Z) :
  instance r l B k ->
  exists out,
    Sum r b
    = Return (set_buffer r (skipn (Z.to_nat (NbBytesToSum r)) (buffer r)),
              b ++ out)
    /\ len out = FrBytes * 2 ^ l.
Proof.
  intros Hi. pose proof (instance_facts r l B k Hi) as (HN & HN8).
  destruct Hi as ((Hl & HB & Hk & Hprod) & Hs & HLB & HNeq).
  unfold Sum.
  destruct (Sum_bits_returns r HN) as (mBits & -> & Hlen & Hbits).
  cbn [Go.bind fst snd].
  destruct (Sum_m_returns r mBits l k) as (m & -> & Hm & _);
    try assumption; try lia; try (rewrite HLB; lia).
  cbn [Go.bind].
  destruct (Sum_hash_returns r m l k Hs Hl Hk Hm) as (out & -> & Hout).
  cbn [Go.bind]. exists out. split; [| exact Hout].
  rewrite skipn_padded by lia. reflexivity.
Qed.

Lemma NewRSis_is_instance (seed l B k : Z) (r : RSis) :
  valid_config l B k -> NewRSis seed l B k = Return (r, None) ->
  buffer r = [] /\ instance r l B k.
Proof.
  intros Hv E. destruct (NewRSis_instance seed l B k Hv) as (r' & E' & H).
  rewrite E in E'. injection E' as ->. exact H.
Qed.

(** C9: [Reset] empties the byte buffer and changes nothing else: the key
    [A], its coset-NTT form [AfftCosetBitreversed], the domain, the degree,
    [LogTwoBound] and [NbBytesToSum] are those of the instance before the
    call. *)
Theorem Reset_frame (r : RSis) :
  buffer (Reset r) = []
  /\ A (Reset r) = A r
  /\ AfftCosetBitreversed (Reset r) = AfftCosetBitreversed r
  /\ Domain (Reset r) = Domain r
  /\ Degree (Reset r) = Degree r
  /\ LogTwoBound (Reset r) = LogTwoBound r
  /\ NbBytesToSum (Reset r) = NbBytesToSum r.
Proof. repeat split. Qed.

(** C8: in every execution of [Sum] on an instance made by [NewRSis],
    whatever its buffer holds, the vector [m] that [Sum] hashes has
    [keySize . d] coefficients, and each of them, assembled from
    [LogTwoBound = B] consecutive bits of the stream, lies in [[0, 2^B)]. *)
Theorem Sum_coefficients_bounded (seed l B k : Z) (r : RSis) (buf b : list Z) :
  valid_config l B k ->
  NewRSis seed l B k = Return (r, None) ->
  let r' := set_buffer r buf in
  exists rest mBits m,
    Sum_bits r' = Return (rest, mBits)
    /\ Sum_m r' mBits = Return m
    /\ Sum r' b = (resBytes <- Sum_hash r' m ;;
                   Return (set_buffer r' rest, b ++ resBytes))
    /\ len m = k * 2 ^ l
    /\ forall i, 0 <= i < k * 2 ^ l ->
                 exists x, index m i = Return x /\ 0 <= x < 2 ^ B.
Proof.
  intros Hv E r'.
  destruct (NewRSis_is_instance seed l B k r Hv E) as (_ & Hi).
  apply (instance_set_buffer r l B k buf) in Hi. fold r' in Hi.
  pose proof (instance_facts r' l B k Hi) as (HN & HN8).
  destruct Hi as ((Hl & HB & Hk & Hprod) & Hs & HLB & HNeq).
  destruct (Sum_bits_returns r' HN) as (mBits & Eb & Hlen & Hbits).
  destruct (Sum_m_returns r' mBits l k) as (m & Em & Hm & Hf);
    try assumption; try lia; try (rewrite HLB; lia).
  eexists _, mBits, m. split; [exact Eb |]. split; [exact Em |].
  split; [| split].
  - unfold Sum. rewrite Eb. cbn [Go.bind fst snd]. rewrite Em. reflexivity.
  - lia.
  - intros i Hi. rewrite (index_nth m i 0) by lia.
    eexists. split; [reflexivity |].
    rewrite Forall_forall in Hf. rewrite <- HLB. apply Hf.
    apply nth_In. unfold len in Hm. lia.
Qed.

Lemma valid_test_config : valid_config 1 4 8.
Proof. unfold valid_config. cbn. lia. Qed.

Lemma test_instance_made : NewRSis 5 1 4 8 = Return (test_instance, None).
Proof. vm_compute. reflexivity. Qed.

Lemma Sum_coefficients_bounded_witness :
  valid_config 1 4 8
  /\ NewRSis 5 1 4 8 = Return (test_instance, None)
  /\ exists rest mBits m,
      Sum_bits (set_buffer test_instance [0xa1; 0x90]) = Return (rest, mBits)
      /\ Sum_m (set_buffer test_instance [0xa1; 0x90]) mBits = Return m
      /\ Sum (set_buffer test_instance [0xa1; 0x90]) []
         = (resBytes <- Sum_hash (set_buffer test_instance [0xa1; 0x90]) m ;;
            Return (set_buffer (set_buffer test_instance [0xa1; 0x90]) rest,
                    [] ++ resBytes))
      /\ len m = 8 * 2 ^ 1
      /\ forall i, 0 <= i < 8 * 2 ^ 1 ->
                   exists x, index m i = Return x /\ 0 <= x < 2 ^ 4.
Proof.
  split; [exact valid_test_config |].
  split; [exact test_instance_made |].
  exact (Sum_coefficients_bounded 5 1 4 8 test_instance [0xa1; 0x90] []
           valid_test_config test_instance_made).
Defined.

Lemma Size_returns (r : RSis) (l B k : Z) :
  instance r l B k -> 1 <= k -> Size r = Return (2 ^ l * BitLen / 8).
Proof.
  intros ((Hl & HB & Hk & Hprod) & (Hd & HA & HF & HAr & HFr) & _) Hk1.
  pose proof (two_pow_bounds l Hl) as Hp.
  unfold Size. rewrite (index_nth (A r) 0 []) by lia. cbn [Go.bind].
  rewrite (len_nth_row (A r) (2 ^ l) 0) by (try assumption; lia).
  change BitLen with 254.
  replace (int_mul (2 ^ l) 254) with (2 ^ l * 254)
    by (unfold int_mul; rewrite int64_wrap_small; lia).
  rewrite Z.quot_div_nonneg by lia.
  rewrite int64_wrap_small; [reflexivity |].
  pose proof (Z.div_pos (2 ^ l * 254) 8).
  pose proof (Z.div_le_upper_bound (2 ^ l * 254) 8 (2 ^ l * 254)). lia.
Qed.

(** C1 (the size contract, which the code breaks): on every instance made
    by [NewRSis] with a key of at least one polynomial, [Sum] returns a
    slice [FrBytes . d = 32 d] bytes longer than its argument, while
    [Size] returns [d . BitLen / 8], the integer part of [254 d / 8],
    which is less. *)
Theorem Sum_length_Size (seed l B k : Z) (r : RSis) (buf b : list Z) :
  valid_config l B k -> 1 <= k ->
  NewRSis seed l B k = Return (r, None) ->
  exists r' out size,
    Sum (set_buffer r buf) b = Return (r', out)
    /\ Size (set_buffer r buf) = Return size
    /\ len out - len b = FrBytes * 2 ^ l
    /\ size = 2 ^ l * BitLen / 8
    /\ size < len out - len b.
Proof.
  intros Hv Hk1 E.
  destruct (NewRSis_is_instance seed l B k r Hv E) as (_ & Hi).
  apply (instance_set_buffer r l B k buf) in Hi.
  destruct (Sum_returns (set_buffer r buf) l B k b Hi) as (out & Es & Hout).
  eexists _, _, _. split; [exact Es |].
  split; [exact (Size_returns _ l B k Hi Hk1) |].
  rewrite len_app. split; [lia |]. split; [reflexivity |].
  destruct Hv as (Hl & _). pose proof (two_pow_bounds l Hl) as Hp.
  change BitLen with 254. change FrBytes with 32 in *.
  assert (2 ^ l * 254 / 8 < 32 * 2 ^ l)
    by (apply Z.div_lt_upper_bound; lia).
  lia.
Qed.

Lemma Sum_length_Size_witness :
  valid_config 1 4 8 /\ 1 <= 8
  /\ NewRSis 5 1 4 8 = Return (test_instance, None)
  /\ exists r' out size,
      Sum (set_buffer test_instance []) [] = Return (r', out)
      /\ Size (set_buffer test_instance []) = Return size
      /\ len out - len (@nil Z) = FrBytes * 2 ^ 1
      /\ size = 2 ^ 1 * BitLen / 8
      /\ size < len out - len (@nil Z).
Proof.
  split; [exact valid_test_config |].
  split; [lia |].
  split; [exact test_instance_made |].
  apply (Sum_length_Size 5 1 4 8 test_instance [] []
           valid_test_config);
    [lia | exact test_instance_made].
Defined.

(** The instance of [TestRSis]: [Sum] appends 64 bytes, [Size] returns 63. *)
Example Size_contract_broken :
  (s <- Sum test_instance [] ;;
   size <- Size test_instance ;;
   Return (len (snd s), size))
  = Return (64, 63).
Proof. vm_compute. reflexivity. Qed.

(** C6: [Sum] does not drain the buffer, and changes it. After
    [Write(w1)] and [Sum] on an instance made by [NewRSis], the buffer
    holds what [w1] has beyond its first [NbBytesToSum] bytes: [Sum] has
    removed the bytes it read (its comment says that it does not change
    the state) and kept the others (the specification says that they
    are dropped). A following [Write(w2)] and [Sum] return the digest of
    the bytes kept followed by [w2]; this is the digest of [w2] alone,
    as C6 states, only when nothing is kept, which is the case when
    [w1] has at most [NbBytesToSum] bytes. *)
Theorem Sum_drains (seed l B k : Z) (r : RSis) (w1 w2 b1 b2 : list Z) :
  valid_config l B k ->
  NewRSis seed l B k = Return (r, None) ->
  exists r1 out1,
    Sum (fst (Write r w1)) b1 = Return (r1, out1)
    /\ buffer r1 = skipn (Z.to_nat (NbBytesToSum r)) w1
    /\ Sum (fst (Write r1 w2)) b2
       = Sum (set_buffer r (skipn (Z.to_nat (NbBytesToSum r)) w1 ++ w2)) b2
    /\ (len w1 <= NbBytesToSum r ->
        Sum (fst (Write r1 w2)) b2 = Sum (fst (Write r w2)) b2).
Proof.
  intros Hv E.
  destruct (NewRSis_is_instance seed l B k r Hv E) as (Hbuf & Hi).
  unfold Write. rewrite Hbuf. cbn [fst app].
  pose proof (instance_set_buffer r l B k w1 Hi) as Hi1.
  destruct (Sum_returns (set_buffer r w1) l B k b1 Hi1) as (out & Es & _).
  cbn [buffer NbBytesToSum set_buffer] in Es.
  eexists _, _. split; [exact Es |].
  cbn [buffer set_buffer A AfftCosetBitreversed LogTwoBound NbBytesToSum
         Domain Degree].
  split; [reflexivity |]. split; [reflexivity |].
  intros Hw. rewrite skipn_all2 by (unfold len in Hw; lia). reflexivity.
Qed.

Lemma valid_small_config : valid_config 0 8 1.
Proof. unfold valid_config. cbn. lia. Qed.

Lemma small_instance_made : NewRSis 5 0 8 1 = Return (small_instance, None).
Proof. vm_compute. reflexivity. Qed.

(** The instance [NewRSis 5 0 8 1] sums one byte: of the bytes 0 and 1
    the second one is kept. *)
Lemma Sum_drains_witness :
  valid_config 0 8 1
  /\ NewRSis 5 0 8 1 = Return (small_instance, None)
  /\ skipn (Z.to_nat (NbBytesToSum small_instance)) [0; 1] = [1]
  /\ exists r1 out1,
      Sum (fst (Write small_instance [0; 1])) [] = Return (r1, out1)
      /\ buffer r1 = skipn (Z.to_nat (NbBytesToSum small_instance)) [0; 1]
      /\ Sum (fst (Write r1 [])) []
         = Sum (set_buffer small_instance
                  (skipn (Z.to_nat (NbBytesToSum small_instance)) [0; 1]
                   ++ [])) []
      /\ (len [0; 1] <= NbBytesToSum small_instance ->
          Sum (fst (Write r1 [])) []
          = Sum (fst (Write small_instance [])) []).
Proof.
  split; [exact valid_small_config |].
  split; [exact small_instance_made |].
  split; [reflexivity |].
  exact (Sum_drains 5 0 8 1 small_instance [0; 1] [] [] []
           valid_small_config small_instance_made).
Defined.

(** C6 fails on the code. The instance [NewRSis 5 0 8 1] sums one byte;
    the bytes 0 and 1 are written to it; the first [Sum] reads the 0, the
    second one the 1 that is still in the buffer, and its digest, the
    key, is not the digest of nothing, zero. *)
Lemma Sum_drains_counterexample :
  ~ (forall w1 w2 : list Z,
       (s1 <- Sum (fst (Write small_instance w1)) [] ;;
        s2 <- Sum (fst (Write (fst s1) w2)) [] ;;
        Return (snd s2))
       = (s <- Sum (fst (Write small_instance w2)) [] ;; Return (snd s))).
Proof.
  intros H. specialize (H [0; 1] []).
  set (value := fun e : exec (list Z) =>
                  match e with Return d => be_decode d | Panic _ => -1 end).
  match type of H with
  | ?lhs = ?rhs =>
      assert (E : (value lhs =? value rhs) = false)
        by (vm_compute; reflexivity)
  end.
  rewrite H, Z.eqb_refl in E. discriminate E.
Qed.

(** C7, amended: [NewRSis] rejects nothing. With [0 <= logTwoDegree <= 27]
    and [keySize >= 0] it returns an instance of degree [2^logTwoDegree],
    with a key of [keySize] polynomials, and a nil error; and whenever it
    returns, the error is nil: the degree is a power of two by
    construction, and [ErrNotAPowerOfTwo] is returned nowhere. *)
Theorem NewRSis_never_rejects (seed l B k : Z) :
  (0 <= l <= 27 -> 0 <= k ->
   exists r, NewRSis seed l B k = Return (r, None) /\ Degree r = 2 ^ l
             /\ len (A r) = k)
  /\ (forall r e, NewRSis seed l B k = Return (r, e) -> e = None).
Proof.
  split.
  - intros Hl Hk.
    destruct (NewRSis_returns seed l B k Hl Hk)
      as (r & E & _ & _ & _ & (Hd & HA & _) & _).
    exists r. repeat split; assumption.
  - intros r e E. unfold NewRSis in E.
    repeat (apply bind_inv in E; destruct E as (? & _ & E)).
    now injection E as _ <-.
Qed.

(** C7 as stated has every configuration either given an instance or
    rejected with [ErrNotAPowerOfTwo]. With [logTwoDegree = -1] (no degree)
    and with [logTwoDegree = 28] (the degree [2^28]) [NewRSis] returns
    nothing: a shift by a negative count panics. *)
Lemma NewRSis_counterexample :
  ~ ((exists r e, NewRSis 5 (-1) 4 8 = Return (r, e))
     \/ (exists r e, NewRSis 5 28 4 8 = Return (r, e))).
Proof.
  intros [(r & e & H) | (r & e & H)]; vm_compute in H; discriminate H.
Qed.

(** *** The tests of the repository, evaluated on the model *)

(** A digest of BLAKE2b-256, as a big-endian number. *)
Example test_blake2b :
  be_decode (Blake2b.Sum256 (SIS ++ be64 5 ++ be64 0 ++ be64 0))
  = 6374677124381168102848681174007453721742360769323495168831139351331564757837.
Proof. vm_compute. reflexivity. Qed.

(** [TestRSis]: the two coefficients of the hash of eight bytes. *)
Example TestRSis :
  let sis := fst (Write test_instance
                    [0xa1; 0x90; 0xff; 0x0a; 0x13; 0x59; 0x79; 0xcc]) in
  (res <- Sum sis [] ;;
   Return (map (fun i => SetBytes (firstn 32 (skipn (32 * i) (snd res))))
             (seq 0 2)))
  = Return
      [13271020168286836418355708644485735593608516629558571827355518635690915176270;
       9885652947755511462638910175213772082420069489359143817296501612386750845004].
Proof. vm_compute. reflexivity. Qed.

(** [TestMulMod]: a product in the ring of degree 4. *)
Example TestMulMod :
  exists sis,
    NewRSis 5 2 3 8 = Return (sis, None)
    /\ (let p := FFT (Domain sis) [2389; 987192; 623; 91] in
        let q := FFT (Domain sis) [76755; 232893720; 989273; 675273] in
        r <- MulMod sis p q ;;
        Return (FFTInverse (Domain sis) r))
       = Return
           [21888242871839275222246405745257275088548364400416034343698204185887558114297;
            631644300118; 229913166975959; 1123315390878].
Proof.
  destruct (NewRSis_returns 5 2 3 8) as (sis & E & _ & _ & _ & _ & HD);
    [lia | lia |].
  exists sis. split; [exact E |]. rewrite HD. vm_compute. reflexivity.
Qed.

End SisFacts.

(** ** Multi-column Plookup *)

Module PlookupFacts.

Import GoFacts Plookup.
Local Open Scope exec_scope.

Section Facts.

Context {C : Collaborators}.

Lemma sum_pow_horner (lambda : Z) (col : list Z) (i : nat) :
  sum_pow lambda i col = lambda ^ Z.of_nat i * horner lambda col.
Proof.
  revert i. induction col as [| c col IH]; intros i.
  - simpl. lia.
  - simpl. rewrite IH.
    replace (Z.of_nat (S i)) with (Z.of_nat i + 1) by lia.
    rewrite Z.pow_add_r by lia. lia.
Qed.

Lemma sum_pow_0 (lambda : Z) (col : list Z) :
  sum_pow lambda 0 col = horner lambda col.
Proof.
  rewrite sum_pow_horner. change (Z.of_nat 0) with 0.
  rewrite Z.pow_0_r. lia.
Qed.

Lemma horner_step (lambda a x h : Z) :
  a = h mod fr_Modulus ->
  Add (Mul a lambda) x = (x + lambda * h) mod fr_Modulus.
Proof.
  intros ->. unfold Add, Mul, Fr.Add, Fr.Mul.
  rewrite Zmult_mod_idemp_l, Zplus_mod_idemp_l. f_equal. lia.
Qed.

Lemma skipn_nth_cons {A} (l : list A) (j : nat) (d : A) :
  (j < length l)%nat -> skipn j l = nth j l d :: skipn (S j) l.
Proof.
  revert j. induction l as [| x l IH]; intros j H; simpl in H; [lia |].
  destruct j as [| j]; [reflexivity |].
  simpl. apply IH. lia.
Qed.

Lemma nth_column (rows : list (list Z)) (i j : nat) :
  (j < length rows)%nat ->
  nth j (column rows i) 0 = nth i (nth j rows []) 0.
Proof.
  intros H. unfold column.
  rewrite (nth_indep _ 0 (nth i [] 0)) by (now rewrite length_map).
  exact (map_nth (fun row => nth i row 0) rows [] j).
Qed.

(** The loop over the rows, for one column [i] of one table. *)
Lemma fold_column (lambda : Z) (rows : list (list Z)) (nbRows i : Z)
  (pre post : list Z) :
  len rows = nbRows -> len pre = i -> Forall (fun row => i < len row) rows ->
  for_down (Z.to_nat nbRows) (nbRows - 1)
    (fun j folded => fold_step lambda rows i j folded) (pre ++ 0 :: post)
  = Return (pre ++ (horner lambda (column rows (Z.to_nat i)) mod fr_Modulus)
              :: post).
Proof.
  intros Hn Hpre Hrows. pose proof (len_nonneg pre) as Hi. subst i nbRows.
  replace (Z.to_nat (len rows)) with (length rows) by (unfold len; lia).
  destruct (for_down_inv
              (fun j folded =>
                 folded = pre ++ (horner lambda
                                    (skipn (Z.to_nat (j + 1))
                                       (column rows (Z.to_nat (len pre))))
                                  mod fr_Modulus) :: post)
              (fun j folded => fold_step lambda rows (len pre) j folded)
              (length rows) (len rows - 1) (pre ++ 0 :: post)) as (s & E & Hs).
  - rewrite skipn_all2; [reflexivity |].
    unfold column. rewrite length_map. unfold len. lia.
  - intros j s Hj ->. unfold len in Hj. unfold fold_step.
    rewrite (index_nth rows j []) by (unfold len; lia). cbn [Go.bind].
    assert (Hrow : len pre < len (nth (Z.to_nat j) rows [])).
    { rewrite Forall_forall in Hrows. apply Hrows. apply nth_In. lia. }
    rewrite (index_nth _ (len pre) 0) by lia. cbn [Go.bind].
    rewrite index_app. cbn [Go.bind].
    rewrite store_app. eexists. split; [reflexivity |].
    f_equal. f_equal.
    rewrite (horner_step lambda _ _ _ eq_refl).
    replace (Z.to_nat (j - 1 + 1)) with (Z.to_nat j) by lia.
    rewrite (skipn_nth_cons (column rows (Z.to_nat (len pre))) (Z.to_nat j) 0)
      by (unfold column; rewrite length_map; lia).
    replace (S (Z.to_nat j)) with (Z.to_nat (j + 1)) by lia.
    simpl horner. rewrite nth_column by lia. reflexivity.
  - rewrite E, Hs. unfold len.
    replace (Z.to_nat (Z.of_nat (length rows) - 1 - Z.of_nat (length rows) + 1))
      with 0%nat by lia.
    reflexivity.
Qed.

Lemma nth_map_seq {A} (g : nat -> A) (n j : nat) (d : A) :
  (j < n)%nat -> nth j (map g (seq 0 n)) d = g j.
Proof.
  intros H. rewrite (nth_indep _ d (g O)) by (rewrite length_map, length_seq; lia).
  rewrite map_nth, seq_nth by lia. reflexivity.
Qed.

Lemma for_down_pair {S1 S2} (f : Z -> S1 -> exec S1) (g : Z -> S2 -> exec S2) :
  forall (n : nat) (i : Z) (s1 : S1) (s2 : S2) (a : S1) (b : S2),
    for_down n i f s1 = Return a -> for_down n i g s2 = Return b ->
    for_down n i
      (fun j st =>
         x <- f j (fst st) ;; y <- g j (snd st) ;; Return (x, y)) (s1, s2)
    = Return (a, b).
Proof.
  induction n as [| n IH]; intros i s1 s2 a b Ef Eg; simpl in *.
  - congruence.
  - destruct (f i s1) as [x | ?]; [| discriminate].
    destruct (g i s2) as [y | ?]; [| discriminate].
    simpl in *. now apply IH.
Qed.

Lemma folded_horner (lambda : Z) (rows : list (list Z)) (n : nat) :
  map (fun j => horner lambda (column rows j) mod fr_Modulus) (seq 0 n)
  = folded lambda rows (Z.of_nat n).
Proof.
  unfold folded. rewrite Nat2Z.id. apply map_ext. intros j.
  now rewrite sum_pow_0.
Qed.

(** The two loops of the folding, on tables of [nbRows] rows of
    [nbColumns] entries. *)
Lemma fold_rows_returns (lambda : Z) (lfs lts : list (list Z))
  (nbRows nbColumns : Z) :
  len lfs = nbRows -> len lts = nbRows -> 0 <= nbColumns ->
  Forall (fun row => len row = nbColumns) lfs ->
  Forall (fun row => len row = nbColumns) lts ->
  fold_rows lambda lfs lts nbRows nbColumns
  = Return (folded lambda lfs nbColumns, folded lambda lts nbColumns).
Proof.
  intros Hlf Hlt Hcols Hf Ht.
  - unfold fold_rows. rewrite !make_ok by assumption. cbn [Go.bind].
    set (n := Z.to_nat nbColumns).
    set (gf := fun j => horner lambda (column lfs j) mod fr_Modulus).
    set (gt := fun j => horner lambda (column lts j) mod fr_Modulus).
    loop_inv (fun i (st : list Z * list Z) =>
                fst st = map gf (seq 0 (Z.to_nat i))
                           ++ repeat 0 (n - Z.to_nat i)
                /\ snd st = map gt (seq 0 (Z.to_nat i))
                              ++ repeat 0 (n - Z.to_nat i))
      as ([ff ft] & E & Hff & Hft).
    + cbn [fst snd]. simpl. rewrite Nat.sub_0_r. split; reflexivity.
    + intros i [ff ft] Hi (Hff & Hft). cbn [fst snd] in Hff, Hft. subst ff ft.
      destruct (n - Z.to_nat i)%nat as [| w] eqn:Ew; [lia |]. simpl repeat.
      assert (Hlen : forall g : nat -> Z, len (map g (seq 0 (Z.to_nat i))) = i)
        by (intros g; unfold len; rewrite length_map, length_seq; lia).
      erewrite (for_down_pair
                  (fun j folded => fold_step lambda lfs i j folded)
                  (fun j folded => fold_step lambda lts i j folded)).
      * eexists. split; [reflexivity |]. cbn [fst snd].
        replace (n - Z.to_nat (i + 1))%nat with w by lia.
        replace (Z.to_nat (i + 1)) with (Z.to_nat i + 1)%nat by lia.
        rewrite !seq_app, !map_app, <- !app_assoc. simpl. split; reflexivity.
      * apply fold_column; [exact Hlf | apply Hlen |].
        eapply Forall_impl; [| exact Hf]. simpl. intros row Hr. lia.
      * apply fold_column; [exact Hlt | apply Hlen |].
        eapply Forall_impl; [| exact Ht]. simpl. intros row Hr. lia.
    + rewrite E. cbn [fst snd] in Hff, Hft. subst ff ft.
      replace (Z.to_nat (0 + Z.of_nat n)) with n by lia.
      rewrite Nat.sub_diag. simpl repeat. rewrite !app_nil_r.
      unfold gf, gt. rewrite !folded_horner.
      replace (Z.of_nat n) with nbColumns by lia. reflexivity.
Qed.

(** C3: for every challenge [lambda] and tables [lfs], [lts] of
    [nbRows >= 1] rows of [nbColumns] entries, the prover's folding loop
    (accumulators at zero, then for [i] from [nbRows - 1] down to [0]
    multiplied by [lambda] and increased by the entry of row [i]) returns
    the tables whose entry [j] is [sum_i lambda^i . lfs[i][j]], and the same
    over [lts], in the field; with one row of field elements the fold is
    that row. *)
Theorem fold_rows_sum (lambda : Z) (lfs lts : list (list Z))
  (nbRows nbColumns : Z) :
  1 <= nbRows -> len lfs = nbRows -> len lts = nbRows -> 0 <= nbColumns ->
  Forall (fun row => len row = nbColumns) lfs ->
  Forall (fun row => len row = nbColumns) lts ->
  fold_rows lambda lfs lts nbRows nbColumns
  = Return (folded lambda lfs nbColumns, folded lambda lts nbColumns)
  /\ (forall j, 0 <= j < nbColumns ->
       nth (Z.to_nat j) (folded lambda lfs nbColumns) 0
       = sum_pow lambda 0 (column lfs (Z.to_nat j)) mod fr_Modulus
       /\ nth (Z.to_nat j) (folded lambda lts nbColumns) 0
          = sum_pow lambda 0 (column lts (Z.to_nat j)) mod fr_Modulus)
  /\ (nbRows = 1 ->
       forall row0, lfs = [row0] ->
                    Forall (fun x => 0 <= x < fr_Modulus) row0 ->
                    folded lambda lfs nbColumns = row0).
Proof.
  intros Hrows Hlf Hlt Hcols Hf Ht. split; [| split].
  - now apply fold_rows_returns.
  - intros j Hj. unfold folded.
    split; rewrite nth_map_seq by lia; reflexivity.
  - intros _ row0 -> Hcanon.
    assert (Hlen0 : len row0 = nbColumns) by (now inversion Hf).
    unfold folded. apply nth_ext with (d := 0) (d' := 0).
    + rewrite length_map, length_seq. unfold len in Hlen0. lia.
    + intros j Hj. rewrite length_map, length_seq in Hj.
      rewrite nth_map_seq by lia. unfold column. cbn [map sum_pow].
      change (Z.of_nat 0) with 0.
      rewrite Z.pow_0_r, Z.mul_1_l, Z.add_0_r.
      apply Z.mod_small.
      rewrite Forall_forall in Hcanon.
      apply Hcanon. apply nth_In. unfold len in Hlen0. lia.
Qed.

Lemma G1_Equal_spec (p a : G1Affine) : G1_Equal p a = true <-> p = a.
Proof.
  unfold G1_Equal. destruct p as [x y], a as [x' y']. simpl.
  rewrite andb_true_iff, !Z.eqb_eq. split.
  - intros [-> ->]. reflexivity.
  - intros E. injection E as -> ->. split; reflexivity.
Qed.

Lemma bind_points_lambda (points : list G1Affine) (bs : list (list Z)) :
  bind_points (lambda_transcript bs) "lambda" points
  = (lambda_transcript (bs ++ map G1_RawBytes points), None).
Proof.
  revert bs. induction points as [| p ps IH]; intros bs.
  - simpl. now rewrite app_nil_r.
  - cbn [bind_points map]. unfold Bind. cbn.
    change (bind_points (lambda_transcript (bs ++ [G1_RawBytes p])) "lambda" ps
            = (lambda_transcript (bs ++ G1_RawBytes p :: map G1_RawBytes ps), None)).
    rewrite IH, <- app_assoc. reflexivity.
Qed.

(** A fresh transcript never refuses: the challenge is the hash of the
    label and of the encodings of the points, in order. *)
Lemma deriveRandomness_fresh (points : list G1Affine) :
  deriveRandomness (NewTranscript ["lambda"%string]) "lambda" points
  = (challenge_of points, None).
Proof.
  unfold deriveRandomness.
  change (NewTranscript ["lambda"%string]) with (lambda_transcript []).
  rewrite bind_points_lambda. reflexivity.
Qed.

Lemma firstn_snoc {A} (l : list A) (k : nat) (d : A) :
  (k < length l)%nat -> firstn (S k) l = firstn k l ++ [nth k l d].
Proof.
  revert k. induction l as [| x l IH]; intros k H; simpl in H; [lia |].
  destruct k as [| k]; [reflexivity |].
  cbn [firstn nth app]. f_equal. apply IH. lia.
Qed.

(** The verifier's loop over the commitments. *)
Lemma fold_digests_loop (blambda : Z) (top : Digest) (below : list Digest) :
  let fs := rev below ++ [top] in
  let nbRows := len fs in
  index fs (nbRows - 1) = Return top
  /\ for_down (Z.to_nat (nbRows - 1)) (nbRows - 2)
       (fun i comf =>
          fsi <- index fs i ;;
          Return (G1_Add (G1_ScalarMultiplication comf blambda) fsi)) top
     = Return (fold_left (digest_step blambda) below top).
Proof.
  intros fs nbRows.
  assert (Hn : nbRows = len below + 1).
  { unfold nbRows, fs. rewrite len_app. unfold len.
    rewrite length_rev. simpl. lia. }
  pose proof (len_nonneg below) as Hb. split.
  - replace (nbRows - 1) with (len (rev below))
      by (unfold len in *; rewrite length_rev; lia).
    apply index_app.
  - destruct (for_down_inv
                (fun i comf =>
                   comf = fold_left (digest_step blambda)
                            (firstn (Z.to_nat (nbRows - 2 - i)) below) top)
                (fun i comf =>
                   fsi <- index fs i ;;
                   Return (G1_Add (G1_ScalarMultiplication comf blambda) fsi))
                (Z.to_nat (nbRows - 1)) (nbRows - 2) top) as (s & E & Hs).
    + now rewrite Z.sub_diag.
    + intros j comf Hj ->.
      rewrite (index_nth fs j Digest_zero) by lia. cbn [Go.bind].
      eexists. split; [reflexivity |].
      replace (Z.to_nat (nbRows - 2 - (j - 1)))
        with (S (Z.to_nat (nbRows - 2 - j))) by lia.
      rewrite (firstn_snoc below _ Digest_zero) by (unfold len in *; lia).
      rewrite fold_left_app. cbn [fold_left]. unfold digest_step.
      f_equal. unfold fs.
      rewrite app_nth1 by (rewrite length_rev; unfold len in *; lia).
      rewrite rev_nth by (unfold len in *; lia).
      f_equal. unfold len in *. lia.
    + etransitivity; [exact E |]. rewrite Hs. f_equal. f_equal.
      apply firstn_all2. unfold len in *. lia.
Qed.

(** C2: on a proof with [nbRows = len fs >= 1], [VerifyLookupTables] derives
    [lambda] from the commitments, folds them by Horner's rule from the
    last row ([fs[nbRows-1]], then for [i = nbRows-2 .. 0] the digest
    scaled by the canonical integer of [lambda] plus [fs[i]]), returns
    [ErrFoldedCommitment] exactly when the folded digest is not the [f]
    commitment of the inner proof, and otherwise returns what
    [VerifyLookupVector] returns on the inner proof. *)
Theorem VerifyLookupTables_spec (srs : SRS) (proof : ProofLookupTables) :
  1 <= len (fs proof) ->
  let lambda := challenge_of (fs proof) in
  let foldedDigest := folded_digest (ToBigIntRegular lambda) (fs proof) in
  let inner := foldedProof proof in
  deriveRandomness (NewTranscript ["lambda"%string]) "lambda" (fs proof)
  = (lambda, None)
  /\ run (VerifyLookupTables srs proof)
     = Return (if G1_Equal foldedDigest (ProofLookupVector_f inner)
               then option_map ErrCollaborator (VerifyLookupVector srs inner)
               else Some ErrFoldedCommitment)
  /\ (run (VerifyLookupTables srs proof) = Return (Some ErrFoldedCommitment)
      <-> foldedDigest <> ProofLookupVector_f inner)
  /\ (0 < fr_Modulus -> 0 <= ToBigIntRegular lambda < fr_Modulus).
Proof.
  intros Hn lambda foldedDigest inner.
  assert (Hrun : run (VerifyLookupTables srs proof)
                 = Return (if G1_Equal foldedDigest (ProofLookupVector_f inner)
                           then option_map ErrCollaborator
                                  (VerifyLookupVector srs inner)
                           else Some ErrFoldedCommitment)).
  { unfold VerifyLookupTables. rewrite deriveRandomness_fresh.
    fold lambda. unfold foldedDigest, folded_digest.
    destruct (rev (fs proof)) as [| top below] eqn:Erev.
    - apply (f_equal (@length _)) in Erev. rewrite length_rev in Erev.
      unfold len in Hn. simpl in Erev. lia.
    - assert (Efs : fs proof = rev below ++ [top]).
      { rewrite <- (rev_involutive (fs proof)), Erev. reflexivity. }
      rewrite Efs.
      destruct (fold_digests_loop (ToBigIntRegular lambda) top below)
        as (E1 & E2).
      rewrite E1. cbn [lift].
      match goal with
      | |- context [lift ?m _] =>
          replace m
            with (Return (fold_left (digest_step (ToBigIntRegular lambda))
                            below top))
            by (symmetry; exact E2)
      end.
      cbn [lift]. fold inner. unfold digest_step.
      destruct (G1_Equal _ _); reflexivity. }
  split; [apply deriveRandomness_fresh |]. split; [exact Hrun |].
  split; [| intros Hq; apply Z.mod_pos_bound; exact Hq].
  rewrite Hrun. split.
  - intros E Heq. apply G1_Equal_spec in Heq. rewrite Heq in E.
    destruct (VerifyLookupVector srs inner); discriminate E.
  - intros Hneq. destruct (G1_Equal _ _) eqn:E; [| reflexivity].
    apply G1_Equal_spec in E. contradiction.
Qed.

Lemma run_pbind {A B} (p : prog A) (k : A -> prog B) :
  run (pbind p k) = Go.bind (run p) (fun a => run (k a)).
Proof.
  induction p as [a | e | X c h IH]; simpl; [reflexivity | reflexivity |].
  apply IH.
Qed.

Lemma run_lift {A B} (m : exec A) (k : A -> prog B) :
  run (lift m k) = Go.bind m (fun a => run (k a)).
Proof. destruct m; reflexivity. Qed.

Lemma nth_last_entry (row : list Z) :
  row <> [] -> nth (length row - 1) row 0 = last row 0.
Proof.
  intros H. destruct (exists_last H) as (l & x & ->).
  rewrite last_last, length_app. simpl.
  replace (length l + 1 - 1)%nat with (length l) by lia.
  apply nth_middle.
Qed.

Lemma pad_row_returns (row : Table) (n : Z) :
  1 <= len row <= n -> pad_row row n = Return (pad row n).
Proof.
  intros H. unfold pad_row, pad. rewrite make_ok by lia. cbn [Go.bind].
  rewrite copy_repeat by (unfold len in H; lia).
  assert (Hlast : index row (len row - 1) = Return (last row 0)).
  { rewrite (index_nth row _ 0) by lia. f_equal.
    replace (Z.to_nat (len row - 1)) with (length row - 1)%nat
      by (unfold len; lia).
    apply nth_last_entry. intros ->. unfold len in H. simpl in H. lia. }
  set (v := last row 0) in *.
  set (m := Z.to_nat (n - len row)).
  replace (Z.to_nat n - length row)%nat with m by (unfold m, len; lia).
  loop_inv (fun j l => l = row ++ repeat v (Z.to_nat (j - len row))
                             ++ repeat 0 (m - Z.to_nat (j - len row)))
    as (l & E & Hl).
  - rewrite Z.sub_diag. simpl. now rewrite Nat.sub_0_r.
  - intros j l Hj ->. rewrite Hlast. cbn [Go.bind].
    destruct (m - Z.to_nat (j - len row))%nat as [| w] eqn:Ew; [lia |].
    simpl repeat. rewrite app_assoc.
    rewrite store_at by (rewrite len_app, len_repeat; lia).
    eexists. split; [reflexivity |].
    replace (Z.to_nat (j + 1 - len row)) with (Z.to_nat (j - len row) + 1)%nat
      by lia.
    replace (m - (Z.to_nat (j - len row) + 1))%nat with w by lia.
    rewrite repeat_app, <- !app_assoc. reflexivity.
  - rewrite E, Hl. f_equal.
    replace (Z.to_nat (len row + Z.of_nat m - len row)) with m by lia.
    rewrite Nat.sub_diag. simpl. now rewrite app_nil_r.
Qed.

Lemma pad_row_empty (n : Z) :
  1 <= n -> pad_row [] n = Panic IndexOutOfRange.
Proof.
  intros H. unfold pad_row. rewrite make_ok by lia. cbn [Go.bind].
  change (len (@nil Z)) with 0. rewrite Z.sub_0_r.
  destruct (Z.to_nat n) as [| m] eqn:E; [lia |]. reflexivity.
Qed.

Lemma Cardinality_spec (m : Z) :
  1 <= m ->
  (exists e, 0 <= e /\ NewDomain_Cardinality m = 2 ^ e)
  /\ m <= NewDomain_Cardinality m
  /\ (forall e, 0 <= e -> m <= 2 ^ e -> NewDomain_Cardinality m <= 2 ^ e).
Proof.
  intros H. unfold NewDomain_Cardinality.
  pose proof (Z.log2_up_nonneg m) as Hnn. split; [| split].
  - exists (Z.log2_up m). split; [assumption | reflexivity].
  - destruct (Z.eq_dec m 1) as [-> | Hne]; [cbn; lia |].
    apply Z.log2_up_spec. lia.
  - intros e He Hm. apply Z.pow_le_mono_r; [lia |].
    apply Z.log2_up_le_pow2; lia.
Qed.

Lemma Cardinality_pos (m : Z) : 1 <= NewDomain_Cardinality m.
Proof.
  unfold NewDomain_Cardinality.
  pose proof (Z.log2_up_nonneg m).
  apply (Z.pow_le_mono_r 2 0); lia.
Qed.

Lemma len_snoc {A} (l : list A) (x : A) : len (l ++ [x]) = len l + 1.
Proof. rewrite len_app. reflexivity. Qed.

(** The loop over the rows when every row can be padded and committed to. *)
Lemma rows_loop_run (srs : SRS) (f t : list Table) (nbColumns : Z) :
  forall (frest trest fdone tdone : list Table)
         (pd : list Digest) (ld td : list (list Z)),
    f = fdone ++ frest -> t = tdone ++ trest ->
    len tdone = len fdone -> len pd = len fdone ->
    len ld = len fdone -> len td = len fdone ->
    length frest = length trest ->
    Forall (fun row => 1 <= len row <= nbColumns) frest ->
    Forall (fun row => 1 <= len row <= nbColumns) trest ->
    Forall (commits_to srs nbColumns) frest ->
    run (rows_loop srs f t nbColumns (length frest) (len fdone)
           (pd ++ repeat Digest_zero (length frest),
            (ld ++ repeat [] (length frest), td ++ repeat [] (length frest))))
    = Return (inr (pd ++ map (commitment srs nbColumns) frest,
                   (ld ++ map (fun row => pad row nbColumns) frest,
                    td ++ map (fun row => pad row nbColumns) trest))).
Proof.
  induction frest as [| fi frest IH];
    intros trest fdone tdone pd ld td Hf Ht Htd Hpd Hld Htd' Hlen HF HT HC.
  - destruct trest; [| discriminate]. reflexivity.
  - destruct trest as [| ti trest]; [discriminate |].
    injection Hlen as Hlen.
    inversion HF as [| ? ? Hfi HF']; subst.
    inversion HT as [| ? ? Hti HT']; subst.
    inversion HC as [| ? ? Hci HC']; subst.
    cbn [length rows_loop repeat].
    rewrite index_app. cbn [lift].
    rewrite (pad_row_returns fi nbColumns Hfi). cbn [lift].
    rewrite store_at by assumption. cbn [lift run answer].
    fold (coefficients fi nbColumns).
    rewrite store_at by assumption. cbn [lift].
    unfold commits_to in Hci. rewrite Hci.
    rewrite index_at by assumption. cbn [lift].
    rewrite (pad_row_returns ti nbColumns Hti). cbn [lift].
    rewrite store_at by assumption. cbn [lift].
    replace (len fdone + 1) with (len (fdone ++ [fi])) by apply len_snoc.
    replace (pd ++ fst (kzg_Commit (coefficients fi nbColumns) srs)
               :: repeat Digest_zero (length frest))
      with ((pd ++ [commitment srs nbColumns fi])
              ++ repeat Digest_zero (length frest))
      by (now rewrite <- app_assoc).
    replace (ld ++ pad fi nbColumns :: repeat [] (length frest))
      with ((ld ++ [pad fi nbColumns]) ++ repeat [] (length frest))
      by (now rewrite <- app_assoc).
    replace (td ++ pad ti nbColumns :: repeat [] (length frest))
      with ((td ++ [pad ti nbColumns]) ++ repeat [] (length frest))
      by (now rewrite <- app_assoc).
    rewrite (IH trest (fdone ++ [fi]) (tdone ++ [ti]));
      try assumption; rewrite <- ?app_assoc; try reflexivity;
      rewrite ?len_snoc; try lia.
Qed.

(** An early exit of the loop over the rows carries a collaborator's error. *)
Lemma rows_loop_exit (srs : SRS) (f t : list Table) (nbColumns : Z) :
  forall (n : nat) (i : Z) (st : rows_state) (p : ProofLookupTables)
         (e : option error),
    run (rows_loop srs f t nbColumns n i st) = Return (inl (p, e)) ->
    exists c, e = Some (ErrCollaborator c).
Proof.
  induction n as [| n IH]; intros i [pfs [lfs lts]] p e H.
  - discriminate H.
  - cbn [rows_loop] in H.
    repeat (rewrite run_lift in H; apply bind_inv in H;
            destruct H as (? & _ & H)).
    cbn [run] in H.
    rewrite run_lift in H. apply bind_inv in H. destruct H as (? & _ & H).
    destruct (snd (answer (Commit _ srs))) as [c |].
    + cbn [run] in H. injection H as _ <-. now exists c.
    + repeat (rewrite run_lift in H; apply bind_inv in H;
              destruct H as (? & _ & H)).
      eapply IH. exact H.
Qed.

Lemma In_skipn {A} (x : A) (n : nat) (l : list A) :
  In x (skipn n l) -> In x l.
Proof.
  intros H. rewrite <- (firstn_skipn n l). apply in_or_app. now right.
Qed.

Lemma size_differs_false (rows : list Table) (s : Z) :
  Forall (fun row => len row = s) rows -> size_differs rows s = false.
Proof.
  intros H. unfold size_differs.
  destruct (existsb _ _) eqn:E; [| reflexivity].
  apply existsb_exists in E. destruct E as (row & Hin & Hne).
  rewrite Forall_forall in H.
  rewrite (H row) in Hne by (eapply In_skipn; exact Hin).
  now rewrite Z.eqb_refl in Hne.
Qed.

Lemma size_differs_true (r0 : Table) (rows : list Table) :
  size_differs (r0 :: rows) (len r0) = true <-> row_differs (r0 :: rows).
Proof.
  unfold size_differs, row_differs. cbn [skipn nth_error]. split.
  - intros E. apply existsb_exists in E. destruct E as (row & Hin & Hne).
    exists r0, row. split; [reflexivity |]. split; [now right |].
    rewrite negb_true_iff in Hne. now apply Z.eqb_neq.
  - intros (r0' & r & E & Hin & Hne). injection E as <-.
    apply existsb_exists. destruct Hin as [<- | Hin]; [contradiction |].
    exists r. split; [assumption |].
    rewrite negb_true_iff. now apply Z.eqb_neq.
Qed.

Lemma row_differs_nil : ~ row_differs [].
Proof. intros (r0 & r & E & _). discriminate E. Qed.

Lemma len_pad (row : Table) (n : Z) : len row <= n -> len (pad row n) = n.
Proof.
  intros H. unfold pad. rewrite len_app, len_repeat.
  pose proof (len_nonneg row). lia.
Qed.

Lemma len_folded (lambda : Z) (rows : list (list Z)) (n : Z) :
  0 <= n -> len (folded lambda rows n) = n.
Proof.
  intros H. unfold folded, len. rewrite length_map, length_seq. lia.
Qed.

(** C5: [ProveLookupTables] returns [ErrIncompatibleSize] exactly when
    [len f <> len t], or a row of [f] has not the length of its first row,
    or a row of [t] has not the length of its first row; it then has
    called no collaborator, [kzg.Commit] in particular, and the proof it
    returns has no commitment. *)
Theorem ProveLookupTables_IncompatibleSize (srs : SRS) (f t : list Table) :
  (incompatible f t ->
   ProveLookupTables srs f t = Done (empty_proof, Some ErrIncompatibleSize)
   /\ commits (ProveLookupTables srs f t) = 0%nat)
  /\ (forall p, run (ProveLookupTables srs f t)
                = Return (p, Some ErrIncompatibleSize) ->
                incompatible f t /\ fs p = []).
Proof.
  assert (Hdone : incompatible f t ->
                  ProveLookupTables srs f t
                  = Done (empty_proof, Some ErrIncompatibleSize)).
  { intros Hinc. unfold ProveLookupTables. fold empty_proof.
    destruct (Z.eqb_spec (len f) (len t)) as [Hlen | Hlen]; [| reflexivity].
    cbn [negb].
    destruct Hinc as [Hne | Hrows]; [contradiction |].
    destruct f as [| f0 f'].
    { destruct t as [| ? ?]; [| discriminate Hlen].
      destruct Hrows as [H | H]; now apply row_differs_nil in H. }
    destruct t as [| t0 t']; [discriminate Hlen |].
    change (index (f0 :: f') 0) with (index ([] ++ f0 :: f') (len (@nil Table))).
    rewrite index_app. cbn [lift].
    destruct (size_differs (f0 :: f') (len f0)) eqn:Ef; [reflexivity |].
    change (index (t0 :: t') 0) with (index ([] ++ t0 :: t') (len (@nil Table))).
    rewrite index_app. cbn [lift].
    destruct (size_differs (t0 :: t') (len t0)) eqn:Et; [reflexivity |].
    destruct Hrows as [H | H]; apply size_differs_true in H; congruence. }
  split.
  - intros Hinc. split; [now apply Hdone |]. now rewrite Hdone.
  - intros p Hrun.
    assert (Hinc : incompatible f t).
    { unfold ProveLookupTables in Hrun. fold empty_proof in Hrun.
      destruct (Z.eqb_spec (len f) (len t)) as [Hlen | Hlen]; [| now left].
      cbn [negb] in Hrun. right.
      destruct f as [| f0 f']; [discriminate Hrun |].
      destruct t as [| t0 t']; [discriminate Hlen |].
      change (index (f0 :: f') 0)
        with (index ([] ++ f0 :: f') (len (@nil Table))) in Hrun.
      rewrite index_app in Hrun. cbn [lift] in Hrun.
      destruct (size_differs (f0 :: f') (len f0)) eqn:Ef;
        [left; now apply size_differs_true |].
      change (index (t0 :: t') 0)
        with (index ([] ++ t0 :: t') (len (@nil Table))) in Hrun.
      rewrite index_app in Hrun. cbn [lift] in Hrun.
      destruct (size_differs (t0 :: t') (len t0)) eqn:Et;
        [right; now apply size_differs_true |].
      exfalso.
      repeat (rewrite run_lift in Hrun; apply bind_inv in Hrun;
              destruct Hrun as (? & _ & Hrun)).
      rewrite run_pbind in Hrun. apply bind_inv in Hrun.
      destruct Hrun as ([[p' e'] | [pfs [lfs lts]]] & Hloop & Hrun).
      - apply rows_loop_exit in Hloop. destruct Hloop as (c & ->).
        cbn [run] in Hrun. discriminate Hrun.
      - rewrite deriveRandomness_fresh in Hrun.
        repeat (rewrite run_lift in Hrun; apply bind_inv in Hrun;
                destruct Hrun as (? & _ & Hrun)).
        cbn [run] in Hrun. injection Hrun as _ Hrun.
        destruct (snd (ProveLookupVector _ _ _)); discriminate Hrun. }
    split; [exact Hinc |].
    rewrite (Hdone Hinc) in Hrun. cbn [run] in Hrun.
    now injection Hrun as <-.
Qed.

(** C10: on the shapes the size checks let through though the tables are
    degenerate, a slice is indexed out of its range: [ProveLookupTables]
    panics on no rows at all, and on rows of [f] of length zero (tables
    otherwise of compatible sizes), before any collaborator is called and
    instead of returning [ErrIncompatibleSize]; [VerifyLookupTables]
    panics on a proof with no commitment. *)
Theorem degenerate_shapes_panic (srs : SRS) :
  ProveLookupTables srs [] [] = Abort IndexOutOfRange
  /\ (forall (f t : list Table) (s_t : Z),
        1 <= len f -> len f = len t ->
        Forall (fun row => len row = 0) f ->
        Forall (fun row => len row = s_t) t ->
        ProveLookupTables srs f t = Abort IndexOutOfRange)
  /\ (forall inner : ProofLookupVector,
        VerifyLookupTables srs {| fs := []; foldedProof := inner |}
        = Abort IndexOutOfRange).
Proof.
  split; [reflexivity |]. split.
  - intros f t s_t Hn Hlen Hf Ht. unfold ProveLookupTables.
    destruct (Z.eqb_spec (len f) (len t)) as [_ | Hne]; [| contradiction].
    cbn [negb].
    destruct f as [| f0 f']; [unfold len in Hn; simpl in Hn; lia |].
    destruct t as [| t0 t']; [discriminate Hlen |].
    change (index (f0 :: f') 0) with (index ([] ++ f0 :: f') (len (@nil Table))).
    rewrite index_app. cbn [lift].
    assert (Hf0 : len f0 = 0) by (now inversion Hf).
    rewrite Hf0, (size_differs_false _ _ Hf).
    change (index (t0 :: t') 0) with (index ([] ++ t0 :: t') (len (@nil Table))).
    rewrite index_app. cbn [lift].
    assert (Ht0 : len t0 = s_t) by (now inversion Ht).
    rewrite Ht0, (size_differs_false _ _ Ht).
    pose proof (len_nonneg (t0 :: t')) as Hnn.
    rewrite !make_ok by assumption. cbn [lift].
    destruct (Z.to_nat (len (t0 :: t'))) as [| n] eqn:En;
      [unfold len in *; simpl in *; lia |].
    cbn [rows_loop repeat].
    change (index (f0 :: f') 0) with (index ([] ++ f0 :: f') (len (@nil Table))).
    rewrite index_app. cbn [lift].
    assert (Ef0 : f0 = []).
    { destruct f0; [reflexivity | unfold len in Hf0; simpl in Hf0; lia]. }
    rewrite Ef0, pad_row_empty by apply Cardinality_pos.
    reflexivity.
  - intros inner. unfold VerifyLookupTables.
    rewrite deriveRandomness_fresh. reflexivity.
Qed.

(** C4: on tables of compatible sizes, with rows of [s_f >= 1] and
    [s_t >= 1] entries, whose rows the commitment scheme accepts,
    [ProveLookupTables] takes for [nbColumns] the least power of two at
    least [max (s_f + 1) s_t], extends every row to [nbColumns] entries by
    repeating its last one, commits to the rows of [f], and calls the
    inner prover on the first [nbColumns - 1] entries of the folded query
    and on the whole folded table; when [s_t > s_f + 1] the domain
    is [s_t] rounded up to a power of two. *)
Theorem ProveLookupTables_compatible (srs : SRS) (f t : list Table)
  (s_f s_t : Z) :
  1 <= len f -> len f = len t ->
  Forall (fun row => len row = s_f) f ->
  Forall (fun row => len row = s_t) t ->
  1 <= s_f -> 1 <= s_t ->
  let target := Z.max (s_f + 1) s_t in
  let nbColumns := NewDomain_Cardinality target in
  Forall (commits_to srs nbColumns) f ->
  let digests := map (commitment srs nbColumns) f in
  let lambda := challenge_of digests in
  let foldedf := folded lambda (map (fun row => pad row nbColumns) f) nbColumns in
  let foldedt := folded lambda (map (fun row => pad row nbColumns) t) nbColumns in
  let query := firstn (Z.to_nat (nbColumns - 1)) foldedf in
  let inner := ProveLookupVector srs query foldedt in
  run (ProveLookupTables srs f t)
  = Return ({| fs := digests; foldedProof := fst inner |},
            option_map ErrCollaborator (snd inner))
  /\ ((exists e, 0 <= e /\ nbColumns = 2 ^ e)
      /\ target <= nbColumns
      /\ (forall e, 0 <= e -> target <= 2 ^ e -> nbColumns <= 2 ^ e))
  /\ (s_f + 1 < s_t -> nbColumns = NewDomain_Cardinality s_t)
  /\ len query = nbColumns - 1 /\ len foldedt = nbColumns.
Proof.
  intros Hn Hlen Hf Ht Hsf Hst target nbColumns Hc digests lambda
    foldedf foldedt query inner.
  assert (Htarget : 1 <= target) by (unfold target; lia).
  pose proof (Cardinality_spec target Htarget) as (Hpow & Hge & Hmin).
  fold nbColumns in Hpow, Hge, Hmin.
  assert (Hcols : 1 <= nbColumns) by lia.
  assert (Hlf : len foldedf = nbColumns) by (apply len_folded; lia).
  assert (Hltt : len foldedt = nbColumns) by (apply len_folded; lia).
  split; [| split; [| split; [| split]]].
  - unfold ProveLookupTables.
    destruct (Z.eqb_spec (len f) (len t)) as [_ | Hne]; [| contradiction].
    cbn [negb].
    destruct f as [| f0 f']; [unfold len in Hn; simpl in Hn; lia |].
    destruct t as [| t0 t']; [discriminate Hlen |].
    change (index (f0 :: f') 0) with (index ([] ++ f0 :: f') (len (@nil Table))).
    rewrite index_app. cbn [lift].
    assert (Hf0 : len f0 = s_f) by (now inversion Hf).
    rewrite Hf0, (size_differs_false _ _ Hf).
    change (index (t0 :: t') 0) with (index ([] ++ t0 :: t') (len (@nil Table))).
    rewrite index_app. cbn [lift].
    assert (Ht0 : len t0 = s_t) by (now inversion Ht).
    rewrite Ht0, (size_differs_false _ _ Ht).
    replace (if s_f + 1 <? s_t then s_t else s_f + 1) with target
      by (unfold target; destruct (Z.ltb_spec (s_f + 1) s_t); lia).
    fold nbColumns.
    set (F := f0 :: f') in *. set (T := t0 :: t') in *.
    pose proof (len_nonneg T) as Hnn.
    rewrite !make_ok by assumption. cbn [lift].
    rewrite run_pbind.
    replace (Z.to_nat (len T)) with (length F) by (unfold len in *; lia).
    pose proof (rows_loop_run srs F T nbColumns F T [] [] [] [] []
                  eq_refl eq_refl eq_refl eq_refl eq_refl eq_refl) as Hloop.
    cbn [app] in Hloop. change (len (@nil Table)) with 0 in Hloop.
    replace (length T) with (length F) by (unfold len in *; lia).
    rewrite Hloop; clear Hloop.
    + cbn [Go.bind]. rewrite deriveRandomness_fresh.
      fold digests lambda.
      rewrite (fold_rows_returns lambda
                 (map (fun row => pad row nbColumns) F)
                 (map (fun row => pad row nbColumns) T)
                 (len T) nbColumns).
      * cbn [lift fst snd]. fold foldedf foldedt.
        rewrite slice_ok by lia. cbn [lift run answer skipn].
        rewrite Hlf, Z.sub_0_r. reflexivity.
      * unfold len in *. rewrite length_map. lia.
      * unfold len. rewrite length_map. reflexivity.
      * lia.
      * apply Forall_map. eapply Forall_impl; [| exact Hf].
        intros row Hr. cbn beta in *. apply len_pad. lia.
      * apply Forall_map. eapply Forall_impl; [| exact Ht].
        intros row Hr. cbn beta in *. apply len_pad. lia.
    + unfold len in *. lia.
    + eapply Forall_impl; [| exact Hf]. intros row Hr. cbn beta in *. lia.
    + eapply Forall_impl; [| exact Ht]. intros row Hr. cbn beta in *. lia.
    + exact Hc.
  - split; [exact Hpow |]. split; [exact Hge | exact Hmin].
  - intros Hlt. unfold nbColumns, target. now rewrite Z.max_r by lia.
  - unfold query, len. rewrite length_firstn. unfold len in Hlf. lia.
  - exact Hltt.
Qed.

End Facts.

(** *** The theorems on the toy collaborators *)

Lemma fold_rows_sum_witness :
  1 <= 2 /\ len [[1; 2]; [3; 4]] = 2 /\ len [[5; 6]; [7; 8]] = 2 /\ 0 <= 2
  /\ Forall (fun row => len row = 2) [[1; 2]; [3; 4]]
  /\ Forall (fun row => len row = 2) [[5; 6]; [7; 8]]
  /\ fold_rows (C := toy) 10 [[1; 2]; [3; 4]] [[5; 6]; [7; 8]] 2 2
     = Return (folded (C := toy) 10 [[1; 2]; [3; 4]] 2,
               folded (C := toy) 10 [[5; 6]; [7; 8]] 2)
  /\ folded (C := toy) 10 [[1; 2]; [3; 4]] 2 = [31; 42].
Proof.
  assert (H1 : Forall (fun row : list Z => len row = 2) [[1; 2]; [3; 4]])
    by (repeat constructor).
  assert (H2 : Forall (fun row : list Z => len row = 2) [[5; 6]; [7; 8]])
    by (repeat constructor).
  pose proof (fold_rows_sum (C := toy) 10 [[1; 2]; [3; 4]] [[5; 6]; [7; 8]]
                2 2 ltac:(lia) eq_refl eq_refl ltac:(lia) H1 H2)
    as (Hfold & _).
  split; [lia |]. split; [reflexivity |]. split; [reflexivity |].
  split; [lia |]. split; [exact H1 |]. split; [exact H2 |].
  split; [exact Hfold | reflexivity].
Defined.

Lemma VerifyLookupTables_spec_witness :
  1 <= len (fs xor_proof)
  /\ run (VerifyLookupTables (C := toy) tt xor_proof) = Return None
  /\ folded_digest (C := toy)
       (ToBigIntRegular (challenge_of (C := toy) (fs xor_proof)))
       (fs xor_proof)
     = ProofLookupVector_f (foldedProof xor_proof).
Proof.
  assert (H : 1 <= len (fs xor_proof)) by (vm_compute; discriminate).
  split; [exact H |].
  pose proof (VerifyLookupTables_spec (C := toy) tt xor_proof H)
    as (_ & Hrun & _ & _).
  split.
  - rewrite Hrun. reflexivity.
  - reflexivity.
Defined.

Lemma ProveLookupTables_compatible_witness :
  1 <= len xor_f /\ len xor_f = len xor_t
  /\ Forall (fun row => len row = 3) xor_f
  /\ Forall (fun row => len row = 4) xor_t
  /\ 1 <= 3 /\ 1 <= 4
  /\ Forall (commits_to (C := toy) tt 4) xor_f
  /\ run (ProveLookupTables (C := toy) tt xor_f xor_t) = Return (xor_proof, None)
  /\ NewDomain_Cardinality (Z.max (3 + 1) 4) = 4.
Proof.
  assert (H1 : Forall (fun row : Table => len row = 3) xor_f)
    by (repeat constructor).
  assert (H2 : Forall (fun row : Table => len row = 4) xor_t)
    by (repeat constructor).
  assert (H3 : Forall (commits_to (C := toy) tt 4) xor_f)
    by (repeat constructor).
  pose proof (ProveLookupTables_compatible (C := toy) tt xor_f xor_t 3 4
                ltac:(cbn; lia) eq_refl H1 H2 ltac:(lia) ltac:(lia) H3)
    as (Hrun & _).
  split; [cbn; lia |]. split; [reflexivity |].
  split; [exact H1 |]. split; [exact H2 |].
  split; [lia |]. split; [lia |]. split; [exact H3 |].
  split; [rewrite Hrun; reflexivity | reflexivity].
Defined.

(** Scenario F of the specification: three rows against two. *)
Example size_mismatch :
  ProveLookupTables (C := toy) tt xor_f [[0; 0; 1; 1]; [0; 1; 0; 1]]
  = Done (empty_proof, Some ErrIncompatibleSize).
Proof. reflexivity. Qed.

(** Scenario E of the specification: the first commitment is tampered with. *)
Example tampered_commitment :
  run (VerifyLookupTables (C := toy) tt
         {| fs := {| X := 0; Y := 0 |} :: skipn 1 (fs xor_proof);
            foldedProof := foldedProof xor_proof |})
  = Return (Some ErrFoldedCommitment).
Proof. reflexivity. Qed.

(** A first row of length zero, and rows of length zero against rows of
    other lengths. *)
Example empty_rows_panic :
  ProveLookupTables (C := toy) tt [[]; []] [[1]; [2]] = Abort IndexOutOfRange
  /\ ProveLookupTables (C := toy) tt [[]; [1]] [[1]; [2]]
     = Done (empty_proof, Some ErrIncompatibleSize).
Proof. split; reflexivity. Qed.

End PlookupFacts.


(** ** The vector [Sum] hashes, the key, and the edges of the [sis]
    package *)

Module SumFacts.
Import GoFacts Bn254 Sis SisFacts SumVector.
Local Open Scope exec_scope.

(** *** Loops that fill a slice *)

(** A loop that stores [g j] at [base + j] for [j = j0 .. j0 + n - 1]
    replaces a segment of [n] entries. *)
Lemma store_loop {A} (g : Z -> A) (body : Z -> list A -> exec (list A))
  (base : Z) :
  forall (n : nat) (j0 : Z) (pre old post : list A),
    (forall j a, j0 <= j < j0 + Z.of_nat n ->
                 body j a = store a (base + j) (g j)) ->
    len pre = base + j0 -> length old = n ->
    for_loop n j0 body (pre ++ old ++ post)
    = Return (pre ++ map (fun t => g (j0 + Z.of_nat t)) (seq 0 n) ++ post).
Proof.
  induction n as [| n IH]; intros j0 pre old post Hbody Hpre Hold.
  - destruct old; [reflexivity | discriminate Hold].
  - destruct old as [| o old]; [discriminate Hold |].
    cbn [for_loop app]. rewrite Hbody by lia.
    rewrite (store_at pre o (g j0) (old ++ post) _ Hpre).
    cbn [Go.bind].
    replace (pre ++ g j0 :: old ++ post) with ((pre ++ [g j0]) ++ old ++ post)
      by (rewrite <- app_assoc; reflexivity).
    rewrite IH.
    + rewrite <- app_assoc. cbn [app seq map]. rewrite Z.add_0_r.
      rewrite <- seq_shift, map_map.
      rewrite (map_ext (fun t => g (j0 + 1 + Z.of_nat t))
                 (fun x => g (j0 + Z.of_nat (S x))))
        by (intros t; f_equal; lia).
      reflexivity.
    + intros j a Hj. apply Hbody. lia.
    + rewrite len_app. change (len [g j0]) with 1. lia.
    + injection Hold as Hold. exact Hold.
Qed.

(** A loop that fills a slice of length [n] entry by entry. *)
Lemma fill_exact {A} (g : Z -> A) (body : Z -> list A -> exec (list A))
  (n : nat) (a0 : list A) :
  length a0 = n ->
  (forall j a, 0 <= j < Z.of_nat n -> body j a = store a j (g j)) ->
  for_loop n 0 body a0 = Return (map (fun t => g (Z.of_nat t)) (seq 0 n)).
Proof.
  intros Hl Hbody.
  pose proof (store_loop g body 0 n 0 [] a0 []) as H.
  rewrite app_nil_r in H. cbn [app] in H. rewrite H.
  - rewrite app_nil_r. reflexivity.
  - intros j a Hj. rewrite Hbody by lia. reflexivity.
  - reflexivity.
  - exact Hl.
Qed.

(** A loop of [n1 + n2] iterations is one of [n1] followed by one of
    [n2]. *)
Lemma for_loop_app {St} (body : Z -> St -> exec St) :
  forall (n1 n2 : nat) (i : Z) (s : St),
    for_loop (n1 + n2) i body s
    = Go.bind (for_loop n1 i body s) (for_loop n2 (i + Z.of_nat n1) body).
Proof.
  induction n1 as [| n1 IH]; intros n2 i s.
  - cbn [Nat.add for_loop Go.bind]. rewrite Z.add_0_r. reflexivity.
  - cbn [Nat.add for_loop]. destruct (body i s) as [s' | p]; cbn [Go.bind].
    + rewrite IH. do 2 f_equal. lia.
    + reflexivity.
Qed.

Lemma for_loop_S {St} (n : nat) (i : Z) (body : Z -> St -> exec St) (s : St) :
  for_loop (S n) i body s = Go.bind (body i s) (for_loop n (i + 1) body).
Proof. reflexivity. Qed.

(** *** The first stage of [Sum]: the bits *)

(** Every byte read gives its eight bits, most significant first. *)
Lemma bits_loop :
  forall (n : nat) (i : Z) (buf done : list Z),
    (n <= length buf)%nat -> len done = 8 * i ->
    for_loop n i
      (fun i st =>
         let '(buf, mBits) := st in
         match buf with
         | [] => Panic PanicErr
         | tmp :: buf' =>
             mBits <- for_loop 8 0
                        (fun j mBits =>
                           store mBits (i * 8 + j)
                             (Z.land (Z.shiftr tmp (7 - j)) 1)) mBits ;;
             Return (buf', mBits)
         end) (buf, done ++ repeat 0 (8 * n))
    = Return (skipn n buf, done ++ flat_map bits_of_byte (firstn n buf)).
Proof.
  induction n as [| n IH]; intros i buf done Hn Hd.
  - cbn. reflexivity.
  - destruct buf as [| tmp buf]; [cbn in Hn; lia |].
    rewrite for_loop_S.
    replace (8 * S n)%nat with (8 + 8 * n)%nat by lia.
    rewrite repeat_app.
    rewrite (store_loop (fun j => Z.land (Z.shiftr tmp (7 - j)) 1) _ (i * 8)
               8 0 done (repeat 0 8) (repeat 0 (8 * n)));
      [| reflexivity | lia | reflexivity].
    cbn [Go.bind]. rewrite app_assoc.
    rewrite (IH (i + 1) buf); [| cbn in Hn; lia |].
    + cbn [skipn firstn flat_map]. rewrite <- app_assoc. reflexivity.
    + rewrite len_app. unfold len at 2. rewrite length_map, length_seq. lia.
Qed.

(** [Sum] reads the first [NbBytesToSum] bytes of the padded buffer and
    leaves the rest of it. *)
Lemma Sum_bits_exact (r : RSis) :
  0 <= NbBytesToSum r < 2 ^ 60 ->
  Sum_bits r
  = Return (skipn (Z.to_nat (NbBytesToSum r)) (padded r),
            flat_map bits_of_byte (firstn (Z.to_nat (NbBytesToSum r)) (padded r))).
Proof.
  intros HN. unfold Sum_bits.
  set (N := NbBytesToSum r) in *.
  assert (Epad : (if len (buffer r) <? N
                  then toPadd <- make 0 (N - len (buffer r)) ;;
                       Return (buffer r ++ toPadd)
                  else Return (buffer r)) = Return (padded r)).
  { unfold padded. fold N. destruct (Z.ltb_spec (len (buffer r)) N).
    - rewrite make_ok by lia. reflexivity.
    - replace (Z.to_nat (N - len (buffer r))) with 0%nat by lia.
      simpl. now rewrite app_nil_r. }
  rewrite Epad. cbn [Go.bind].
  assert (Hpad : N <= len (padded r)).
  { unfold padded. rewrite len_app, len_repeat. fold N.
    pose proof (len_nonneg (buffer r)). lia. }
  replace (int_mul N 8) with (8 * N)
    by (unfold int_mul; rewrite int64_wrap_small; lia).
  rewrite make_ok by lia. cbn [Go.bind].
  replace (Z.to_nat (8 * N)) with (8 * Z.to_nat N)%nat by lia.
  apply (bits_loop (Z.to_nat N) 0 (padded r) []).
  - unfold len in Hpad. lia.
  - reflexivity.
Qed.

(** *** Numbers written in bits *)

Lemma bits_value_acc (bs : list Z) (acc : Z) :
  fold_left (fun a b => 2 * a + b) bs acc = acc * 2 ^ len bs + bits_value bs.
Proof.
  unfold bits_value. revert acc.
  induction bs as [| b bs IH]; intros acc.
  - cbn. change (len (@nil Z)) with 0. lia.
  - cbn [fold_left]. rewrite (IH (2 * acc + b)), (IH (2 * 0 + b)).
    replace (len (b :: bs)) with (len bs + 1)
      by (unfold len; cbn [length]; lia).
    rewrite Z.pow_add_r by (try apply len_nonneg; lia). lia.
Qed.

Lemma bits_value_app (l1 l2 : list Z) :
  bits_value (l1 ++ l2) = bits_value l1 * 2 ^ len l2 + bits_value l2.
Proof.
  unfold bits_value at 1. rewrite fold_left_app.
  fold (bits_value l1). apply bits_value_acc.
Qed.

Lemma bits_value_bound (bs : list Z) :
  Forall is_bit bs -> 0 <= bits_value bs < 2 ^ len bs.
Proof.
  induction bs as [| b bs IH] using rev_ind; intros Hf.
  - cbn. lia.
  - apply Forall_app in Hf. destruct Hf as [Hf Hb].
    inversion Hb as [| ? ? Hbit _]; subst.
    rewrite bits_value_app, len_app. change (len [b]) with 1.
    change (bits_value [b]) with (2 * 0 + b).
    rewrite Z.pow_add_r by (try apply len_nonneg; lia).
    specialize (IH Hf). unfold is_bit in Hbit. lia.
Qed.

Lemma firstn_plus {A} (n1 n2 : nat) (l : list A) :
  firstn (n1 + n2) l = firstn n1 l ++ firstn n2 (skipn n1 l).
Proof.
  revert l. induction n1 as [| n1 IH]; intros l; [reflexivity |].
  destruct l as [| x l]; [cbn; now rewrite firstn_nil |].
  cbn [Nat.add firstn skipn app]. now rewrite IH.
Qed.

Lemma skipn_cons_nth {A} (l : list A) (j : nat) (d : A) :
  (j < length l)%nat -> skipn j l = nth j l d :: skipn (S j) l.
Proof.
  revert j. induction l as [| x l IH]; intros j H; [simpl in H; lia |].
  destruct j as [| j]; [reflexivity |]. simpl. apply IH. simpl in H. lia.
Qed.

Lemma skipn_In {A} (x : A) (n : nat) (l : list A) :
  In x (skipn n l) -> In x l.
Proof.
  intros H. rewrite <- (firstn_skipn n l). apply in_or_app. now right.
Qed.

Lemma firstn_In' {A} (x : A) (n : nat) (l : list A) :
  In x (firstn n l) -> In x l.
Proof.
  intros H. rewrite <- (firstn_skipn n l). apply in_or_app. now left.
Qed.

Section Windows.

Variable mBits : list Z.

Lemma len_window_bits (base n : Z) :
  0 <= base -> 0 <= n -> base + n <= len mBits ->
  len (firstn (Z.to_nat n) (skipn (Z.to_nat base) mBits)) = n.
Proof.
  intros Hb Hn Hl. unfold len in *.
  rewrite length_firstn, length_skipn. lia.
Qed.

Lemma window_app (base n1 n2 : Z) :
  0 <= base -> 0 <= n1 -> 0 <= n2 -> base + n1 + n2 <= len mBits ->
  window mBits base (n1 + n2)
  = window mBits base n1 * 2 ^ n2 + window mBits (base + n1) n2.
Proof.
  intros Hb H1 H2 Hl. unfold window.
  rewrite Z2Nat.inj_add by lia.
  rewrite firstn_plus, bits_value_app.
  rewrite skipn_skipn.
  replace (Z.to_nat n1 + Z.to_nat base)%nat with (Z.to_nat (base + n1)) by lia.
  rewrite len_window_bits by lia. reflexivity.
Qed.

Lemma window_0 (base : Z) : window mBits base 0 = 0.
Proof. reflexivity. Qed.

Lemma window_1 (base : Z) :
  0 <= base < len mBits -> window mBits base 1 = nth (Z.to_nat base) mBits 0.
Proof.
  intros H. unfold window. change (Z.to_nat 1) with 1%nat.
  unfold len in H.
  rewrite (skipn_cons_nth mBits (Z.to_nat base) 0) by lia.
  cbn. lia.
Qed.

Lemma window_step (base j : Z) :
  0 <= base -> 0 <= j -> base + j < len mBits ->
  window mBits base (j + 1)
  = 2 * window mBits base j + nth (Z.to_nat (base + j)) mBits 0.
Proof.
  intros Hb Hj Hl.
  rewrite window_app by lia. rewrite window_1 by lia.
  change (2 ^ 1) with 2. lia.
Qed.

Hypothesis mBits_bits : Forall is_bit mBits.

Lemma window_bound (base n : Z) :
  0 <= base -> 0 <= n -> base + n <= len mBits ->
  0 <= window mBits base n < 2 ^ n.
Proof.
  intros Hb Hn Hl. unfold window.
  rewrite <- (len_window_bits base n) at 3 by assumption.
  apply bits_value_bound.
  apply Forall_forall. intros x Hx.
  apply firstn_In', skipn_In in Hx.
  rewrite Forall_forall in mBits_bits. apply mBits_bits. exact Hx.
Qed.

Lemma acc_exact (c bit s : Z) :
  0 <= c -> is_bit bit -> 0 <= s -> c + 2 ^ (s + 1) <= 256 ->
  u8 (c + u8 (Z.shiftl bit s)) = c + bit * 2 ^ s.
Proof.
  intros Hc Hb Hs Hw. unfold is_bit in Hb.
  rewrite Z.shiftl_mul_pow2 by assumption.
  assert (Hp : 0 < 2 ^ s) by (apply Z.pow_pos_nonneg; lia).
  rewrite Z.pow_add_r in Hw by lia. change (2 ^ 1) with 2 in Hw.
  assert (H1 : 0 <= bit * 2 ^ s <= 2 ^ s) by nia.
  unfold u8. rewrite (Z.mod_small (bit * 2 ^ s)) by lia.
  apply Z.mod_small. lia.
Qed.

(** The bits of [width] places written to one byte of [buf]. *)
Lemma place_loop (base width at_ : Z) (pre post : list Z) :
  0 <= width <= 8 -> 0 <= base -> base + width <= len mBits ->
  len pre = at_ ->
  for_loop (Z.to_nat width) 0
    (fun j buf =>
       bit <- index mBits (base + j) ;;
       b0 <- index buf at_ ;;
       store buf at_ (u8 (b0 + u8 (Z.shiftl bit (width - 1 - j)))))
    (pre ++ 0 :: post)
  = Return (pre ++ window mBits base width :: post).
Proof.
  intros Hw Hb Hlen Hpre.
  destruct (for_loop_inv
              (fun j buf =>
                 buf = pre ++ (window mBits base j * 2 ^ (width - j)) :: post)
              (fun j buf =>
                 bit <- index mBits (base + j) ;;
                 b0 <- index buf at_ ;;
                 store buf at_ (u8 (b0 + u8 (Z.shiftl bit (width - 1 - j)))))
              (Z.to_nat width) 0 (pre ++ 0 :: post)) as (buf & E & Hbuf).
  - rewrite window_0. reflexivity.
  - intros j buf Hj ->.
    rewrite (index_nth mBits (base + j) 0) by lia. cbn [Go.bind].
    rewrite (index_at pre _ post at_ Hpre). cbn [Go.bind].
    rewrite (store_at pre _ _ post at_ Hpre).
    eexists. split; [reflexivity |]. do 2 f_equal.
    pose proof (window_bound base j ltac:(lia) ltac:(lia) ltac:(lia)) as Hwb.
    assert (Hbit : is_bit (nth (Z.to_nat (base + j)) mBits 0)).
    { rewrite Forall_forall in mBits_bits. apply mBits_bits.
      apply nth_In. unfold len in Hlen. lia. }
    assert (Hpw : 0 < 2 ^ (width - 1 - j)) by (apply Z.pow_pos_nonneg; lia).
    assert (E2 : 2 ^ (width - j) = 2 * 2 ^ (width - 1 - j)).
    { replace (width - j) with (1 + (width - 1 - j)) by lia.
      rewrite Z.pow_add_r by lia. reflexivity. }
    assert (E3 : 2 ^ j * 2 ^ (width - j) = 2 ^ width).
    { rewrite <- Z.pow_add_r by lia. f_equal. lia. }
    assert (E4 : 2 ^ width <= 256).
    { change 256 with (2 ^ 8). apply Z.pow_le_mono_r; lia. }
    assert (Hc : 0 <= window mBits base j * 2 ^ (width - j))
      by (apply Z.mul_nonneg_nonneg; lia).
    rewrite acc_exact; [| exact Hc | exact Hbit | lia |].
    + rewrite window_step by lia.
      replace (width - (j + 1)) with (width - 1 - j) by lia.
      rewrite E2. ring.
    + replace (width - 1 - j + 1) with (width - j) by lia.
      assert (Hm : (window mBits base j + 1) * 2 ^ (width - j)
                   <= 2 ^ j * 2 ^ (width - j))
        by (apply Z.mul_le_mono_nonneg_r; lia).
      lia.
  - rewrite E, Hbuf. do 3 f_equal.
    replace (width - (0 + Z.of_nat (Z.to_nat width))) with 0 by lia.
    rewrite Z.mul_1_r. f_equal. lia.
Qed.

(** The whole bytes of a coefficient. *)
Lemma bytes_loop_exact (base : Z) (W : nat) (b0 : Z) :
  0 <= base -> base + 8 * Z.of_nat W <= len mBits ->
  for_loop W 0
    (fun j buf =>
       for_loop 8 0
         (fun k buf =>
            bit <- index mBits (base + 8 * j + k) ;;
            bj <- index buf (j + 1) ;;
            store buf (j + 1) (u8 (bj + u8 (Z.shiftl bit (7 - k))))) buf)
    (b0 :: repeat 0 W)
  = Return (b0 :: map (fun j => window mBits (base + 8 * Z.of_nat j) 8)
                    (seq 0 W)).
Proof.
  intros Hb Hlen.
  destruct (for_loop_inv
              (fun j buf =>
                 buf = b0 :: map (fun j => window mBits (base + 8 * Z.of_nat j) 8)
                              (seq 0 (Z.to_nat j))
                          ++ repeat 0 (W - Z.to_nat j))
              (fun j buf =>
                 for_loop 8 0
                   (fun k buf =>
                      bit <- index mBits (base + 8 * j + k) ;;
                      bj <- index buf (j + 1) ;;
                      store buf (j + 1) (u8 (bj + u8 (Z.shiftl bit (7 - k)))))
                   buf)
              W 0 (b0 :: repeat 0 W)) as (buf & E & Hbuf).
  - cbn. rewrite Nat.sub_0_r. reflexivity.
  - intros j buf Hj ->.
    destruct (W - Z.to_nat j)%nat as [| w] eqn:Ew; [lia |].
    cbn [repeat].
    set (done := map (fun j => window mBits (base + 8 * Z.of_nat j) 8)
                   (seq 0 (Z.to_nat j))).
    pose proof (place_loop (base + 8 * j) 8 (j + 1) (b0 :: done) (repeat 0 w))
      as P.
    change (Z.to_nat 8) with 8%nat in P.
    change (8 - 1) with 7 in P.
    cbn [app] in P.
    eexists. split.
    + etransitivity; [| apply P; try lia].
      * apply f_equal. reflexivity.
      * unfold len. cbn [length]. subst done.
        rewrite length_map, length_seq. lia.
    + replace (Z.to_nat (j + 1)) with (S (Z.to_nat j)) by lia.
      rewrite seq_S, map_app. cbn [map app Nat.add].
      rewrite <- app_assoc. cbn [app].
      replace (W - S (Z.to_nat j))%nat with w by lia.
      rewrite Z2Nat.id by lia. reflexivity.
  - rewrite E, Hbuf.
    replace (Z.to_nat (0 + Z.of_nat W)) with W by lia.
    rewrite Nat.sub_diag. cbn [repeat]. rewrite app_nil_r. reflexivity.
Qed.

Lemma be_decode_snoc (bs : list Z) (b : Z) :
  be_decode (bs ++ [b]) = be_decode bs * 256 + b.
Proof. unfold be_decode. rewrite fold_left_app. reflexivity. Qed.

Lemma be_decode_windows (base offset : Z) (W : nat) :
  0 <= base -> 0 <= offset -> base + offset + 8 * Z.of_nat W <= len mBits ->
  be_decode (window mBits base offset
               :: map (fun j => window mBits (base + offset + 8 * Z.of_nat j) 8)
                    (seq 0 W))
  = window mBits base (offset + 8 * Z.of_nat W).
Proof.
  intros Hb Ho. induction W as [| W IH]; intros Hl.
  - cbn [seq map]. change (Z.of_nat 0) with 0. rewrite Z.add_0_r.
    unfold be_decode. cbn. lia.
  - rewrite seq_S, map_app. cbn [map Nat.add].
    change (?x :: ?l ++ [?y]) with ((x :: l) ++ [y]).
    rewrite be_decode_snoc, IH by lia.
    replace (offset + 8 * Z.of_nat (S W))
      with ((offset + 8 * Z.of_nat W) + 8) by lia.
    rewrite (window_app base (offset + 8 * Z.of_nat W) 8) by lia.
    change (2 ^ 8) with 256.
    f_equal. f_equal. lia.
Qed.

End Windows.

(** *** The second stage of [Sum]: the coefficients_of *)

(** Coefficient [i] of [m] is [SetBytes] of the bytes built from the bits
    [i * B .. i * B + B - 1]: the number these bits write, reduced. *)
Lemma Sum_m_exact (r : RSis) (mBits : list Z) (l k : Z) :
  shaped r l k -> 0 <= l <= 27 -> 0 <= k ->
  1 <= LogTwoBound r -> LogTwoBound r * 2 ^ l * k < 2 ^ 63 ->
  0 <= NbBytesToSum r -> 8 * NbBytesToSum r <= LogTwoBound r * 2 ^ l * k ->
  len mBits = 8 * NbBytesToSum r -> Forall is_bit mBits ->
  Sum_m r mBits
  = Return (coefficients_of mBits (LogTwoBound r) (8 * NbBytesToSum r)
              (2 ^ l * k)).
Proof.
  intros (Hd & HA & _ & _ & _) Hl Hk HB Hprod HN0 HN Hlen Hbits.
  pose proof (two_pow_bounds l Hl) as Hp.
  unfold Sum_m, coefficients_of. rewrite Hd, HA.
  set (B := LogTwoBound r) in *. set (N := NbBytesToSum r) in *.
  assert (Hdk : 0 <= 2 ^ l * k <= B * 2 ^ l * k) by nia.
  replace (int_mul N 8) with (8 * N)
    by (unfold int_mul; rewrite int64_wrap_small; lia).
  replace (int_mul (2 ^ l) k) with (2 ^ l * k)
    by (unfold int_mul; rewrite int64_wrap_small; lia).
  rewrite (Z.rem_mod_nonneg B 8) by lia.
  assert (EW : (B - B mod 8) ÷ 8 = B / 8).
  { pose proof (Z.mod_le B 8). pose proof (Z.div_mod B 8).
    rewrite Z.quot_div_nonneg by lia.
    replace (B - B mod 8) with (B / 8 * 8) by lia.
    apply Z.div_mul. lia. }
  rewrite EW.
  set (offset := B mod 8). set (W := B / 8).
  assert (HBW : B = 8 * W + offset) by (apply Z.div_mod; lia).
  assert (Hoff : 0 <= offset < 8) by (apply Z.mod_pos_bound; lia).
  assert (HW : 0 <= W) by (apply Z.div_pos; lia).
  rewrite make_ok by lia. cbn [Go.bind].
  rewrite make_ok by lia. cbn [Go.bind].
  unfold int_div. destruct (Z.eqb_spec B 0) as [? | _]; [lia |]. cbn [Go.bind].
  rewrite Z.quot_div_nonneg by lia.
  set (T := 8 * N / B).
  assert (HT : 0 <= T /\ T * B <= 8 * N /\ T <= 2 ^ l * k).
  { unfold T. split; [apply Z.div_pos; lia |]. split.
    - pose proof (Z.mul_div_le (8 * N) B). lia.
    - apply Z.div_le_upper_bound; lia. }
  rewrite (int64_wrap_small T) by lia.
  replace (Z.to_nat (W + 1)) with (S (Z.to_nat W)) by lia.
  set (coef := fun i : nat => window mBits (Z.of_nat i * B) B mod Modulus).
  match goal with
  | |- context [for_loop ?n ?i ?body ?s] =>
      destruct (for_loop_inv
                  (fun (t : Z) (st : list Z * list Z) =>
                     fst st = repeat 0 (S (Z.to_nat W))
                     /\ snd st = map coef (seq 0 (Z.to_nat t))
                                 ++ repeat 0 (Z.to_nat (2 ^ l * k - t)))
                  body n i s) as ([buf m] & E & _ & H2)
  end.
  - cbn [fst snd]. split; [reflexivity |]. cbn [Z.to_nat seq map app].
    rewrite Z.sub_0_r. reflexivity.
  - intros i [buf m] Hi (Hbuf & Hm). cbn [fst snd] in Hbuf, Hm.
    subst buf. cbn [repeat].
    assert (Hi' : (i + 1) * B <= 8 * N) by nia.
    pose proof (place_loop mBits Hbits (i * B) offset 0 [] (repeat 0 (Z.to_nat W)))
      as P0.
    cbn [app] in P0. rewrite P0; [| lia | nia | nia | reflexivity].
    cbn [Go.bind].
    pose proof (bytes_loop_exact mBits Hbits (i * B + offset) (Z.to_nat W)
                  (window mBits (i * B) offset)) as P1.
    rewrite P1 by nia. cbn [Go.bind].
    destruct (Z.to_nat (2 ^ l * k - i)) as [| rest] eqn:Er; [lia |].
    subst m. cbn [repeat].
    rewrite (store_at (map coef (seq 0 (Z.to_nat i))) 0 _ (repeat 0 rest) i).
    2: { unfold len. rewrite length_map, length_seq. lia. }
    cbn [Go.bind].
    rewrite zero_loop.
    2: { cbn [length]. rewrite length_map, length_seq. reflexivity. }
    cbn [Go.bind].
    eexists. split; [reflexivity |]. cbn [fst snd].
    split; [reflexivity |].
    replace (Z.to_nat (i + 1)) with (S (Z.to_nat i)) by lia.
    rewrite seq_S, map_app. cbn [map Nat.add]. rewrite <- app_assoc.
    cbn [app]. replace (Z.to_nat (2 ^ l * k - (i + 1))) with rest by lia.
    do 2 f_equal. unfold coef. rewrite Z2Nat.id by lia.
    unfold SetBytes, Fr.SetBytes. f_equal.
    rewrite (be_decode_windows mBits (i * B) offset (Z.to_nat W)) by nia.
    f_equal. lia.
  - rewrite E. cbn [Go.bind snd]. cbn [snd] in H2. rewrite H2.
    rewrite Z.add_0_l, Z2Nat.id by lia. reflexivity.
Qed.

Lemma length_bits_of_byte (b : Z) : length (bits_of_byte b) = 8%nat.
Proof. unfold bits_of_byte. now rewrite length_map, length_seq. Qed.

Lemma bits_of_byte_bits (b : Z) : Forall is_bit (bits_of_byte b).
Proof.
  unfold bits_of_byte. apply Forall_forall. intros x Hx.
  apply in_map_iff in Hx. destruct Hx as (j & <- & _). apply land_1_bit.
Qed.

Lemma length_flat_map_bits (bs : list Z) :
  length (flat_map bits_of_byte bs) = (8 * length bs)%nat.
Proof.
  induction bs as [| b bs IH]; [reflexivity |].
  cbn [flat_map length]. rewrite length_app, length_bits_of_byte, IH. lia.
Qed.

Lemma flat_map_bits (bs : list Z) : Forall is_bit (flat_map bits_of_byte bs).
Proof.
  induction bs as [| b bs IH]; [constructor |].
  cbn [flat_map]. apply Forall_app. split; [apply bits_of_byte_bits | exact IH].
Qed.

(** The eight bits of a byte write the byte. *)
Lemma bits_value_byte (b : Z) : is_byte b -> bits_value (bits_of_byte b) = b.
Proof.
  unfold is_byte. intros H.
  assert (E : forallb
                (fun n => bits_value (bits_of_byte (Z.of_nat n)) =? Z.of_nat n)
                (seq 0 256) = true) by (vm_compute; reflexivity).
  rewrite forallb_forall in E. specialize (E (Z.to_nat b)).
  rewrite Z2Nat.id in E by lia. apply Z.eqb_eq, E, in_seq. lia.
Qed.

Lemma bits_value_bytes (bs : list Z) :
  Forall is_byte bs -> bits_value (flat_map bits_of_byte bs) = be_decode bs.
Proof.
  induction bs as [| b bs IH] using rev_ind; intros Hf; [reflexivity |].
  apply Forall_app in Hf. destruct Hf as [Hf Hb].
  inversion Hb as [| ? ? Hbyte _]; subst.
  rewrite flat_map_app. cbn [flat_map]. rewrite app_nil_r.
  rewrite bits_value_app, be_decode_snoc, IH by assumption.
  rewrite bits_value_byte by assumption.
  unfold len. rewrite length_bits_of_byte. reflexivity.
Qed.

Lemma skipn_flat_map_bits (n : nat) (bs : list Z) :
  skipn (8 * n) (flat_map bits_of_byte bs)
  = flat_map bits_of_byte (skipn n bs).
Proof.
  revert bs. induction n as [| n IH]; intros bs; [reflexivity |].
  destruct bs as [| b bs]; [reflexivity |].
  cbn [flat_map skipn].
  replace (8 * S n)%nat with (length (bits_of_byte b) + 8 * n)%nat
    by (rewrite length_bits_of_byte; lia).
  rewrite skipn_app, Nat.add_comm, Nat.add_sub.
  rewrite skipn_all2 by lia. cbn [app]. apply IH.
Qed.

Lemma firstn_flat_map_bits (n : nat) (bs : list Z) :
  firstn (8 * n) (flat_map bits_of_byte bs)
  = flat_map bits_of_byte (firstn n bs).
Proof.
  revert bs. induction n as [| n IH]; intros bs; [reflexivity |].
  destruct bs as [| b bs]; [reflexivity |].
  cbn [flat_map firstn].
  replace (8 * S n)%nat with (length (bits_of_byte b) + 8 * n)%nat
    by (rewrite length_bits_of_byte; lia).
  rewrite firstn_app_2. f_equal. apply IH.
Qed.

(** A window of whole bytes is their big-endian value. *)
Lemma window_bytes (bs : list Z) (i W : Z) :
  0 <= i -> 0 <= W -> Forall is_byte bs ->
  window (flat_map bits_of_byte bs) (i * (8 * W)) (8 * W)
  = be_decode (firstn (Z.to_nat W) (skipn (Z.to_nat (i * W)) bs)).
Proof.
  intros Hi HW Hf. unfold window.
  replace (Z.to_nat (i * (8 * W))) with (8 * Z.to_nat (i * W))%nat by nia.
  replace (Z.to_nat (8 * W)) with (8 * Z.to_nat W)%nat by lia.
  rewrite skipn_flat_map_bits, firstn_flat_map_bits.
  apply bits_value_bytes.
  apply Forall_forall. intros x Hx.
  apply firstn_In', skipn_In in Hx.
  rewrite Forall_forall in Hf. apply Hf. exact Hx.
Qed.

(** *** [MulMod] *)

Lemma MulMod_exact (r : RSis) (p q : list Z) :
  (len p <= len q ->
   MulMod r p q
   = Return (map (fun i => Mul (nth i p 0) (nth i q 0)) (seq 0 (length p))))
  /\ (len q < len p -> MulMod r p q = Panic IndexOutOfRange).
Proof.
  unfold MulMod. pose proof (len_nonneg p) as Hp.
  rewrite make_ok by assumption. cbn [Go.bind].
  replace (Z.to_nat (len p)) with (length p) by (unfold len; lia).
  split; intros H; unfold len in H.
  - rewrite (fill_exact (fun i => Mul (nth (Z.to_nat i) p 0)
                                     (nth (Z.to_nat i) q 0))).
    + f_equal. apply map_ext. intros t. cbv beta. now rewrite Nat2Z.id.
    + apply repeat_length.
    + intros j a Hj.
      rewrite (index_nth p j 0) by (unfold len; lia). cbn [Go.bind].
      rewrite (index_nth q j 0) by (unfold len; lia). reflexivity.
  - replace (length p) with (length q + S (length p - length q - 1))%nat
      at 1 by lia.
    rewrite for_loop_app.
    pose proof (store_loop
                  (fun i => Mul (nth (Z.to_nat i) p 0) (nth (Z.to_nat i) q 0))
                  (fun i res =>
                     pi <- index p i ;;
                     qi <- index q i ;;
                     store res i (Mul pi qi))
                  0 (length q) 0 [] (repeat 0 (length q))
                  (repeat 0 (length p - length q))) as L.
    cbn [app] in L. rewrite <- repeat_app in L.
    replace (length q + (length p - length q))%nat with (length p) in L by lia.
    rewrite L; [| | reflexivity | apply repeat_length].
    + cbn [Go.bind for_loop].
      rewrite (index_nth p _ 0) by (unfold len; lia). cbn [Go.bind].
      rewrite index_out by (unfold len; lia). reflexivity.
    + intros j a Hj.
      rewrite (index_nth p j 0) by (unfold len; lia). cbn [Go.bind].
      rewrite (index_nth q j 0) by (unfold len; lia). reflexivity.
Qed.

(** *** The key of an instance *)

Lemma copy_same_length {A} (dst src : list A) :
  length dst = length src -> copy dst src = src.
Proof.
  intros H. unfold copy. rewrite H, firstn_all, skipn_all2 by lia.
  apply app_nil_r.
Qed.

(** The loop over [j] of [NewRSis] copies row [i] of [A] and transforms
    the copy, once for every [j]: one transform of the row is left. *)
Lemma transform_loop (d : Bn254.Domain) (Ai : list Z) (A : list (list Z)) (i : Z)
  (n : nat) (row : list Z) :
  index A i = Return Ai -> length row = length Ai -> (1 <= n)%nat ->
  for_loop n 0 (fun j row => Ai <- index A i ;; Return (FFT d (copy row Ai)))
    row
  = Return (FFT d Ai).
Proof.
  intros HA Hl Hn.
  destruct (for_loop_inv
              (fun j row => length row = length Ai
                            /\ (1 <= j -> row = FFT d Ai))
              (fun j row => Ai <- index A i ;; Return (FFT d (copy row Ai)))
              n 0 row) as (row' & E & _ & Hrow).
  - split; [exact Hl | lia].
  - intros j s Hj (Hs & _). rewrite HA. cbn [Go.bind].
    eexists. split; [reflexivity |].
    rewrite copy_same_length by exact Hs.
    split; [apply length_FFT | reflexivity].
  - rewrite E, Hrow by lia. reflexivity.
Qed.

Lemma NewRSis_key (seed l B k : Z) :
  0 <= l <= 27 -> 0 <= k ->
  exists r,
    NewRSis seed l B k = Return (r, None)
    /\ A r = map (fun i =>
                    map (fun j => genRandom seed (Z.of_nat i) (Z.of_nat j))
                      (seq 0 (Z.to_nat (2 ^ l))))
               (seq 0 (Z.to_nat k))
    /\ AfftCosetBitreversed r = map (FFT (Domain r)) (A r).
Proof.
  intros Hl Hk. unfold NewRSis.
  pose proof (two_pow_bounds l Hl) as Hp.
  replace (int_sub 28 (int_add l 1)) with (27 - l)
    by (unfold int_sub, int_add; rewrite (int64_wrap_small (l + 1)) by lia;
        rewrite int64_wrap_small; lia).
  rewrite (shl_one (27 - l)) by lia. cbn [Go.bind].
  rewrite (shl_one l) by lia. cbn [Go.bind].
  rewrite (make_ok [] k) by lia. cbn [Go.bind].
  set (d := Z.to_nat (2 ^ l)).
  set (key := fun i : Z => map (fun j => genRandom seed i (Z.of_nat j)) (seq 0 d)).
  rewrite (fill_exact key).
  2: apply repeat_length.
  2: { intros i a Hi. rewrite (make_ok 0 (2 ^ l)) by lia. cbn [Go.bind].
       fold d. rewrite (fill_exact (fun j => genRandom seed i j));
         [reflexivity | apply repeat_length | reflexivity]. }
  cbn [Go.bind].
  set (A := map (fun t => key (Z.of_nat t)) (seq 0 (Z.to_nat k))).
  set (domain := NewDomain (uint64 (2 ^ l)) _).
  rewrite (fill_exact (fun i => FFT domain (nth (Z.to_nat i) A []))).
  2: apply repeat_length.
  2: { intros i a Hi. rewrite (make_ok 0 (2 ^ l)) by lia. cbn [Go.bind].
       fold d.
       assert (Lk : length A = Z.to_nat k)
         by (subst A; now rewrite length_map, length_seq).
       rewrite (transform_loop domain (nth (Z.to_nat i) A []) A i d).
       - reflexivity.
       - apply index_nth. unfold len. lia.
       - rewrite repeat_length. subst A.
         rewrite (nth_indep _ [] (key (Z.of_nat 0))) by lia.
         rewrite (map_nth (fun t => key (Z.of_nat t))).
         unfold key. now rewrite length_map, length_seq.
       - subst d. lia. }
  cbn [Go.bind].
  eexists. split; [reflexivity |].
  cbn [Sis.A AfftCosetBitreversed Domain]. split; [reflexivity |].
  fold domain. fold A.
  assert (Lk : length A = Z.to_nat k)
    by (subst A; now rewrite length_map, length_seq).
  apply nth_ext with (d := []) (d' := FFT domain []).
  - now rewrite !length_map, length_seq.
  - intros n Hn. rewrite length_map, length_seq in Hn.
    rewrite (nth_indep _ [] (FFT domain (nth (Z.to_nat (Z.of_nat 0)) A [])))
      by (rewrite length_map, length_seq; lia).
    rewrite (map_nth (fun t => FFT domain (nth (Z.to_nat (Z.of_nat t)) A []))).
    rewrite (map_nth (FFT domain)).
    rewrite seq_nth by lia. cbn [Nat.add]. now rewrite Nat2Z.id.
Qed.

(** *** The vector [Sum] hashes *)

Lemma instance_of (seed l B k : Z) (r : RSis) :
  valid_config l B k -> NewRSis seed l B k = Return (r, None) ->
  forall w, instance (set_buffer r w) l B k.
Proof.
  intros Hv E w. apply (NewRSis_is_instance seed l B k r Hv E).
Qed.

(** The two first stages of [Sum], together. *)
Lemma Sum_vector_exact (r : RSis) (l B k : Z) :
  instance r l B k ->
  Sum_vector r
  = Return (coefficients_of (flat_map bits_of_byte (bytes_read r)) B
              (8 * NbBytesToSum r) (2 ^ l * k)).
Proof.
  intros Hi. pose proof (instance_facts r l B k Hi) as (HN & HN8).
  destruct Hi as ((Hl & HB & Hk & Hprod) & Hs & HLB & HNeq).
  unfold Sum_vector. rewrite Sum_bits_exact by exact HN.
  cbn [Go.bind snd]. fold (bytes_read r).
  assert (Lb : len (flat_map bits_of_byte (bytes_read r)) = 8 * NbBytesToSum r).
  { unfold len, bytes_read. rewrite length_flat_map_bits, length_firstn.
    unfold padded. rewrite length_app, repeat_length. unfold len. lia. }
  rewrite (Sum_m_exact r _ l k Hs Hl Hk ltac:(lia) ltac:(rewrite HLB; lia)
             ltac:(lia) HN8 Lb (flat_map_bits _)).
  rewrite HLB. reflexivity.
Qed.

Lemma Sum_after_vector (r : RSis) (b : list Z) :
  Sum r b
  = (st <- Sum_bits r ;;
     m <- Sum_m r (snd st) ;;
     resBytes <- Sum_hash r m ;;
     Return (set_buffer r (fst st), b ++ resBytes)).
Proof. reflexivity. Qed.

Lemma Modulus_253 : 2 ^ 253 < Modulus.
Proof. reflexivity. Qed.

Lemma nth_coefficients (mBits : list Z) (B nbBits sizeM : Z) :
  1 <= B -> 0 <= nbBits -> nbBits / B <= sizeM ->
  len (coefficients_of mBits B nbBits sizeM) = sizeM
  /\ (forall i, 0 <= i < nbBits / B ->
        nth (Z.to_nat i) (coefficients_of mBits B nbBits sizeM) 0
        = window mBits (i * B) B mod Modulus)
  /\ (forall i, nbBits / B <= i < sizeM ->
        nth (Z.to_nat i) (coefficients_of mBits B nbBits sizeM) 0 = 0).
Proof.
  intros HB Hn Hs. unfold coefficients_of.
  assert (HT : 0 <= nbBits / B) by (apply Z.div_pos; lia).
  set (T := nbBits / B) in *.
  set (f := fun i : nat => window mBits (Z.of_nat i * B) B mod Modulus).
  assert (Lm : length (map f (seq 0 (Z.to_nat T))) = Z.to_nat T)
    by now rewrite length_map, length_seq.
  repeat split.
  - unfold len. rewrite length_app, Lm, repeat_length. lia.
  - intros i Hi. rewrite app_nth1 by lia.
    rewrite (nth_indep _ 0 (f 0%nat)) by lia.
    rewrite map_nth, seq_nth by lia. unfold f. cbn [Nat.add].
    rewrite Z2Nat.id by lia. reflexivity.
  - intros i Hi. rewrite app_nth2 by lia. apply nth_repeat.
Qed.

(** X1: on an instance made by [NewRSis] on a valid configuration, [Sum]
    reads the first [NbBytesToSum] bytes of the zero-padded buffer, most
    significant bit first, and entry [i] of the vector it hashes is the
    number written by bits [i*B .. i*B + B - 1], reduced modulo the field
    order (not reduced at all when [B <= 253]); the entries from
    [8 * NbBytesToSum / B] on are zero. *)
Theorem Sum_vector_windows (seed l B k : Z) (w b : list Z) :
  valid_config l B k ->
  exists r,
    NewRSis seed l B k = Return (r, None)
    /\ let r' := set_buffer r w in
       let N := NbBytesToSum r in
       let mBits := flat_map bits_of_byte (bytes_read r') in
       exists m,
         Sum_bits r' = Return (skipn (Z.to_nat N) (padded r'), mBits)
         /\ Sum_m r' mBits = Return m
         /\ Sum r' b
            = (resBytes <- Sum_hash r' m ;;
               Return (set_buffer r' (skipn (Z.to_nat N) (padded r')),
                       b ++ resBytes))
         /\ len m = 2 ^ l * k
         /\ (forall i, 0 <= i < 8 * N / B ->
               nth (Z.to_nat i) m 0 = window mBits (i * B) B mod Modulus)
         /\ (B <= 253 ->
             forall i, 0 <= i < 8 * N / B ->
               nth (Z.to_nat i) m 0 = window mBits (i * B) B)
         /\ (forall i, 8 * N / B <= i < 2 ^ l * k ->
               nth (Z.to_nat i) m 0 = 0).
Proof.
  intros Hv.
  destruct (NewRSis_instance seed l B k Hv) as (r & E & _ & Hi0).
  exists r. split; [exact E |]. intros r' N mBits.
  assert (Hi : instance r' l B k) by exact Hi0.
  pose proof (instance_facts r' l B k Hi) as (HN & HN8).
  destruct Hi as ((Hl & HB & Hk & Hprod) & Hs & HLB & HNeq).
  subst N. change (NbBytesToSum r) with (NbBytesToSum r').
  set (N := NbBytesToSum r') in *.
  pose proof (two_pow_bounds l Hl) as Hp.
  assert (Lb : len mBits = 8 * N).
  { unfold len, mBits, bytes_read. rewrite length_flat_map_bits, length_firstn.
    unfold padded. rewrite length_app, repeat_length.
    fold N. unfold len. lia. }
  assert (Hbits : Forall is_bit mBits) by apply flat_map_bits.
  assert (HT : 8 * N / B <= 2 ^ l * k).
  { apply Z.div_le_upper_bound; [lia |]. rewrite HLB in HN8. lia. }
  destruct (nth_coefficients mBits B (8 * N) (2 ^ l * k)) as (Lm & Hw & Hz);
    [lia | lia | exact HT |].
  exists (coefficients_of mBits B (8 * N) (2 ^ l * k)).
  assert (E1 : Sum_bits r' = Return (skipn (Z.to_nat N) (padded r'), mBits))
    by (apply Sum_bits_exact; exact HN).
  assert (E2 : Sum_m r' mBits
               = Return (coefficients_of mBits B (8 * N) (2 ^ l * k))).
  { rewrite (Sum_m_exact r' mBits l k Hs Hl Hk ltac:(lia)
               ltac:(rewrite HLB; lia) ltac:(lia) HN8 Lb Hbits).
    rewrite HLB. reflexivity. }
  split; [exact E1 |]. split; [exact E2 |]. split.
  { rewrite Sum_after_vector, E1. cbn [Go.bind fst snd]. rewrite E2.
    reflexivity. }
  split; [exact Lm |]. split; [exact Hw |]. split; [| exact Hz].
  intros H253 i Hi. rewrite Hw by exact Hi.
  apply Z.mod_small.
  assert (Hib : (i + 1) * B <= 8 * N).
  { pose proof (Z.mul_div_le (8 * N) B). nia. }
  pose proof (window_bound mBits Hbits (i * B) B) as Hwb.
  assert (2 ^ B <= 2 ^ 253) by (apply Z.pow_le_mono_r; lia).
  pose proof Modulus_253. nia.
Qed.

Lemma padded_set_buffer (r : RSis) (w : list Z) :
  padded (set_buffer r w)
  = w ++ repeat 0 (Z.to_nat (NbBytesToSum r - len w)).
Proof. reflexivity. Qed.

Lemma padded_bytes (r : RSis) :
  Forall is_byte (buffer r) -> Forall is_byte (padded r).
Proof.
  intros H. unfold padded. apply Forall_app. split; [exact H |].
  apply Forall_forall. intros x Hx. apply repeat_spec in Hx. subst x.
  unfold is_byte. lia.
Qed.

(** X2: when the bound is a whole number [W] of bytes, entry [i] of the
    vector [Sum] hashes is [SetBytes] of the [W] bytes of the padded
    buffer from byte [i*W]. *)
Theorem Sum_vector_bytes (seed l W k : Z) (w : list Z) :
  valid_config l (8 * W) k -> Forall is_byte w ->
  exists r m,
    NewRSis seed l (8 * W) k = Return (r, None)
    /\ NbBytesToSum r = W * 2 ^ l * k
    /\ Sum_vector (set_buffer r w) = Return m
    /\ len m = 2 ^ l * k
    /\ forall i, 0 <= i < 2 ^ l * k ->
         nth (Z.to_nat i) m 0
         = SetBytes (firstn (Z.to_nat W)
                       (skipn (Z.to_nat (i * W)) (padded (set_buffer r w)))).
Proof.
  intros Hv Hw.
  destruct (NewRSis_instance seed l (8 * W) k Hv) as (r & E & _ & Hi0).
  set (r' := set_buffer r w).
  assert (Hi : instance r' l (8 * W) k) by exact Hi0.
  pose proof (instance_facts r' l (8 * W) k Hi) as (HN & HN8).
  pose proof Hi as ((Hl & HB & Hk & Hprod) & Hs & HLB & HNeq).
  pose proof (two_pow_bounds l Hl) as Hp.
  assert (EN : NbBytesToSum r' = W * 2 ^ l * k).
  { rewrite HNeq. replace (8 * W * 2 ^ l * k) with (W * 2 ^ l * k * 8) by lia.
    apply Z.div_mul. lia. }
  assert (ET : 8 * NbBytesToSum r' / (8 * W) = 2 ^ l * k).
  { rewrite EN. replace (8 * (W * 2 ^ l * k)) with (2 ^ l * k * (8 * W)) by lia.
    apply Z.div_mul. lia. }
  exists r, (coefficients_of (flat_map bits_of_byte (bytes_read r')) (8 * W)
               (8 * NbBytesToSum r') (2 ^ l * k)).
  split; [exact E |]. split; [exact EN |].
  split; [exact (Sum_vector_exact r' l (8 * W) k Hi) |].
  destruct (nth_coefficients (flat_map bits_of_byte (bytes_read r')) (8 * W)
              (8 * NbBytesToSum r') (2 ^ l * k)) as (Lm & Hwin & _);
    [lia | lia | lia |].
  split; [exact Lm |].
  intros i Hi'. rewrite Hwin by lia.
  assert (Hpb : Forall is_byte (padded r')) by (apply padded_bytes; exact Hw).
  assert (Hrb : Forall is_byte (bytes_read r')).
  { apply Forall_forall. intros x Hx. apply firstn_In' in Hx.
    rewrite Forall_forall in Hpb. apply Hpb. exact Hx. }
  rewrite window_bytes by (try assumption; lia).
  unfold SetBytes, Fr.SetBytes. do 2 f_equal.
  unfold bytes_read.
  rewrite skipn_firstn_comm, firstn_firstn. f_equal.
  rewrite EN. apply Nat.min_l. nia.
Qed.

Lemma firstn_repeat_le {A} (x : A) (n m : nat) :
  (n <= m)%nat -> firstn n (repeat x m) = repeat x n.
Proof.
  revert m. induction n as [| n IH]; intros m H; [reflexivity |].
  destruct m as [| m]; [lia |]. cbn. f_equal. apply IH. lia.
Qed.

Lemma firstn_zeros (N : nat) (w : list Z) (m : nat) :
  (N <= length w + m)%nat ->
  firstn N (w ++ repeat 0 m) = firstn N w ++ repeat 0 (N - length w).
Proof.
  intros H. rewrite firstn_app. f_equal.
  apply firstn_repeat_le. lia.
Qed.

(** *** What [Sum] does not read *)

(** Two buffers with the same bytes read have the same digest; each keeps
    what follows the bytes read. *)
Lemma Sum_reads (r : RSis) (l B k : Z) (w1 w2 b : list Z) :
  instance r l B k ->
  bytes_read (set_buffer r w1) = bytes_read (set_buffer r w2) ->
  exists out,
    len out = FrBytes * 2 ^ l
    /\ Sum (set_buffer r w1) b
       = Return (set_buffer r (skipn (Z.to_nat (NbBytesToSum r)) w1), b ++ out)
    /\ Sum (set_buffer r w2) b
       = Return (set_buffer r (skipn (Z.to_nat (NbBytesToSum r)) w2), b ++ out).
Proof.
  intros Hi Hr.
  assert (H1 : instance (set_buffer r w1) l B k) by exact Hi.
  assert (H2 : instance (set_buffer r w2) l B k) by exact Hi.
  pose proof (instance_facts r l B k Hi) as (HN & HN8).
  pose proof (Sum_vector_exact _ l B k H1) as V1.
  pose proof (Sum_vector_exact _ l B k H2) as V2.
  rewrite <- Hr in V2.
  change (NbBytesToSum (set_buffer r w2)) with (NbBytesToSum (set_buffer r w1))
    in V2.
  set (m := coefficients_of _ _ _ _) in *.
  destruct Hi as ((Hl & HB & Hk & Hprod) & Hs & HLB & HNeq).
  pose proof (two_pow_bounds l Hl) as Hp.
  destruct (Sum_hash_returns r m l k Hs Hl Hk) as (out & Eo & Lo).
  { subst m.
    apply (nth_coefficients _ B (8 * NbBytesToSum r) (2 ^ l * k)); try lia.
    apply Z.div_le_upper_bound; [lia |]. rewrite HLB in HN8. lia. }
  exists out. split; [exact Lo |].
  unfold Sum_vector in V1, V2.
  rewrite (Sum_bits_exact (set_buffer r w1)) in V1 by exact HN.
  rewrite (Sum_bits_exact (set_buffer r w2)) in V2 by exact HN.
  cbn [Go.bind snd] in V1, V2.
  split.
  - rewrite Sum_after_vector, (Sum_bits_exact (set_buffer r w1)) by exact HN.
    cbn [Go.bind fst snd]. rewrite V1. cbn [Go.bind].
    change (Sum_hash (set_buffer r w1) m) with (Sum_hash r m). rewrite Eo.
    cbn [Go.bind].
    rewrite (skipn_padded (set_buffer r w1)) by (apply HN). reflexivity.
  - rewrite Sum_after_vector, (Sum_bits_exact (set_buffer r w2)) by exact HN.
    cbn [Go.bind fst snd]. rewrite V2. cbn [Go.bind].
    change (Sum_hash (set_buffer r w2) m) with (Sum_hash r m). rewrite Eo.
    cbn [Go.bind].
    rewrite (skipn_padded (set_buffer r w2)) by (apply HN). reflexivity.
Qed.

(** X4: [Sum] does not see zero bytes at the end of the input: the
    digest of [w] and the digest of [w] followed by any number of zero
    bytes are the same. *)
Theorem Sum_trailing_zeros (seed l B k : Z) (w : list Z) (n : nat) :
  valid_config l B k ->
  exists r out,
    NewRSis seed l B k = Return (r, None)
    /\ digest r w = Return out
    /\ digest r (w ++ repeat 0 n) = Return out.
Proof.
  intros Hv.
  destruct (NewRSis_instance seed l B k Hv) as (r & E & _ & Hi).
  pose proof (instance_facts r l B k Hi) as (HN & _).
  destruct (Sum_reads r l B k w (w ++ repeat 0 n) [] Hi) as (out & _ & E1 & E2).
  { unfold bytes_read. rewrite !padded_set_buffer.
    change (NbBytesToSum (set_buffer r ?x)) with (NbBytesToSum r).
    set (N := NbBytesToSum r) in *.
    rewrite <- app_assoc, <- repeat_app.
    rewrite !firstn_zeros.
    - reflexivity.
    - unfold len. rewrite length_app, repeat_length. lia.
    - unfold len. lia. }
  exists r, out. split; [exact E |].
  unfold digest. rewrite E1, E2. split; reflexivity.
Qed.

(** X5: [Sum] does not see what follows the first [NbBytesToSum] bytes:
    two inputs with the same first [NbBytesToSum = B * d * keySize / 8]
    bytes have the same digest. *)
Theorem Sum_ignores_tail (seed l B k : Z) (w x y : list Z) :
  valid_config l B k -> B * 2 ^ l * k / 8 <= len w ->
  exists r out,
    NewRSis seed l B k = Return (r, None)
    /\ NbBytesToSum r = B * 2 ^ l * k / 8
    /\ digest r (w ++ x) = Return out
    /\ digest r (w ++ y) = Return out.
Proof.
  intros Hv Hw.
  destruct (NewRSis_instance seed l B k Hv) as (r & E & _ & Hi).
  pose proof (instance_facts r l B k Hi) as (HN & _).
  pose proof Hi as (_ & _ & _ & HNeq). rewrite <- HNeq in Hw.
  destruct (Sum_reads r l B k (w ++ x) (w ++ y) [] Hi) as (out & _ & E1 & E2).
  { unfold bytes_read. rewrite !padded_set_buffer.
    change (NbBytesToSum (set_buffer r ?x)) with (NbBytesToSum r).
    unfold len in Hw.
    rewrite <- !app_assoc, !firstn_app.
    replace (Z.to_nat (NbBytesToSum r) - length w)%nat with 0%nat by lia.
    reflexivity. }
  exists r, out. split; [exact E |]. split; [exact HNeq |].
  unfold digest. rewrite E1, E2. split; reflexivity.
Qed.

(** *** The vector determines the bytes read *)

Lemma bits_value_inj (l1 l2 : list Z) :
  length l1 = length l2 -> Forall is_bit l1 -> Forall is_bit l2 ->
  bits_value l1 = bits_value l2 -> l1 = l2.
Proof.
  revert l2. induction l1 as [| b1 l1 IH] using rev_ind; intros l2 Hl H1 H2 E.
  - destruct l2; [reflexivity | discriminate Hl].
  - destruct (exists_last (l := l2)) as (l2' & b2 & ->).
    { intros ->. rewrite length_app in Hl. cbn in Hl. lia. }
    rewrite !length_app in Hl. cbn [length] in Hl.
    apply Forall_app in H1, H2. destruct H1 as [H1 Hb1], H2 as [H2 Hb2].
    inversion Hb1 as [| ? ? B1 _]; inversion Hb2 as [| ? ? B2 _]; subst.
    rewrite !bits_value_app in E. change (len [b1]) with 1 in E.
    change (len [b2]) with 1 in E.
    change (bits_value [b1]) with (2 * 0 + b1) in E.
    change (bits_value [b2]) with (2 * 0 + b2) in E.
    change (2 ^ 1) with 2 in E. unfold is_bit in B1, B2.
    assert (b1 = b2) by lia. subst b2.
    f_equal. apply IH; try assumption; lia.
Qed.

Lemma chunks_eq (B : nat) :
  forall (T : nat) (l1 l2 : list Z),
    length l1 = (T * B)%nat -> length l2 = (T * B)%nat ->
    (forall i, (i < T)%nat ->
               firstn B (skipn (i * B) l1) = firstn B (skipn (i * B) l2)) ->
    l1 = l2.
Proof.
  induction T as [| T IH]; intros l1 l2 L1 L2 H.
  - destruct l1, l2; try discriminate; reflexivity.
  - rewrite <- (firstn_skipn B l1), <- (firstn_skipn B l2). f_equal.
    + apply (H 0%nat). lia.
    + apply IH.
      * rewrite length_skipn, L1. cbn. lia.
      * rewrite length_skipn, L2. cbn. lia.
      * intros i Hi. rewrite !skipn_skipn.
        replace (i * B + B)%nat with (S i * B)%nat by lia.
        apply (H (S i)). lia.
Qed.

Lemma app_same_length {A} (x1 y1 x2 y2 : list A) :
  length x1 = length y1 -> x1 ++ x2 = y1 ++ y2 -> x1 = y1 /\ x2 = y2.
Proof.
  revert y1. induction x1 as [| a x1 IH]; intros [| b y1] L E;
    try discriminate L.
  - split; [reflexivity | exact E].
  - injection L as L. injection E as -> E.
    destruct (IH y1 L E) as [-> ->]. split; reflexivity.
Qed.

Lemma flat_map_bits_inj (bs1 bs2 : list Z) :
  Forall is_byte bs1 -> Forall is_byte bs2 ->
  flat_map bits_of_byte bs1 = flat_map bits_of_byte bs2 -> bs1 = bs2.
Proof.
  revert bs2. induction bs1 as [| b1 bs1 IH]; intros bs2 H1 H2 E.
  - destruct bs2 as [| b2 bs2]; [reflexivity |].
    apply (f_equal (@length Z)) in E.
    rewrite !length_flat_map_bits in E. cbn in E. lia.
  - destruct bs2 as [| b2 bs2].
    + apply (f_equal (@length Z)) in E.
      rewrite !length_flat_map_bits in E. cbn in E. lia.
    + cbn [flat_map] in E.
      inversion H1 as [| ? ? B1 F1]; inversion H2 as [| ? ? B2 F2]; subst.
      assert (Eb : bits_of_byte b1 = bits_of_byte b2
                   /\ flat_map bits_of_byte bs1 = flat_map bits_of_byte bs2).
      { apply app_same_length; [| exact E].
        now rewrite !length_bits_of_byte. }
      destruct Eb as [Eb Er].
      apply (f_equal bits_value) in Eb.
      rewrite !bits_value_byte in Eb by assumption. subst b2.
      f_equal. apply IH; assumption.
Qed.

(** X3: when [B <= 253] and [B * d * keySize] is a multiple of 8, the
    vector [Sum] hashes determines the bytes [Sum] reads: two buffers give
    the same vector exactly when their first [NbBytesToSum] bytes, after
    padding, are the same. *)
Theorem Sum_vector_injective (seed l B k : Z) (w1 w2 : list Z) :
  valid_config l B k -> B <= 253 -> (B * 2 ^ l * k) mod 8 = 0 ->
  Forall is_byte w1 -> Forall is_byte w2 ->
  exists r m1 m2,
    NewRSis seed l B k = Return (r, None)
    /\ Sum_vector (set_buffer r w1) = Return m1
    /\ Sum_vector (set_buffer r w2) = Return m2
    /\ (m1 = m2
        <-> bytes_read (set_buffer r w1) = bytes_read (set_buffer r w2)).
Proof.
  intros Hv H253 H8 Hw1 Hw2.
  destruct (NewRSis_instance seed l B k Hv) as (r & E & _ & Hi).
  pose proof (instance_facts r l B k Hi) as (HN & HN8).
  pose proof Hi as ((Hl & HB & Hk & Hprod) & Hs & HLB & HNeq).
  pose proof (two_pow_bounds l Hl) as Hp.
  set (r1 := set_buffer r w1). set (r2 := set_buffer r w2).
  set (N := NbBytesToSum r) in *.
  assert (E8 : 8 * N = B * 2 ^ l * k).
  { rewrite HNeq. pose proof (Z.div_mod (B * 2 ^ l * k) 8). lia. }
  assert (ET : 8 * N / B = 2 ^ l * k).
  { rewrite E8. replace (B * 2 ^ l * k) with (2 ^ l * k * B) by lia.
    apply Z.div_mul. lia. }
  set (b1 := flat_map bits_of_byte (bytes_read r1)).
  set (b2 := flat_map bits_of_byte (bytes_read r2)).
  exists r, (coefficients_of b1 B (8 * N) (2 ^ l * k)),
    (coefficients_of b2 B (8 * N) (2 ^ l * k)).
  split; [exact E |].
  split; [exact (Sum_vector_exact r1 l B k Hi) |].
  split; [exact (Sum_vector_exact r2 l B k Hi) |].
  split; [| intros Eb; subst b1 b2 r1 r2; cbv zeta; rewrite Eb; reflexivity].
  intros Em.
  assert (Lr : forall w, length (bytes_read (set_buffer r w)) = Z.to_nat N).
  { intros w. unfold bytes_read. rewrite length_firstn, padded_set_buffer.
    rewrite length_app, repeat_length. fold N.
    change (NbBytesToSum (set_buffer r w)) with N. unfold len. lia. }
  assert (Lb : forall w,
             length (flat_map bits_of_byte (bytes_read (set_buffer r w)))
             = (Z.to_nat (2 ^ l * k) * Z.to_nat B)%nat).
  { intros w. rewrite length_flat_map_bits, Lr. nia. }
  assert (Hb : forall w, Forall is_byte w ->
                         Forall is_byte (bytes_read (set_buffer r w))).
  { intros w Hw. apply Forall_forall. intros x Hx. apply firstn_In' in Hx.
    pose proof (padded_bytes (set_buffer r w) Hw) as Hp'.
    rewrite Forall_forall in Hp'. apply Hp'. exact Hx. }
  apply flat_map_bits_inj; [apply Hb; exact Hw1 | apply Hb; exact Hw2 |].
  fold b1 b2.
  apply (chunks_eq (Z.to_nat B) (Z.to_nat (2 ^ l * k)));
    [apply Lb | apply Lb |].
  intros i Hi'.
  destruct (nth_coefficients b1 B (8 * N) (2 ^ l * k)) as (_ & W1 & _);
    [lia | lia | lia |].
  destruct (nth_coefficients b2 B (8 * N) (2 ^ l * k)) as (_ & W2 & _);
    [lia | lia | lia |].
  specialize (W1 (Z.of_nat i) ltac:(lia)).
  specialize (W2 (Z.of_nat i) ltac:(lia)).
  rewrite Em, W2 in W1.
  assert (Hlen : forall bs : list Z,
             length bs = (Z.to_nat (2 ^ l * k) * Z.to_nat B)%nat ->
             len bs = 8 * N) by (intros bs Hbs; unfold len; nia).
  assert (Hib : Z.of_nat i * B + B <= 8 * N) by nia.
  pose proof (window_bound b1 (flat_map_bits _) (Z.of_nat i * B) B
                ltac:(lia) ltac:(lia)
                ltac:(rewrite (Hlen b1 (Lb w1)); exact Hib)) as B1.
  pose proof (window_bound b2 (flat_map_bits _) (Z.of_nat i * B) B
                ltac:(lia) ltac:(lia)
                ltac:(rewrite (Hlen b2 (Lb w2)); exact Hib)) as B2.
  assert (H2B : 2 ^ B <= 2 ^ 253) by (apply Z.pow_le_mono_r; lia).
  pose proof Modulus_253 as HM.
  rewrite !Z.mod_small in W1 by lia.
  unfold window in W1.
  replace (Z.to_nat (Z.of_nat i * B)) with (i * Z.to_nat B)%nat in W1 by nia.
  symmetry. apply bits_value_inj.
  - rewrite !length_firstn, !length_skipn.
    fold b1 b2. rewrite (Lb w1), (Lb w2). reflexivity.
  - apply Forall_forall. intros x Hx. apply firstn_In', skipn_In in Hx.
    pose proof (flat_map_bits (bytes_read r2)) as Hf.
    rewrite Forall_forall in Hf. apply Hf. exact Hx.
  - apply Forall_forall. intros x Hx. apply firstn_In', skipn_In in Hx.
    pose proof (flat_map_bits (bytes_read r1)) as Hf.
    rewrite Forall_forall in Hf. apply Hf. exact Hx.
  - exact W1.
Qed.

(** X6: [MulMod p q] is the entry-wise product, of the length of [p],
    when [q] is at least as long as [p]; it panics on an index out of
    range when [q] is shorter; on equal lengths it is commutative. *)
Theorem MulMod_pointwise (r : RSis) (p q : list Z) :
  (len p <= len q ->
   MulMod r p q
   = Return (map (fun i => Mul (nth i p 0) (nth i q 0)) (seq 0 (length p))))
  /\ (len q < len p -> MulMod r p q = Panic IndexOutOfRange)
  /\ (len p = len q -> MulMod r p q = MulMod r q p).
Proof.
  split; [apply MulMod_exact |]. split; [apply MulMod_exact |].
  intros H.
  rewrite (proj1 (MulMod_exact r p q)) by lia.
  rewrite (proj1 (MulMod_exact r q p)) by lia.
  unfold len in H. replace (length q) with (length p) by lia.
  f_equal. apply map_ext. intros i. unfold Mul, Fr.Mul. f_equal. lia.
Qed.

(** X7: the key made by [NewRSis]: [A[i][j]] is [genRandom(seed, i, j)],
    a reduced field element, and row [i] of [AfftCosetBitreversed] is the
    transform of row [i] of [A] (the loop that copies and transforms the
    row once for every [j] leaves one transform). *)
Theorem NewRSis_derives_key (seed l B k : Z) :
  0 <= l <= 27 -> 0 <= k ->
  exists r,
    NewRSis seed l B k = Return (r, None)
    /\ A r = map (fun i =>
                    map (fun j => genRandom seed (Z.of_nat i) (Z.of_nat j))
                      (seq 0 (Z.to_nat (2 ^ l))))
               (seq 0 (Z.to_nat k))
    /\ AfftCosetBitreversed r = map (FFT (Domain r)) (A r)
    /\ Forall (Forall (fun x => 0 <= x < Modulus)) (A r).
Proof.
  intros Hl Hk.
  destruct (NewRSis_key seed l B k Hl Hk) as (r & E & EA & EF).
  exists r. split; [exact E |]. split; [exact EA |]. split; [exact EF |].
  rewrite EA. apply Forall_forall. intros row Hrow.
  apply in_map_iff in Hrow. destruct Hrow as (i & <- & _).
  apply Forall_forall. intros x Hx.
  apply in_map_iff in Hx. destruct Hx as (j & <- & _).
  unfold genRandom, SetBytes, Fr.SetBytes.
  apply Z.mod_pos_bound. reflexivity.
Qed.

(** X8: [NewRSis] accepts [logTwoBound = 0], and [Sum] on the instance
    it returns panics on a division by zero, whatever was written. *)
Theorem Sum_zero_bound_panics (seed l k : Z) (w b : list Z) :
  0 <= l <= 27 -> 0 <= k -> 2 ^ l * k < 2 ^ 63 ->
  exists r,
    NewRSis seed l 0 k = Return (r, None)
    /\ Sum (set_buffer r w) b = Panic DivideByZero.
Proof.
  intros Hl Hk Hdk.
  pose proof (two_pow_bounds l Hl) as Hp.
  destruct (NewRSis_returns seed l 0 k Hl Hk) as (r & E & _ & HLB & HN & Hs & _).
  exists r. split; [exact E |].
  assert (EN : NbBytesToSum r = 0).
  { rewrite HN. reflexivity. }
  destruct Hs as (Hd & HA & _).
  rewrite Sum_after_vector.
  rewrite (Sum_bits_exact (set_buffer r w))
    by (change (NbBytesToSum (set_buffer r w)) with (NbBytesToSum r);
        rewrite EN; lia).
  cbn [Go.bind snd fst].
  change (NbBytesToSum (set_buffer r w)) with (NbBytesToSum r). rewrite EN.
  cbn [Z.to_nat firstn flat_map].
  unfold Sum_m.
  change (LogTwoBound (set_buffer r w)) with (LogTwoBound r).
  change (NbBytesToSum (set_buffer r w)) with (NbBytesToSum r).
  change (Degree (set_buffer r w)) with (Degree r).
  change (Sis.A (set_buffer r w)) with (Sis.A r).
  rewrite HLB, EN, Hd, HA.
  change (Z.rem 0 8) with 0. change ((0 - 0) ÷ 8 + 1) with 1.
  rewrite (make_ok 0 1) by lia. cbn [Go.bind].
  replace (int_mul (2 ^ l) k) with (2 ^ l * k)
    by (unfold int_mul; rewrite int64_wrap_small; lia).
  rewrite make_ok by lia. cbn [Go.bind].
  reflexivity.
Qed.

(** X9: [NewRSis] accepts [keySize = 0]; on the instance it returns
    [Size] panics (it reads [A[0]]) while [Sum] returns, appending
    [32 * d] bytes. *)
Theorem Size_empty_key_panics (seed l B : Z) (w b : list Z) :
  valid_config l B 0 ->
  exists r,
    NewRSis seed l B 0 = Return (r, None)
    /\ Size (set_buffer r w) = Panic IndexOutOfRange
    /\ exists r' out, Sum (set_buffer r w) b = Return (r', b ++ out)
                      /\ len out = FrBytes * 2 ^ l.
Proof.
  intros Hv.
  destruct (NewRSis_instance seed l B 0 Hv) as (r & E & _ & Hi).
  exists r. split; [exact E |]. split.
  - unfold Size. change (Sis.A (set_buffer r w)) with (Sis.A r).
    destruct Hi as (_ & (_ & HA & _) & _).
    rewrite index_out by lia. reflexivity.
  - destruct (Sum_returns (set_buffer r w) l B 0 b Hi) as (out & Eo & Lo).
    eexists _, out. split; [exact Eo | exact Lo].
Qed.

(** X10: [NewRSis] with a negative [keySize] panics ([make] with a
    negative length). *)
Theorem NewRSis_negative_keySize_panics (seed l B k : Z) :
  0 <= l <= 27 -> k < 0 -> NewRSis seed l B k = Panic MakeLenOutOfRange.
Proof.
  intros Hl Hk. unfold NewRSis.
  replace (int_sub 28 (int_add l 1)) with (27 - l)
    by (unfold int_sub, int_add; rewrite (int64_wrap_small (l + 1)) by lia;
        rewrite int64_wrap_small; lia).
  rewrite (shl_one (27 - l)) by lia. cbn [Go.bind].
  rewrite (shl_one l) by lia. cbn [Go.bind].
  unfold make. destruct (Z.ltb_spec k 0); [reflexivity | lia].
Qed.

(** *** The theorems on instances of the tests *)

Lemma empty_key_config : valid_config 1 4 0.
Proof. unfold valid_config. cbn. lia. Qed.

Lemma byte_config : valid_config 1 (8 * 1) 2.
Proof. unfold valid_config. cbn. lia. Qed.

Lemma one_byte_config : valid_config 0 8 1.
Proof. unfold valid_config. cbn. lia. Qed.

Lemma bytes_are_bytes (w : list Z) :
  forallb (fun b => (0 <=? b) && (b <? 256)) w = true -> Forall is_byte w.
Proof.
  intros H. apply Forall_forall. intros x Hx.
  rewrite forallb_forall in H. specialize (H x Hx).
  apply andb_true_iff in H. unfold is_byte. lia.
Qed.

Lemma Sum_vector_windows_witness :
  valid_config 1 4 8
  /\ exists r,
      NewRSis 5 1 4 8 = Return (r, None)
      /\ let r' := set_buffer r [0xa4] in
         let N := NbBytesToSum r in
         let mBits := flat_map bits_of_byte (bytes_read r') in
         exists m,
           Sum_bits r' = Return (skipn (Z.to_nat N) (padded r'), mBits)
           /\ Sum_m r' mBits = Return m
           /\ Sum r' []
              = (resBytes <- Sum_hash r' m ;;
                 Return (set_buffer r' (skipn (Z.to_nat N) (padded r')),
                         [] ++ resBytes))
           /\ len m = 2 ^ 1 * 8
           /\ (forall i, 0 <= i < 8 * N / 4 ->
                 nth (Z.to_nat i) m 0 = window mBits (i * 4) 4 mod Modulus)
           /\ (4 <= 253 ->
               forall i, 0 <= i < 8 * N / 4 ->
                 nth (Z.to_nat i) m 0 = window mBits (i * 4) 4)
           /\ (forall i, 8 * N / 4 <= i < 2 ^ 1 * 8 ->
                 nth (Z.to_nat i) m 0 = 0).
Proof.
  split; [exact valid_test_config |].
  exact (Sum_vector_windows 5 1 4 8 [0xa4] [] valid_test_config).
Defined.

Lemma Sum_vector_bytes_witness :
  valid_config 1 (8 * 1) 2 /\ Forall is_byte [1; 2; 3]
  /\ exists r m,
      NewRSis 5 1 (8 * 1) 2 = Return (r, None)
      /\ NbBytesToSum r = 1 * 2 ^ 1 * 2
      /\ Sum_vector (set_buffer r [1; 2; 3]) = Return m
      /\ len m = 2 ^ 1 * 2
      /\ forall i, 0 <= i < 2 ^ 1 * 2 ->
           nth (Z.to_nat i) m 0
           = SetBytes (firstn (Z.to_nat 1)
                         (skipn (Z.to_nat (i * 1))
                            (padded (set_buffer r [1; 2; 3])))).
Proof.
  assert (H : Forall is_byte [1; 2; 3]) by (apply bytes_are_bytes; reflexivity).
  split; [exact byte_config |]. split; [exact H |].
  exact (Sum_vector_bytes 5 1 1 2 [1; 2; 3] byte_config H).
Defined.

Lemma Sum_vector_injective_witness :
  valid_config 1 4 8 /\ 4 <= 253 /\ (4 * 2 ^ 1 * 8) mod 8 = 0
  /\ Forall is_byte [0xa4] /\ Forall is_byte [0xa5; 0]
  /\ exists r m1 m2,
      NewRSis 5 1 4 8 = Return (r, None)
      /\ Sum_vector (set_buffer r [0xa4]) = Return m1
      /\ Sum_vector (set_buffer r [0xa5; 0]) = Return m2
      /\ (m1 = m2
          <-> bytes_read (set_buffer r [0xa4])
              = bytes_read (set_buffer r [0xa5; 0])).
Proof.
  assert (H1 : Forall is_byte [0xa4]) by (apply bytes_are_bytes; reflexivity).
  assert (H2 : Forall is_byte [0xa5; 0])
    by (apply bytes_are_bytes; reflexivity).
  assert (H3 : 4 <= 253) by lia.
  assert (H4 : (4 * 2 ^ 1 * 8) mod 8 = 0) by reflexivity.
  refine (conj valid_test_config (conj H3 (conj H4 (conj H1 (conj H2 _))))).
  exact (Sum_vector_injective 5 1 4 8 [0xa4] [0xa5; 0] valid_test_config
           H3 H4 H1 H2).
Defined.

Lemma Sum_trailing_zeros_witness :
  valid_config 1 4 8
  /\ exists r out,
      NewRSis 5 1 4 8 = Return (r, None)
      /\ digest r [0xa4] = Return out
      /\ digest r ([0xa4] ++ repeat 0 3) = Return out.
Proof.
  split; [exact valid_test_config |].
  exact (Sum_trailing_zeros 5 1 4 8 [0xa4] 3 valid_test_config).
Defined.

Lemma Sum_ignores_tail_witness :
  valid_config 0 8 1 /\ 8 * 2 ^ 0 * 1 / 8 <= len [7]
  /\ exists r out,
      NewRSis 5 0 8 1 = Return (r, None)
      /\ NbBytesToSum r = 8 * 2 ^ 0 * 1 / 8
      /\ digest r ([7] ++ [1]) = Return out
      /\ digest r ([7] ++ [2; 3]) = Return out.
Proof.
  assert (H : 8 * 2 ^ 0 * 1 / 8 <= len [7]) by (vm_compute; discriminate).
  split; [exact one_byte_config |]. split; [exact H |].
  exact (Sum_ignores_tail 5 0 8 1 [7] [1] [2; 3] one_byte_config H).
Defined.

Lemma NewRSis_derives_key_witness :
  0 <= 1 <= 27 /\ 0 <= 8
  /\ exists r,
      NewRSis 5 1 4 8 = Return (r, None)
      /\ A r = map (fun i =>
                      map (fun j => genRandom 5 (Z.of_nat i) (Z.of_nat j))
                        (seq 0 (Z.to_nat (2 ^ 1))))
                 (seq 0 (Z.to_nat 8))
      /\ AfftCosetBitreversed r = map (FFT (Domain r)) (A r)
      /\ Forall (Forall (fun x => 0 <= x < Modulus)) (A r).
Proof.
  assert (H1 : 0 <= 1 <= 27) by lia.
  assert (H2 : 0 <= 8) by lia.
  split; [exact H1 |]. split; [exact H2 |].
  exact (NewRSis_derives_key 5 1 4 8 H1 H2).
Defined.

Lemma Sum_zero_bound_panics_witness :
  0 <= 1 <= 27 /\ 0 <= 8 /\ 2 ^ 1 * 8 < 2 ^ 63
  /\ exists r,
      NewRSis 5 1 0 8 = Return (r, None)
      /\ Sum (set_buffer r [1; 2]) [] = Panic DivideByZero.
Proof.
  assert (H1 : 0 <= 1 <= 27) by lia.
  assert (H2 : 0 <= 8) by lia.
  assert (H3 : 2 ^ 1 * 8 < 2 ^ 63) by reflexivity.
  split; [exact H1 |]. split; [exact H2 |]. split; [exact H3 |].
  exact (Sum_zero_bound_panics 5 1 8 [1; 2] [] H1 H2 H3).
Defined.

Lemma Size_empty_key_panics_witness :
  valid_config 1 4 0
  /\ exists r,
      NewRSis 5 1 4 0 = Return (r, None)
      /\ Size (set_buffer r [1]) = Panic IndexOutOfRange
      /\ exists r' out, Sum (set_buffer r [1]) [] = Return (r', [] ++ out)
                        /\ len out = FrBytes * 2 ^ 1.
Proof.
  split; [exact empty_key_config |].
  exact (Size_empty_key_panics 5 1 4 [1] [] empty_key_config).
Defined.

Lemma NewRSis_negative_keySize_panics_witness :
  0 <= 1 <= 27 /\ -1 < 0 /\ NewRSis 5 1 4 (-1) = Panic MakeLenOutOfRange.
Proof.
  assert (H1 : 0 <= 1 <= 27) by lia.
  assert (H2 : -1 < 0) by lia.
  split; [exact H1 |]. split; [exact H2 |].
  exact (NewRSis_negative_keySize_panics 5 1 4 (-1) H1 H2).
Defined.

End SumFacts.

(** ** [ProveLookupTables] against [VerifyLookupTables] *)

Module TablesFacts.
Import GoFacts Plookup PlookupFacts Commitments.
Local Open Scope exec_scope.

Section More.
Context {C : Collaborators}.

(** *** The runs of the prover and of the verifier *)

(** What [ProveLookupTables] returns on tables of compatible sizes whose
    rows are committed to. *)
Lemma ProveLookupTables_run (srs : SRS) (f t : list Table) (s_f s_t : Z) :
  1 <= len f -> len f = len t ->
  Forall (fun row => len row = s_f) f ->
  Forall (fun row => len row = s_t) t ->
  1 <= s_f -> 1 <= s_t ->
  let nbColumns := NewDomain_Cardinality (Z.max (s_f + 1) s_t) in
  Forall (commits_to srs nbColumns) f ->
  let digests := map (commitment srs nbColumns) f in
  let lambda := challenge_of digests in
  let foldedf := folded lambda (map (fun row => pad row nbColumns) f) nbColumns in
  let foldedt := folded lambda (map (fun row => pad row nbColumns) t) nbColumns in
  let inner :=
    ProveLookupVector srs (firstn (Z.to_nat (nbColumns - 1)) foldedf) foldedt in
  run (ProveLookupTables srs f t)
  = Return ({| fs := digests; foldedProof := fst inner |},
            option_map ErrCollaborator (snd inner)).
Proof.
  intros Hn Hlen Hf Ht Hsf Hst nbColumns Hc digests lambda foldedf foldedt
    inner.
  set (target := Z.max (s_f + 1) s_t) in *.
  assert (Htarget : 1 <= target) by (unfold target; lia).
  pose proof (Cardinality_spec target Htarget) as (Hpow & Hge & Hmin).
  fold nbColumns in Hpow, Hge, Hmin.
  assert (Hcols : 1 <= nbColumns) by lia.
  assert (Hlf : len foldedf = nbColumns) by (apply len_folded; lia).
  unfold ProveLookupTables.
  destruct (Z.eqb_spec (len f) (len t)) as [_ | Hne]; [| contradiction].
  cbn [negb].
  destruct f as [| f0 f']; [unfold len in Hn; simpl in Hn; lia |].
  destruct t as [| t0 t']; [discriminate Hlen |].
  change (index (f0 :: f') 0) with (index ([] ++ f0 :: f') (len (@nil Table))).
  rewrite index_app. cbn [lift].
  assert (Hf0 : len f0 = s_f) by (now inversion Hf).
  rewrite Hf0, (size_differs_false _ _ Hf).
  change (index (t0 :: t') 0) with (index ([] ++ t0 :: t') (len (@nil Table))).
  rewrite index_app. cbn [lift].
  assert (Ht0 : len t0 = s_t) by (now inversion Ht).
  rewrite Ht0, (size_differs_false _ _ Ht).
  replace (if s_f + 1 <? s_t then s_t else s_f + 1) with target
    by (unfold target; destruct (Z.ltb_spec (s_f + 1) s_t); lia).
  fold nbColumns.
  set (F := f0 :: f') in *. set (T := t0 :: t') in *.
  pose proof (len_nonneg T) as Hnn.
  rewrite !make_ok by assumption. cbn [lift].
  rewrite run_pbind.
  replace (Z.to_nat (len T)) with (length F) by (unfold len in *; lia).
  pose proof (rows_loop_run srs F T nbColumns F T [] [] [] [] []
                eq_refl eq_refl eq_refl eq_refl eq_refl eq_refl) as Hloop.
  cbn [app] in Hloop. change (len (@nil Table)) with 0 in Hloop.
  replace (length T) with (length F) by (unfold len in *; lia).
  rewrite Hloop; clear Hloop.
  - cbn [Go.bind]. rewrite deriveRandomness_fresh.
    fold digests lambda.
    rewrite (fold_rows_returns lambda
               (map (fun row => pad row nbColumns) F)
               (map (fun row => pad row nbColumns) T)
               (len T) nbColumns).
    + cbn [lift fst snd]. fold foldedf foldedt.
      rewrite slice_ok by lia. cbn [lift run answer skipn].
      rewrite Hlf, Z.sub_0_r. reflexivity.
    + unfold len in *. rewrite length_map. lia.
    + unfold len. rewrite length_map. reflexivity.
    + lia.
    + apply Forall_map. eapply Forall_impl; [| exact Hf].
      intros row Hr. cbn beta in *. apply len_pad. lia.
    + apply Forall_map. eapply Forall_impl; [| exact Ht].
      intros row Hr. cbn beta in *. apply len_pad. lia.
  - unfold len in *. lia.
  - eapply Forall_impl; [| exact Hf]. intros row Hr. cbn beta in *. lia.
  - eapply Forall_impl; [| exact Ht]. intros row Hr. cbn beta in *. lia.
  - exact Hc.
Qed.

(** What [VerifyLookupTables] returns on a proof with a commitment. *)
Lemma VerifyLookupTables_run (srs : SRS) (proof : ProofLookupTables) :
  1 <= len (fs proof) ->
  run (VerifyLookupTables srs proof)
  = Return (if G1_Equal
                 (folded_digest (ToBigIntRegular (challenge_of (fs proof)))
                    (fs proof))
                 (ProofLookupVector_f (foldedProof proof))
            then option_map ErrCollaborator
                   (VerifyLookupVector srs (foldedProof proof))
            else Some ErrFoldedCommitment).
Proof.
  intros Hn.
  unfold VerifyLookupTables. rewrite deriveRandomness_fresh.
  set (lambda := challenge_of (fs proof)).
  unfold folded_digest.
  destruct (rev (fs proof)) as [| top below] eqn:Erev.
  - apply (f_equal (@length _)) in Erev. rewrite length_rev in Erev.
    unfold len in Hn. simpl in Erev. lia.
  - assert (Efs : fs proof = rev below ++ [top]).
    { rewrite <- (rev_involutive (fs proof)), Erev. reflexivity. }
    rewrite Efs.
    destruct (fold_digests_loop (ToBigIntRegular lambda) top below)
      as (E1 & E2).
    rewrite E1. cbn [lift].
    match goal with
    | |- context [lift ?m _] =>
        replace m
          with (Return (fold_left (digest_step (ToBigIntRegular lambda))
                          below top))
          by (symmetry; exact E2)
    end.
    cbn [lift]. unfold digest_step.
    destruct (G1_Equal _ _); reflexivity.
Qed.

(** *** The folded rows and their commitment *)

Lemma nth_axpy (lambda : Z) (a b : list Z) (j : nat) :
  length a = length b -> (j < length a)%nat ->
  nth j (axpy lambda a b) 0 = Add (Mul (nth j a 0) lambda) (nth j b 0).
Proof.
  unfold axpy. revert b j.
  induction a as [| x a IH]; intros [| y b] j Hl Hj; cbn in Hl, Hj; try lia.
  destruct j as [| j]; [reflexivity |].
  cbn [combine map nth]. apply IH; lia.
Qed.

Lemma length_axpy (lambda : Z) (a b : list Z) :
  length a = length b -> length (axpy lambda a b) = length a.
Proof.
  intros H. unfold axpy. rewrite length_map, length_combine. lia.
Qed.

Lemma nth_folded (lambda : Z) (rows : list (list Z)) (n : Z) (j : nat) :
  (j < Z.to_nat n)%nat ->
  nth j (folded lambda rows n) 0
  = horner lambda (column rows j) mod fr_Modulus.
Proof.
  intros Hj. unfold folded.
  rewrite (nth_map_seq (fun j => sum_pow lambda 0 (column rows j) mod fr_Modulus))
    by exact Hj.
  now rewrite sum_pow_0.
Qed.

Lemma folded_cons (lambda : Z) (r : list Z) (rest : list (list Z)) (n : Z) :
  0 <= n -> len r = n ->
  folded lambda (r :: rest) n = axpy lambda (folded lambda rest n) r.
Proof.
  intros Hn Hr.
  assert (Lf : forall rows, length (folded lambda rows n) = Z.to_nat n).
  { intros rows. pose proof (len_folded lambda rows n Hn) as H.
    unfold len in H. lia. }
  assert (Lr : length r = Z.to_nat n) by (unfold len in Hr; lia).
  apply nth_ext with (d := 0) (d' := 0).
  - rewrite length_axpy; rewrite !Lf; congruence.
  - intros j Hj. rewrite Lf in Hj.
    rewrite nth_axpy by (rewrite ?Lf; lia).
    rewrite !nth_folded by exact Hj.
    cbn [column map horner fold_right].
    symmetry. apply horner_step. reflexivity.
Qed.

Lemma folded_nil (lambda : Z) (n : Z) :
  0 < fr_Modulus -> folded lambda [] n = repeat 0 (Z.to_nat n).
Proof.
  intros Hq. unfold folded. cbn [column map sum_pow].
  rewrite Z.mod_0_l by lia.
  induction (Z.to_nat n) as [| m IH]; [reflexivity |].
  rewrite seq_S, map_app, IH. cbn [map]. rewrite <- repeat_cons. reflexivity.
Qed.

Lemma folded_single (lambda : Z) (r : list Z) (n : Z) :
  0 < fr_Modulus -> 0 <= n -> len r = n -> Forall canonical r ->
  folded lambda [r] n = r.
Proof.
  intros Hq Hn Hr Hc. rewrite folded_cons, folded_nil by assumption.
  assert (Lr : length r = Z.to_nat n) by (unfold len in Hr; lia).
  apply nth_ext with (d := 0) (d' := 0).
  - rewrite length_axpy; rewrite repeat_length; congruence.
  - intros j Hj. rewrite length_axpy, repeat_length in Hj
      by (rewrite repeat_length; congruence).
    rewrite nth_axpy by (rewrite repeat_length; lia).
    rewrite nth_repeat. unfold Add, Mul, Fr.Add, Fr.Mul.
    rewrite Z.mul_0_l, Z.mod_0_l, Z.add_0_l by lia.
    apply Z.mod_small. rewrite Forall_forall in Hc. apply Hc.
    apply nth_In. lia.
Qed.

Lemma folded_canonical (lambda : Z) (rows : list (list Z)) (n : Z) :
  0 < fr_Modulus -> Forall canonical (folded lambda rows n).
Proof.
  intros Hq. unfold folded. apply Forall_forall. intros x Hx.
  apply in_map_iff in Hx. destruct Hx as (j & <- & _).
  apply Z.mod_pos_bound. exact Hq.
Qed.

Lemma folded_digest_cons (blambda : Z) (d : Digest) (ds : list Digest) :
  ds <> [] ->
  folded_digest blambda (d :: ds) = digest_step blambda (folded_digest blambda ds) d.
Proof.
  intros Hne. unfold folded_digest. cbn [rev].
  destruct (rev ds) as [| top below] eqn:E.
  - apply (f_equal (@rev _)) in E. rewrite rev_involutive in E. contradiction.
  - cbn [app]. rewrite fold_left_app. reflexivity.
Qed.

(** The commitment to the folded rows is the fold of the commitments. *)
Lemma commitment_folded (srs : SRS) (n lambda : Z) (rows : list (list Z)) :
  0 < fr_Modulus -> 0 <= n -> linear_commitment srs n ->
  rows <> [] ->
  Forall (fun row => len row = n) rows -> Forall (Forall canonical) rows ->
  commitment srs n (folded lambda rows n)
  = folded_digest (ToBigIntRegular lambda) (map (commitment srs n) rows).
Proof.
  intros Hq Hn Hlin. induction rows as [| r rest IH]; intros Hne Hl Hc.
  - contradiction.
  - pose proof (Forall_inv Hl) as Hr. pose proof (Forall_inv_tail Hl) as Hl'.
    pose proof (Forall_inv Hc) as Hcr. pose proof (Forall_inv_tail Hc) as Hc'.
    cbn beta in Hr.
    destruct rest as [| r' rest'].
    + rewrite folded_single by assumption. reflexivity.
    + cbn [map]. rewrite folded_digest_cons by discriminate.
      rewrite folded_cons by (try assumption; reflexivity).
      rewrite Hlin; try assumption.
      * unfold digest_step. f_equal. f_equal.
        apply IH; [discriminate | assumption | assumption].
      * apply len_folded. exact Hn.
      * apply folded_canonical. exact Hq.
Qed.

Lemma pad_full (row : Table) (n : Z) : len row = n -> pad row n = row.
Proof.
  intros H. unfold pad. rewrite H, Z.sub_diag. apply app_nil_r.
Qed.

Lemma commitment_pad (srs : SRS) (n : Z) (row : Table) :
  len row <= n -> commitment srs n (pad row n) = commitment srs n row.
Proof.
  intros H. unfold commitment, coefficients.
  rewrite (pad_full (pad row n)) by (apply len_pad; exact H). reflexivity.
Qed.

Lemma nth_pad_tail (row : Table) (n : Z) (j : nat) :
  row <> [] -> (length row - 1 <= j)%nat -> (j < Z.to_nat n)%nat ->
  nth j (pad row n) 0 = last row 0.
Proof.
  intros Hne Hj Hn. unfold pad.
  destruct (Nat.eq_dec j (length row - 1)) as [-> | Hd].
  - rewrite app_nth1.
    + apply nth_last_entry. exact Hne.
    + destruct row; [contradiction | cbn; lia].
  - rewrite app_nth2 by lia. apply nth_repeat_lt.
    unfold len. lia.
Qed.

Lemma last_firstn (l : list Z) (k : nat) :
  (1 <= k <= length l)%nat -> last (firstn k l) 0 = nth (k - 1) l 0.
Proof.
  intros H. destruct k as [| k]; [lia |].
  rewrite (firstn_snoc l k 0) by lia. rewrite last_last.
  f_equal. lia.
Qed.

(** The query handed to the inner prover, extended by its last entry, is
    the whole folded row. *)
Lemma pad_query (lambda : Z) (f : list Table) (s_f n : Z) :
  1 <= s_f -> s_f + 1 <= n ->
  Forall (fun row => len row = s_f) f ->
  let foldedf := folded lambda (map (fun row => pad row n) f) n in
  pad (firstn (Z.to_nat (n - 1)) foldedf) n = foldedf.
Proof.
  intros Hs Hn Hf foldedf.
  assert (Lf : length foldedf = Z.to_nat n).
  { pose proof (len_folded lambda (map (fun row => pad row n) f) n) as H.
    unfold len in H. fold foldedf in H. lia. }
  unfold pad.
  replace (len (firstn (Z.to_nat (n - 1)) foldedf)) with (n - 1)
    by (unfold len; rewrite length_firstn; lia).
  replace (Z.to_nat (n - (n - 1))) with 1%nat by lia. cbn [repeat].
  rewrite last_firstn by lia.
  replace (nth (Z.to_nat (n - 1) - 1) foldedf 0)
    with (nth (Z.to_nat (n - 1)) foldedf 0).
  - rewrite <- (firstn_snoc foldedf (Z.to_nat (n - 1)) 0) by lia.
    apply firstn_all2. lia.
  - unfold foldedf. rewrite !nth_folded by lia.
    f_equal. f_equal. unfold column. rewrite !map_map.
    apply map_ext_in. intros row Hrow.
    rewrite Forall_forall in Hf. specialize (Hf row Hrow). cbn beta in Hf.
    assert (Hne : row <> []) by (intros ->; unfold len in Hf; cbn in Hf; lia).
    unfold len in Hf.
    rewrite !nth_pad_tail by (try assumption; lia). reflexivity.
Qed.

(** X11: if the commitment scheme is linear on the rows and the inner
    prover puts in its proof the commitment to its query, every proof
    that [ProveLookupTables] returns with a nil error, on rows of reduced
    field elements, passes the folded-commitment check of
    [VerifyLookupTables]: the verifier returns what [VerifyLookupVector]
    returns on the inner proof. *)
Theorem ProveLookupTables_complete (srs : SRS) (f t : list Table)
  (s_f s_t : Z) (proof : ProofLookupTables) :
  1 <= len f -> len f = len t ->
  Forall (fun row => len row = s_f) f ->
  Forall (fun row => len row = s_t) t ->
  1 <= s_f -> 1 <= s_t ->
  let nbColumns := NewDomain_Cardinality (Z.max (s_f + 1) s_t) in
  Forall (commits_to srs nbColumns) f ->
  0 < fr_Modulus -> Forall (Forall canonical) f ->
  linear_commitment srs nbColumns -> inner_commits_query srs ->
  run (ProveLookupTables srs f t) = Return (proof, None) ->
  folded_digest (ToBigIntRegular (challenge_of (fs proof))) (fs proof)
  = ProofLookupVector_f (foldedProof proof)
  /\ run (VerifyLookupTables srs proof)
     = Return (option_map ErrCollaborator
                 (VerifyLookupVector srs (foldedProof proof))).
Proof.
  intros Hn Hlen Hf Ht Hsf Hst nbColumns Hc Hq Hcan Hlin Hinner Hrun.
  pose proof (ProveLookupTables_run srs f t s_f s_t Hn Hlen Hf Ht Hsf Hst Hc)
    as R.
  cbv zeta in R. fold nbColumns in R.
  set (digests := map (commitment srs nbColumns) f) in *.
  set (lambda := challenge_of digests) in *.
  set (rows := map (fun row => pad row nbColumns) f) in *.
  set (foldedf := folded lambda rows nbColumns) in *.
  set (foldedt := folded lambda (map (fun row => pad row nbColumns) t)
                    nbColumns) in *.
  set (query := firstn (Z.to_nat (nbColumns - 1)) foldedf) in *.
  rewrite R in Hrun. injection Hrun as Hp He.
  destruct (ProveLookupVector srs query foldedt) as [pr e] eqn:Einner.
  cbn [fst snd] in Hp, He.
  destruct e as [e |]; [cbn [option_map] in He; discriminate He |].
  subst proof. cbn [fs foldedProof].
  assert (Htarget : 1 <= Z.max (s_f + 1) s_t) by lia.
  pose proof (Cardinality_spec _ Htarget) as (_ & Hge & _).
  fold nbColumns in Hge.
  assert (Hcols : s_f + 1 <= nbColumns) by lia.
  assert (Lq : len query + 1 = len foldedt).
  { unfold query, foldedt. rewrite len_folded by lia.
    unfold len. rewrite length_firstn.
    pose proof (len_folded lambda rows nbColumns ltac:(lia)) as H.
    fold foldedf in H. unfold len in H. lia. }
  assert (Efold : folded_digest (ToBigIntRegular lambda) digests
                  = ProofLookupVector_f pr).
  { rewrite (Hinner query foldedt pr Lq Einner).
    replace (len foldedt) with nbColumns
      by (unfold foldedt; rewrite len_folded; lia).
    rewrite <- (commitment_pad srs nbColumns query)
      by (unfold query, len; rewrite length_firstn; lia).
    unfold query, foldedf, rows.
    rewrite (pad_query lambda f s_f nbColumns Hsf Hcols Hf).
    fold rows.
    rewrite (commitment_folded srs nbColumns lambda rows Hq ltac:(lia) Hlin).
    - f_equal. unfold rows, digests. rewrite map_map.
      apply map_ext_in. intros row Hrow. symmetry. apply commitment_pad.
      rewrite Forall_forall in Hf. rewrite (Hf row Hrow). lia.
    - unfold rows. destruct f; [unfold len in Hn; cbn in Hn; lia | discriminate].
    - unfold rows. apply Forall_map. eapply Forall_impl; [| exact Hf].
      intros row Hr. cbn beta in *. apply len_pad. lia.
    - unfold rows. apply Forall_map.
      rewrite Forall_forall in *. intros row Hrow.
      specialize (Hcan row Hrow). specialize (Hf row Hrow). cbn beta in Hf.
      unfold pad. apply Forall_app. split; [exact Hcan |].
      apply Forall_forall. intros x Hx. apply repeat_spec in Hx. subst x.
      rewrite Forall_forall in Hcan. apply Hcan.
      destruct row as [| x0 row']; [unfold len in Hf; cbn in Hf; lia |].
      destruct (@exists_last _ (x0 :: row') ltac:(discriminate))
        as (l' & a & ->).
      rewrite last_last. apply in_or_app. right. now left. }
  split; [exact Efold |].
  rewrite VerifyLookupTables_run.
  - cbn [fs foldedProof]. fold lambda. rewrite Efold.
    rewrite (proj2 (G1_Equal_spec _ _) eq_refl). reflexivity.
  - cbn [fs]. unfold digests, len. rewrite length_map. exact Hn.
Qed.

Lemma firstn_In_ {A} (x : A) (n : nat) (l : list A) :
  In x (firstn n l) -> In x l.
Proof.
  intros H. rewrite <- (firstn_skipn n l). apply in_or_app. now left.
Qed.

(** *** A commitment that fails *)

Lemma rows_loop_fails (srs : SRS) (f t : list Table) (nbColumns : Z)
  (fi : Table) (fafter : list Table) (c : CollabError) :
  1 <= len fi <= nbColumns ->
  snd (kzg_Commit (coefficients fi nbColumns) srs) = Some c ->
  forall (fgood trest fdone tdone : list Table)
         (pd : list Digest) (ld td : list (list Z)),
    f = fdone ++ fgood ++ fi :: fafter -> t = tdone ++ trest ->
    len tdone = len fdone -> len pd = len fdone ->
    len ld = len fdone -> len td = len fdone ->
    length trest = length (fgood ++ fi :: fafter) ->
    Forall (fun row => 1 <= len row <= nbColumns) fgood ->
    Forall (fun row => 1 <= len row <= nbColumns) trest ->
    Forall (commits_to srs nbColumns) fgood ->
    let n := length (fgood ++ fi :: fafter) in
    run (rows_loop srs f t nbColumns n (len fdone)
           (pd ++ repeat Digest_zero n,
            (ld ++ repeat [] n, td ++ repeat [] n)))
    = Return (inl ({| fs := pd ++ map (commitment srs nbColumns) fgood
                             ++ fst (kzg_Commit (coefficients fi nbColumns) srs)
                             :: repeat Digest_zero (length fafter);
                      foldedProof := ProofLookupVector_zero |},
                   Some (ErrCollaborator c))).
Proof.
  intros Hfi Hfail.
  induction fgood as [| g fgood IH];
    intros trest fdone tdone pd ld td Hf Ht Htd Hpd Hld Htd' Hlen HF HT HC n.
  - subst n. cbn [app length rows_loop repeat map] in *.
    rewrite Hf, index_app. cbn [lift].
    rewrite (pad_row_returns fi nbColumns Hfi). cbn [lift].
    rewrite store_at by assumption. cbn [lift run answer].
    fold (coefficients fi nbColumns).
    rewrite store_at by assumption. cbn [lift].
    rewrite Hfail. reflexivity.
  - destruct trest as [| ti trest]; [discriminate |].
    subst n. cbn [app length] in Hlen |- *. injection Hlen as Hlen.
    inversion HF as [| ? ? Hg HF']; subst.
    inversion HT as [| ? ? Hti HT']; subst.
    inversion HC as [| ? ? Hcg HC']; subst.
    cbn [rows_loop repeat app].
    rewrite index_app. cbn [lift].
    rewrite (pad_row_returns g nbColumns Hg). cbn [lift].
    rewrite store_at by assumption. cbn [lift run answer].
    fold (coefficients g nbColumns).
    rewrite store_at by assumption. cbn [lift].
    unfold commits_to in Hcg. rewrite Hcg.
    rewrite index_at by assumption. cbn [lift].
    rewrite (pad_row_returns ti nbColumns Hti). cbn [lift].
    rewrite store_at by assumption. cbn [lift].
    replace (len fdone + 1) with (len (fdone ++ [g])) by apply len_snoc.
    set (m := length (fgood ++ fi :: fafter)).
    replace (pd ++ fst (kzg_Commit (coefficients g nbColumns) srs)
               :: repeat Digest_zero m)
      with ((pd ++ [commitment srs nbColumns g]) ++ repeat Digest_zero m)
      by (now rewrite <- app_assoc).
    replace (ld ++ pad g nbColumns :: repeat [] m)
      with ((ld ++ [pad g nbColumns]) ++ repeat [] m)
      by (now rewrite <- app_assoc).
    replace (td ++ pad ti nbColumns :: repeat [] m)
      with ((td ++ [pad ti nbColumns]) ++ repeat [] m)
      by (now rewrite <- app_assoc).
    rewrite (IH trest (fdone ++ [g]) (tdone ++ [ti]));
      try assumption; rewrite <- ?app_assoc; try reflexivity;
      rewrite ?len_snoc; try lia.
Qed.

Lemma split_nth {A} (l : list A) (i : nat) (d : A) :
  (i < length l)%nat -> l = firstn i l ++ nth i l d :: skipn (S i) l.
Proof.
  intros H. rewrite <- (firstn_skipn i l) at 1. f_equal.
  apply skipn_nth_cons. exact H.
Qed.

(** X12: when the commitment to row [i] of [f] fails (and those before
    it succeed), [ProveLookupTables] returns that error with a proof that
    holds the digests of rows [0 .. i], zero digests after them and the
    zero inner proof; the inner prover is not called. *)
Theorem ProveLookupTables_commit_fails (srs : SRS) (f t : list Table)
  (s_f s_t : Z) (i : nat) (c : CollabError) :
  len f = len t ->
  Forall (fun row => len row = s_f) f ->
  Forall (fun row => len row = s_t) t ->
  1 <= s_f -> 1 <= s_t -> (i < length f)%nat ->
  let nbColumns := NewDomain_Cardinality (Z.max (s_f + 1) s_t) in
  Forall (commits_to srs nbColumns) (firstn i f) ->
  snd (kzg_Commit (coefficients (nth i f []) nbColumns) srs) = Some c ->
  run (ProveLookupTables srs f t)
  = Return ({| fs := map (commitment srs nbColumns) (firstn (S i) f)
                     ++ repeat Digest_zero (length f - S i);
               foldedProof := ProofLookupVector_zero |},
            Some (ErrCollaborator c)).
Proof.
  intros Hlen Hf Ht Hsf Hst Hi nbColumns Hc Hfail.
  set (target := Z.max (s_f + 1) s_t) in *.
  assert (Htarget : 1 <= target) by (unfold target; lia).
  pose proof (Cardinality_spec target Htarget) as (_ & Hge & _).
  fold nbColumns in Hge.
  unfold ProveLookupTables.
  destruct (Z.eqb_spec (len f) (len t)) as [_ | Hne]; [| contradiction].
  cbn [negb].
  destruct f as [| f0 f']; [cbn in Hi; lia |].
  destruct t as [| t0 t']; [discriminate Hlen |].
  change (index (f0 :: f') 0) with (index ([] ++ f0 :: f') (len (@nil Table))).
  rewrite index_app. cbn [lift].
  assert (Hf0 : len f0 = s_f) by (now inversion Hf).
  rewrite Hf0, (size_differs_false _ _ Hf).
  change (index (t0 :: t') 0) with (index ([] ++ t0 :: t') (len (@nil Table))).
  rewrite index_app. cbn [lift].
  assert (Ht0 : len t0 = s_t) by (now inversion Ht).
  rewrite Ht0, (size_differs_false _ _ Ht).
  replace (if s_f + 1 <? s_t then s_t else s_f + 1) with target
    by (unfold target; destruct (Z.ltb_spec (s_f + 1) s_t); lia).
  fold nbColumns.
  set (F := f0 :: f') in *. set (T := t0 :: t') in *.
  pose proof (len_nonneg T) as Hnn.
  rewrite !make_ok by assumption. cbn [lift].
  rewrite run_pbind.
  pose proof (split_nth F i [] Hi) as EF.
  set (fi := nth i F []) in *.
  assert (Hfi : len fi = s_f).
  { rewrite Forall_forall in Hf. apply Hf. apply nth_In. exact Hi. }
  pose proof (rows_loop_fails srs F T nbColumns fi (skipn (S i) F) c
                ltac:(lia) Hfail (firstn i F) T [] [] [] [] []
                EF eq_refl eq_refl eq_refl eq_refl eq_refl) as Hloop.
  rewrite <- EF in Hloop. cbn [app] in Hloop.
  change (len (@nil Table)) with 0 in Hloop.
  replace (Z.to_nat (len T)) with (length F) by (unfold len in *; lia).
  rewrite Hloop; clear Hloop.
  - cbn [Go.bind run]. f_equal. f_equal. f_equal.
    rewrite (firstn_snoc F i []) by exact Hi.
    rewrite map_app, <- app_assoc. cbn [map app]. fold fi.
    rewrite length_skipn. reflexivity.
  - unfold len in *. lia.
  - apply Forall_forall. intros row Hrow. apply firstn_In_ in Hrow.
    rewrite Forall_forall in Hf. rewrite (Hf row Hrow). lia.
  - eapply Forall_impl; [| exact Ht]. intros row Hr. cbn beta in *. lia.
  - exact Hc.
Qed.

(** *** A column repeated *)

Lemma pad_repeat_last (row : Table) (n : Z) :
  row <> [] -> len row + 1 <= n -> pad (repeat_last row) n = pad row n.
Proof.
  intros Hne Hn. unfold pad, repeat_last.
  rewrite last_last, len_app. change (len [last row 0]) with 1.
  rewrite <- app_assoc. f_equal. cbn [app].
  replace (Z.to_nat (n - len row)) with (S (Z.to_nat (n - (len row + 1))))
    by lia.
  reflexivity.
Qed.

Lemma Cardinality_same (m m' : Z) :
  1 <= m <= m' -> m' <= NewDomain_Cardinality m ->
  NewDomain_Cardinality m' = NewDomain_Cardinality m.
Proof.
  intros Hm Hle.
  destruct (Cardinality_spec m ltac:(lia)) as ((e & He & Ee) & Hge & Hmin).
  destruct (Cardinality_spec m' ltac:(lia)) as ((e' & He' & Ee') & Hge' & Hmin').
  apply Z.le_antisymm.
  - rewrite Ee. apply Hmin'; [exact He | rewrite <- Ee; exact Hle].
  - rewrite Ee'. apply Hmin; [exact He' | rewrite <- Ee'; lia].
Qed.

(** X13: when the domain has room for it ([s_f + 2 <= nbColumns]),
    writing the last entry of every row of [f] once more does not change
    what [ProveLookupTables] returns. *)
Theorem ProveLookupTables_repeated_column (srs : SRS) (f t : list Table)
  (s_f s_t : Z) :
  1 <= len f -> len f = len t ->
  Forall (fun row => len row = s_f) f ->
  Forall (fun row => len row = s_t) t ->
  1 <= s_f -> 1 <= s_t ->
  let nbColumns := NewDomain_Cardinality (Z.max (s_f + 1) s_t) in
  Forall (commits_to srs nbColumns) f ->
  s_f + 2 <= nbColumns ->
  exists res,
    run (ProveLookupTables srs f t) = Return res
    /\ run (ProveLookupTables srs (map repeat_last f) t) = Return res.
Proof.
  intros Hn Hlen Hf Ht Hsf Hst nbColumns Hc Hroom.
  pose proof (ProveLookupTables_run srs f t s_f s_t Hn Hlen Hf Ht Hsf Hst Hc)
    as R.
  cbv zeta in R. fold nbColumns in R.
  assert (En : NewDomain_Cardinality (Z.max (s_f + 1 + 1) s_t) = nbColumns).
  { apply Cardinality_same; [lia |]. fold nbColumns.
    pose proof (Cardinality_spec (Z.max (s_f + 1) s_t) ltac:(lia))
      as (_ & Hge & _). fold nbColumns in Hge. lia. }
  assert (Hpad : forall row, In row f ->
                   pad (repeat_last row) nbColumns = pad row nbColumns).
  { intros row Hrow. rewrite Forall_forall in Hf. specialize (Hf row Hrow).
    cbn beta in Hf. apply pad_repeat_last; [| lia].
    intros ->. unfold len in Hf. cbn in Hf. lia. }
  assert (Hf' : Forall (fun row => len row = s_f + 1) (map repeat_last f)).
  { apply Forall_map. eapply Forall_impl; [| exact Hf].
    intros row Hr. cbn beta in *. unfold repeat_last. rewrite len_snoc. lia. }
  assert (Hc' : Forall (commits_to srs nbColumns) (map repeat_last f)).
  { apply Forall_map. rewrite Forall_forall in *. intros row Hrow.
    specialize (Hc row Hrow). unfold commits_to, coefficients in *.
    rewrite (Hpad row Hrow). exact Hc. }
  pose proof (ProveLookupTables_run srs (map repeat_last f) t (s_f + 1) s_t)
    as R'.
  cbv zeta in R'. rewrite En in R'.
  specialize (R' ltac:(unfold len in *; rewrite length_map; lia)
                 ltac:(unfold len in *; rewrite length_map; lia)
                 Hf' Ht ltac:(lia) Hst Hc').
  rewrite !map_map in R'.
  rewrite (map_ext_in (fun x => commitment srs nbColumns (repeat_last x))
             (commitment srs nbColumns)) in R'.
  2: { intros row Hrow. unfold commitment, coefficients.
       rewrite (Hpad row Hrow). reflexivity. }
  rewrite (map_ext_in (fun x => pad (repeat_last x) nbColumns)
             (fun row => pad row nbColumns) f Hpad) in R'.
  eexists. split; [exact R | exact R'].
Qed.

(** *** Rows of [t] of length zero *)

Lemma commits_pbind {A B} (p : prog A) (k : A -> prog B) :
  commits (pbind p k)
  = (commits p + match run p with
                 | Return a => commits (k a)
                 | Panic _ => 0
                 end)%nat.
Proof.
  induction p as [a | e | X c h IH]; cbn [pbind commits run];
    [reflexivity | reflexivity |].
  rewrite IH. lia.
Qed.

Lemma store_head {A} (x v : A) (l : list A) :
  store (x :: l) 0 v = Return (v :: l).
Proof. reflexivity. Qed.

Lemma index_head {A} (x : A) (l : list A) : index (x :: l) 0 = Return x.
Proof. reflexivity. Qed.

(** X14: on rows of [t] of length zero (and rows of [f] that are not
    empty), when the commitment to the first row of [f] succeeds,
    [ProveLookupTables] panics on an index out of range, after exactly
    one call to [kzg.Commit]. *)
Theorem ProveLookupTables_empty_table_rows (srs : SRS) (f t : list Table)
  (s_f : Z) :
  1 <= len f -> len f = len t ->
  Forall (fun row => len row = s_f) f ->
  Forall (fun row => len row = 0) t ->
  1 <= s_f ->
  let nbColumns := NewDomain_Cardinality (s_f + 1) in
  commits_to srs nbColumns (hd [] f) ->
  run (ProveLookupTables srs f t) = Panic IndexOutOfRange
  /\ commits (ProveLookupTables srs f t) = 1%nat.
Proof.
  intros Hn Hlen Hf Ht Hsf nbColumns Hc.
  pose proof (Cardinality_spec (s_f + 1) ltac:(lia)) as (_ & Hge & _).
  fold nbColumns in Hge.
  unfold ProveLookupTables.
  destruct (Z.eqb_spec (len f) (len t)) as [_ | Hne]; [| contradiction].
  cbn [negb].
  destruct f as [| f0 f']; [unfold len in Hn; simpl in Hn; lia |].
  destruct t as [| t0 t']; [discriminate Hlen |].
  change (index (f0 :: f') 0) with (index ([] ++ f0 :: f') (len (@nil Table))).
  rewrite index_app. cbn [lift].
  assert (Hf0 : len f0 = s_f) by (now inversion Hf).
  rewrite Hf0, (size_differs_false _ _ Hf).
  change (index (t0 :: t') 0) with (index ([] ++ t0 :: t') (len (@nil Table))).
  rewrite index_app. cbn [lift].
  assert (Ht0 : len t0 = 0) by (now inversion Ht).
  rewrite Ht0, (size_differs_false _ _ Ht).
  replace (if s_f + 1 <? 0 then 0 else s_f + 1) with (s_f + 1)
    by (destruct (Z.ltb_spec (s_f + 1) 0); lia).
  fold nbColumns.
  pose proof (len_nonneg (t0 :: t')) as Hnn.
  rewrite !make_ok by assumption. cbn [lift].
  rewrite run_pbind, commits_pbind.
  destruct (Z.to_nat (len (t0 :: t'))) as [| n] eqn:En;
    [unfold len in *; simpl in *; lia |].
  cbn [rows_loop repeat].
  rewrite index_head. cbn [lift].
  rewrite (pad_row_returns f0 nbColumns) by lia. cbn [lift].
  rewrite store_head. cbn [lift run answer commits].
  fold (coefficients f0 nbColumns).
  rewrite store_head. cbn [lift].
  cbn [hd] in Hc. unfold commits_to in Hc. rewrite Hc.
  rewrite index_head. cbn [lift].
  assert (Et0 : t0 = []).
  { destruct t0; [reflexivity | unfold len in Ht0; simpl in Ht0; lia]. }
  rewrite Et0, pad_row_empty by lia.
  split; reflexivity.
Qed.

End More.

(** *** The toy collaborator meets the hypotheses *)

#[local] Existing Instances eqm_setoid Zplus_eqm Zmult_eqm.

Lemma toy_eval_cons (x c : Z) (p : list Z) :
  toy_eval x (c :: p) = (c + x * toy_eval x p) mod 97.
Proof. reflexivity. Qed.

Lemma toy_eval_axpy (x lambda : Z) (a b : list Z) :
  length a = length b ->
  toy_eval x (axpy (C := toy) lambda a b)
  = (lambda * toy_eval x a + toy_eval x b) mod 97.
Proof.
  revert b. induction a as [| a0 a IH]; intros [| b0 b] L;
    try discriminate L.
  { unfold axpy. cbn [combine map toy_eval fold_right].
    rewrite Z.mul_0_r. reflexivity. }
  injection L as L.
  change (axpy (C := toy) lambda (a0 :: a) (b0 :: b))
    with (Add (Mul a0 lambda) b0 :: axpy (C := toy) lambda a b).
  rewrite !toy_eval_cons, (IH b L).
  unfold Add, Mul, Fr.Add, Fr.Mul. cbn [fr_Modulus toy].
  change (eqm 97
            (((a0 * lambda) mod 97 + b0) mod 97
             + x * ((lambda * toy_eval x a + toy_eval x b) mod 97))
            (lambda * ((a0 + x * toy_eval x a) mod 97)
             + (b0 + x * toy_eval x b) mod 97)).
  repeat setoid_rewrite (Zmod_eqm 97). unfold eqm.
  apply (f_equal (fun z => z mod 97)). ring.
Qed.

Lemma toy_linear (n : Z) : linear_commitment (C := toy) tt n.
Proof.
  intros lambda a b La Lb _ _.
  assert (Lab : length a = length b) by (unfold len in *; lia).
  assert (Lx : len (axpy (C := toy) lambda a b) = n).
  { unfold len. rewrite length_axpy by exact Lab. exact La. }
  unfold commitment, coefficients. cbn [kzg_Commit fft_BitReverse fft_FFTInverse toy fst].
  unfold pad. rewrite Lx, La, Lb, Z.sub_diag. cbn [Z.to_nat repeat].
  rewrite !app_nil_r. unfold toy_commit.
  cbn [G1_Add G1_ScalarMultiplication toy X Y]. unfold ToBigIntRegular.
  rewrite !toy_eval_axpy by exact Lab.
  f_equal; rewrite Zplus_mod_idemp_l; reflexivity.
Qed.

Lemma toy_inner : inner_commits_query (C := toy) tt.
Proof.
  intros q t pr L E. cbn [ProveLookupVector toy] in E.
  injection E as <-. cbn [ProofLookupVector_f toy fst].
  unfold commitment, coefficients. cbn [kzg_Commit fft_BitReverse fft_FFTInverse toy fst].
  unfold pad. replace (len t - len q) with 1 by lia. reflexivity.
Qed.

Ltac each_row :=
  repeat (first [apply Forall_nil | apply Forall_cons]);
  try reflexivity; try (unfold canonical; cbn; lia).

Lemma xor_proved :
  run (ProveLookupTables (C := toy) tt xor_f xor_t) = Return (xor_proof, None).
Proof. vm_compute. reflexivity. Qed.

Lemma ProveLookupTables_complete_witness :
  Forall (Forall (canonical (C := toy))) xor_f
  /\ linear_commitment (C := toy) tt
       (NewDomain_Cardinality (Z.max (3 + 1) 4))
  /\ inner_commits_query (C := toy) tt
  /\ run (ProveLookupTables (C := toy) tt xor_f xor_t)
     = Return (xor_proof, None)
  /\ folded_digest (C := toy)
       (ToBigIntRegular (challenge_of (C := toy) (fs xor_proof)))
       (fs xor_proof)
     = ProofLookupVector_f (foldedProof xor_proof)
  /\ run (VerifyLookupTables (C := toy) tt xor_proof)
     = Return (option_map ErrCollaborator
                 (VerifyLookupVector (Collaborators := toy) tt
                    (foldedProof xor_proof))).
Proof.
  assert (Hcan : Forall (Forall (canonical (C := toy))) xor_f) by each_row.
  refine (conj Hcan (conj (toy_linear _) (conj toy_inner (conj xor_proved _)))).
  refine (ProveLookupTables_complete (C := toy) tt xor_f xor_t 3 4 xor_proof
            _ _ _ _ _ _ _ _ Hcan (toy_linear _) toy_inner xor_proved);
    try (vm_compute; congruence); each_row.
Defined.

Lemma ProveLookupTables_commit_fails_witness :
  (0 < length xor_f)%nat
  /\ snd (kzg_Commit (Collaborators := bounded)
            (coefficients (C := bounded) (nth 0 xor_f [])
               (NewDomain_Cardinality (Z.max (3 + 1) 4))) 2)
     = Some tt
  /\ run (ProveLookupTables (C := bounded) 2 xor_f xor_t)
     = Return ({| fs := map (commitment (C := bounded) 2
                          (NewDomain_Cardinality (Z.max (3 + 1) 4)))
                      (firstn 1 xor_f)
                    ++ repeat Digest_zero (length xor_f - 1);
                  foldedProof := ProofLookupVector_zero |},
               Some (ErrCollaborator tt)).
Proof.
  assert (Hi : (0 < length xor_f)%nat) by (cbn; lia).
  assert (Hfail : snd (kzg_Commit (Collaborators := bounded)
                         (coefficients (C := bounded) (nth 0 xor_f [])
                            (NewDomain_Cardinality (Z.max (3 + 1) 4))) 2)
                  = Some tt) by (vm_compute; reflexivity).
  refine (conj Hi (conj Hfail _)).
  refine (ProveLookupTables_commit_fails (C := bounded) 2 xor_f xor_t 3 4 0 tt
            _ _ _ _ _ Hi _ Hfail);
    try (vm_compute; congruence); each_row.
Defined.

Lemma ProveLookupTables_repeated_column_witness :
  2 + 2 <= NewDomain_Cardinality (Z.max (2 + 1) 4)
  /\ map repeat_last xor_f2 = [[1; 0; 0]; [0; 1; 1]; [1; 1; 1]]
  /\ exists res,
      run (ProveLookupTables (C := toy) tt xor_f2 xor_t) = Return res
      /\ run (ProveLookupTables (C := toy) tt (map repeat_last xor_f2) xor_t)
         = Return res.
Proof.
  assert (Hroom : 2 + 2 <= NewDomain_Cardinality (Z.max (2 + 1) 4))
    by (vm_compute; congruence).
  split; [exact Hroom |]. split; [reflexivity |].
  refine (ProveLookupTables_repeated_column (C := toy) tt xor_f2 xor_t 2 4
            _ _ _ _ _ _ _ Hroom);
    try (vm_compute; congruence); each_row.
Defined.

Lemma ProveLookupTables_empty_table_rows_witness :
  commits_to (C := toy) tt (NewDomain_Cardinality (1 + 1)) (hd [] [[5]])
  /\ run (ProveLookupTables (C := toy) tt [[5]] [[]]) = Panic IndexOutOfRange
  /\ commits (ProveLookupTables (C := toy) tt [[5]] [[]]) = 1%nat.
Proof.
  assert (Hc : commits_to (C := toy) tt (NewDomain_Cardinality (1 + 1))
                 (hd [] [[5]])) by reflexivity.
  split; [exact Hc |].
  refine (ProveLookupTables_empty_table_rows (C := toy) tt [[5]] [[]] 1
            _ _ _ _ _ Hc);
    try (vm_compute; congruence); each_row.
Defined.

End TablesFacts.

(** ** The points of the curve *)

Module PointFacts.

Import Stdlib.QArith.QArith Stdlib.QArith.Qcanon.
Local Open Scope Z_scope.
Import Point GoFacts.
Local Open Scope exec_scope.

Section Facts.

Context {F : Type} {C : Coord F}.

Hypothesis coordinates : is_field C.

Let field_laws : field_theory zero one Add Mul Sub Neg Div Inverse eq :=
  proj1 coordinates.

Add Field coord_field : field_laws.

(** *** The coordinate field *)

Lemma Equal_spec (x y : F) : Equal x y = true <-> x = y.
Proof. exact (proj2 coordinates x y). Qed.

Lemma Equal_false (x y : F) : Equal x y = false <-> x <> y.
Proof.
  split.
  - intros H E. apply Equal_spec in E. congruence.
  - intros H. destruct (Equal x y) eqn:E; [| reflexivity].
    apply Equal_spec in E. contradiction.
Qed.

Lemma Equal_refl (x : F) : Equal x x = true.
Proof. apply Equal_spec. reflexivity. Qed.

Lemma IsZero_true (x : F) : IsZero x = true <-> x = zero.
Proof. apply Equal_spec. Qed.

Lemma IsZero_false (x : F) : IsZero x = false <-> x <> zero.
Proof. apply Equal_false. Qed.

Lemma one_neq_zero : one <> zero.
Proof. exact (F_1_neq_0 field_laws). Qed.

Lemma Inverse_one : Inverse one = one.
Proof. field. exact one_neq_zero. Qed.

Lemma Mul_nonzero (x y : F) : x <> zero -> y <> zero -> Mul x y <> zero.
Proof.
  intros Hx Hy E.
  apply Hx.
  transitivity (Mul (Mul x y) (Inverse y)); [field; exact Hy |].
  rewrite E. ring.
Qed.

Lemma Sub_nonzero (x y : F) : x <> y -> Sub x y <> zero.
Proof.
  intros H E. apply H.
  transitivity (Add (Sub x y) y); [ring |]. rewrite E. ring.
Qed.

Lemma Mul_cancel_r (x y z : F) : z <> zero -> Mul x z = Mul y z -> x = y.
Proof.
  intros Hz E.
  transitivity (Mul (Mul x z) (Inverse z)); [field; exact Hz |].
  rewrite E. field. exact Hz.
Qed.

Lemma Neg_zero_inv (y : F) : y = Neg y -> Add y y = zero.
Proof. intros E. rewrite E at 1. ring. Qed.

Lemma Neg_one_nonzero : Neg one <> zero.
Proof.
  intros E. apply one_neq_zero.
  transitivity (Neg (Neg one)); [ring | rewrite E; ring].
Qed.

Lemma Equal_ext (x y x' y' : F) :
  x = x' -> y = y' -> Equal x y = Equal x' y'.
Proof. intros -> ->. reflexivity. Qed.

Ltac is_zero_false H :=
  let E := fresh "E" in
  pose proof H as E; apply IsZero_false in E; rewrite E; clear E.

Lemma Jac_Equal_refl (p : Jac) : Jac_Equal p p = true.
Proof.
  unfold Jac_Equal. destruct (IsZero (JZ p) && IsZero (JZ p)); [reflexivity |].
  rewrite !Equal_refl. reflexivity.
Qed.

(** *** The formulas of addition and doubling *)

(** The sum of two points of distinct abscissas, in the plane [z = 1]. *)
Lemma AddAssign_generic (p a : Jac) :
  two <> zero ->
  JZ p <> zero -> JZ a <> zero ->
  X (FromJacobian p) <> X (FromJacobian a) ->
  JZ (AddAssign p a) <> zero
  /\ FromJacobian (AddAssign p a) = chord (FromJacobian p) (FromJacobian a).
Proof.
  intros H2 Hp Ha Hx.
  destruct p as [x1 y1 z1], a as [x2 y2 z2]. cbn [JX JY JZ] in *.
  unfold FromJacobian in Hx. cbn [JX JY JZ] in Hx.
  rewrite (proj2 (IsZero_false _) Hp), (proj2 (IsZero_false _) Ha) in Hx.
  cbn [X Y] in Hx. unfold Square in Hx.
  assert (HU : Mul x2 (Mul z1 z1) <> Mul x1 (Mul z2 z2)).
  { intros E. apply Hx.
    transitivity (Mul (Mul x1 (Mul z2 z2))
                    (Mul (Mul (Inverse z1) (Inverse z1))
                       (Mul (Inverse z2) (Inverse z2)))).
    - field. split; assumption.
    - rewrite <- E. field. split; assumption. }
  unfold AddAssign. cbn [JX JY JZ].
  is_zero_false Hp. is_zero_false Ha.
  unfold Square, Double.
  rewrite (proj2 (Equal_false _ _) HU). cbn [andb].
  set (H := Sub (Mul x1 (Mul z2 z2)) (Mul x2 (Mul z1 z1))).
  assert (HH : H <> zero) by (apply Sub_nonzero; congruence).
  set (Z3 := Mul (Sub (Sub (Mul (Add z1 z2) (Add z1 z2)) (Mul z2 z2))
                    (Mul z1 z1)) H).
  assert (HZ0 : Sub (Sub (Mul (Add z1 z2) (Add z1 z2)) (Mul z2 z2)) (Mul z1 z1)
                <> zero).
  { replace (Sub (Sub (Mul (Add z1 z2) (Add z1 z2)) (Mul z2 z2)) (Mul z1 z1))
      with (Mul two (Mul z1 z2)) by (unfold two; ring).
    repeat apply Mul_nonzero; assumption. }
  assert (HZ : Z3 <> zero) by (apply Mul_nonzero; assumption).
  cbn [JZ]. split; [exact HZ |].
  unfold FromJacobian at 1. cbn [JX JY JZ].
  is_zero_false HZ.
  unfold chord, FromJacobian. cbn [JX JY JZ].
  is_zero_false Hp. is_zero_false Ha. cbn [X Y].
  assert (HX : Sub (Mul x2 (Mul (Inverse z2) (Inverse z2)))
                 (Mul x1 (Mul (Inverse z1) (Inverse z1))) <> zero).
  { apply Sub_nonzero. congruence. }
  assert (HX' : Sub (Mul x2 (Mul z1 z1)) (Mul x1 (Mul z2 z2)) <> zero).
  { apply Sub_nonzero. exact HU. }
  unfold Div, Square, Double, two in *. subst Z3 H.
  f_equal; field; repeat split; assumption.
Qed.

(** The double of a point of non-zero ordinate, in the plane [z = 1]. *)
Lemma DoubleAssign_generic (p : Jac) :
  two <> zero ->
  JZ p <> zero -> JY p <> zero ->
  JZ (DoubleAssign p) <> zero
  /\ FromJacobian (DoubleAssign p) = tangent (FromJacobian p).
Proof.
  intros H2 Hz Hy.
  destruct p as [x y z]. cbn [JX JY JZ] in *.
  unfold DoubleAssign. cbn [JX JY JZ]. unfold Square, Double.
  set (Z3 := Sub (Sub (Mul (Add z y) (Add z y)) (Mul y y)) (Mul z z)).
  assert (HZ : Z3 <> zero).
  { subst Z3.
    replace (Sub (Sub (Mul (Add z y) (Add z y)) (Mul y y)) (Mul z z))
      with (Mul two (Mul z y)) by (unfold two; ring).
    repeat apply Mul_nonzero; assumption. }
  split; [exact HZ |].
  unfold FromJacobian at 1. cbn [JX JY JZ].
  is_zero_false HZ.
  unfold tangent, FromJacobian. cbn [JX JY JZ].
  is_zero_false Hz. cbn [X Y].
  assert (Hyz : Mul (Mul y (Mul (Inverse z) (Inverse z))) (Inverse z) <> zero).
  { repeat apply Mul_nonzero; try assumption.
    all: intros E; apply one_neq_zero;
      transitivity (Mul (Inverse z) z); [symmetry; field; assumption |];
      rewrite E; ring. }
  unfold Div, Square, Double, three, two in *. subst Z3.
  f_equal; field; repeat split; assumption.
Qed.

(** Coordinates scaled by [l] are coordinates of the same point. *)
Lemma rescale_same (l : F) (p : Jac) :
  l <> zero ->
  FromJacobian (rescale l p) = FromJacobian p
  /\ Jac_Equal p (rescale l p) = true.
Proof.
  intros Hl.
  assert (E : FromJacobian (rescale l p) = FromJacobian p).
  { destruct p as [x y z]. unfold rescale, FromJacobian. cbn [JX JY JZ].
    destruct (IsZero z) eqn:Ez.
    - apply IsZero_true in Ez. subst z.
      replace (IsZero (Mul l zero)) with true
        by (symmetry; apply IsZero_true; ring).
      reflexivity.
    - apply IsZero_false in Ez.
      rewrite (proj2 (IsZero_false _) (Mul_nonzero _ _ Hl Ez)).
      unfold Square. f_equal; field; split; assumption. }
  split; [exact E |].
  unfold Jac_Equal. rewrite E.
  destruct (IsZero (JZ p) && IsZero (JZ (rescale l p))); [reflexivity |].
  apply andb_true_iff. split; apply Equal_spec; reflexivity.
Qed.

(** *** The curve equation *)

(** [IsOnCurve] is the curve equation of the affine form. *)
Lemma IsOnCurve_iff (p : Jac) :
  JZ p <> zero ->
  (Jac_IsOnCurve p = true <-> on_curve (FromJacobian p)).
Proof.
  intros Hz. destruct p as [x y z]. cbn [JZ] in Hz.
  unfold Jac_IsOnCurve, on_curve, FromJacobian. cbn [JX JY JZ].
  is_zero_false Hz. cbn [X Y]. unfold Square.
  rewrite Equal_spec.
  set (z6 := Mul (Mul (Mul z z) (Mul z z)) (Mul z z)).
  assert (H6 : z6 <> zero) by (repeat apply Mul_nonzero; assumption).
  split; intros E.
  - apply (Mul_cancel_r _ _ z6 H6).
    transitivity (Mul y y); [subst z6; field; exact Hz |].
    rewrite E. subst z6. field. exact Hz.
  - transitivity
      (Mul (Mul (Mul (Mul y (Mul (Inverse z) (Inverse z))) (Inverse z))
              (Mul (Mul y (Mul (Inverse z) (Inverse z))) (Inverse z))) z6);
      [subst z6; field; exact Hz |].
    rewrite E. subst z6. field. exact Hz.
Qed.

(** The chord through two points of the curve meets the curve. *)
Lemma chord_on_curve (P Q : Affine) :
  X P <> X Q -> on_curve P -> on_curve Q -> on_curve (chord P Q).
Proof.
  destruct P as [x1 y1], Q as [x2 y2]. unfold on_curve, chord.
  cbn [X Y]. intros Hx E1 E2.
  assert (Hd : Sub x2 x1 <> zero) by (apply Sub_nonzero; congruence).
  set (R1 := Sub (Add (Mul (Square x1) x1) bCurveCoeff) (Square y1)).
  set (R2 := Sub (Add (Mul (Square x2) x2) bCurveCoeff) (Square y2)).
  assert (Z1 : R1 = zero) by (subst R1; rewrite E1; ring).
  assert (Z2 : R2 = zero) by (subst R2; rewrite E2; ring).
  set (l := Div (Sub y2 y1) (Sub x2 x1)).
  set (x3 := Sub (Sub (Square l) x1) x2).
  set (y3 := Sub (Mul l (Sub x1 x3)) y1).
  assert (K : Sub (Add (Mul (Square x3) x3) bCurveCoeff) (Square y3)
              = Add R1 (Mul (Sub x3 x1) (Div (Sub R2 R1) (Sub x2 x1)))).
  { subst y3 x3 l R1 R2. unfold Div, Square. field. exact Hd. }
  rewrite Z1, Z2 in K.
  transitivity (Sub (Add (Mul (Square x3) x3) bCurveCoeff)
                  (Sub (Add (Mul (Square x3) x3) bCurveCoeff) (Square y3)));
    [ring |].
  rewrite K. unfold Div. ring.
Qed.

Lemma DoubleAssign_on_curve (p : Jac) :
  Jac_IsOnCurve p = true -> Jac_IsOnCurve (DoubleAssign p) = true.
Proof.
  destruct p as [x y z]. unfold Jac_IsOnCurve, DoubleAssign.
  cbn [JX JY JZ]. rewrite !Equal_spec. unfold Square, Double. intros E.
  set (bz := Mul (Mul (Mul (Mul (Mul z z) (Mul z z)) z) z) bCurveCoeff) in *.
  assert (Eb : bz = Sub (Mul y y) (Mul (Mul x x) x)) by (rewrite E; ring).
  set (y2 := Mul y y).
  match goal with
  | |- ?lhs = Add ?cube (Mul (Mul (Mul (Mul (Mul ?Z ?Z) _) _) _) _) =>
      transitivity
        (Add cube
           (Mul (Mul (Mul (Mul two two) (Mul two two)) (Mul two two))
              (Mul (Mul (Mul y2 y2) y2) bz)))
  end.
  - rewrite Eb. subst y2. unfold two. ring.
  - subst bz y2. unfold two. ring.
Qed.

Lemma Double_char2 (x : F) : two = zero -> Add x x = zero.
Proof.
  intros H. transitivity (Mul two x); [unfold two; ring |]. rewrite H. ring.
Qed.

(** The sum of two points of the curve, in every branch of [AddAssign]:
    equal points are doubled; opposite points give [Z = 0]; where
    [2 = 0] the formulas give [Z = 0] as well. *)
Lemma AddAssign_on_curve (p a : Jac) :
  Jac_IsOnCurve p = true -> Jac_IsOnCurve a = true ->
  Jac_IsOnCurve (AddAssign p a) = true.
Proof.
  intros Hp Ha. unfold AddAssign.
  destruct (IsZero (JZ p)) eqn:Zp; [exact Ha |].
  destruct (IsZero (JZ a)) eqn:Za; [exact Hp |].
  apply IsZero_false in Zp, Za.
  destruct (Equal (Mul (JX a) (Square (JZ p))) (Mul (JX p) (Square (JZ a)))
            && Equal (Mul (Mul (JY a) (JZ p)) (Square (JZ p)))
                 (Mul (Mul (JY p) (JZ a)) (Square (JZ a)))) eqn:Esame;
    [apply DoubleAssign_on_curve; exact Hp |].
  destruct (Equal (Mul (JX a) (Square (JZ p))) (Mul (JX p) (Square (JZ a))))
    eqn:EU.
  - (* opposite points: the sum is at infinity *)
    apply Equal_spec in EU. unfold Jac_IsOnCurve. cbn [JX JY JZ].
    apply Equal_spec. rewrite <- EU. unfold Square, Double. ring.
  - pose proof EU as EU'. apply Equal_false in EU.
    destruct (Equal two zero) eqn:E2.
    + apply Equal_spec in E2. unfold Jac_IsOnCurve. cbn [JX JY JZ].
      apply Equal_spec. unfold Square, Double.
      rewrite !(Double_char2 _ E2).
      match goal with
      | |- context [Sub (Sub (Mul (Add ?u ?v) (Add ?u ?v)) (Mul ?v ?v))
                      (Mul ?u ?u)] =>
          replace (Sub (Sub (Mul (Add u v) (Add u v)) (Mul v v)) (Mul u u))
            with zero
            by (symmetry; transitivity (Add (Mul u v) (Mul u v));
                [ring | apply Double_char2; exact E2])
      end.
      ring.
    + apply Equal_false in E2.
      assert (Hx : X (FromJacobian p) <> X (FromJacobian a)).
      { unfold FromJacobian.
        rewrite (proj2 (IsZero_false _) Zp), (proj2 (IsZero_false _) Za).
        cbn [X]. intros E. apply EU. unfold Square in *.
        transitivity (Mul (Mul (JX a) (Mul (Inverse (JZ a)) (Inverse (JZ a))))
                        (Mul (Mul (JZ p) (JZ p)) (Mul (JZ a) (JZ a))));
          [field; exact Za |].
        rewrite <- E. field. exact Zp. }
      destruct (AddAssign_generic p a E2 Zp Za Hx) as (HZ & HE).
      unfold AddAssign in HZ, HE.
      rewrite (proj2 (IsZero_false _) Zp), (proj2 (IsZero_false _) Za) in HZ, HE.
      rewrite EU' in HZ, HE. cbn [andb] in HZ, HE.
      apply (IsOnCurve_iff _ HZ). rewrite HE.
      apply chord_on_curve; [exact Hx | |].
      * apply (IsOnCurve_iff _ Zp). exact Hp.
      * apply (IsOnCurve_iff _ Za). exact Ha.
Qed.

(** *** Batch conversion *)

Lemma prod_Z_nonzero (ps : list Jac) (a : F) : a <> zero -> prod_Z a ps <> zero.
Proof.
  revert a. induction ps as [| p ps IH]; intros a Ha; [exact Ha |].
  unfold prod_Z. cbn [fold_left]. fold (prod_Z (if IsZero (JZ p) then a else Mul a (JZ p)) ps).
  apply IH. destruct (IsZero (JZ p)) eqn:E; [exact Ha |].
  apply Mul_nonzero; [exact Ha | apply IsZero_false; exact E].
Qed.

Lemma prod_Z_app (a : F) (ps qs : list Jac) :
  prod_Z a (ps ++ qs) = prod_Z (prod_Z a ps) qs.
Proof. unfold prod_Z. apply fold_left_app. Qed.

Lemma length_partials (a : F) (ps : list Jac) (rs : list Affine) :
  length (partials a ps rs) = length rs.
Proof.
  revert a rs. induction ps as [| p ps IH]; intros a [| r rs]; cbn; try reflexivity.
  destruct (IsZero (JZ p)); cbn; rewrite IH; reflexivity.
Qed.

Lemma length_inverses (ps : list Jac) (rs : list Affine) :
  length (inverses ps rs) = length rs.
Proof.
  revert rs. induction ps as [| p ps IH]; intros [| r rs]; cbn; try reflexivity.
  rewrite IH. reflexivity.
Qed.

Lemma partials_app (a : F) (ps qs : list Jac) (rs ss : list Affine) :
  length rs = length ps ->
  partials a (ps ++ qs) (rs ++ ss)
  = partials a ps rs ++ partials (prod_Z a ps) qs ss.
Proof.
  revert a rs. induction ps as [| p ps IH]; intros a [| r rs] L;
    try discriminate L.
  - destruct qs; reflexivity.
  - cbn [app partials]. injection L as L. unfold prod_Z. cbn [fold_left].
    destruct (IsZero (JZ p)); cbn [app]; f_equal; apply IH; exact L.
Qed.

Lemma inverses_app (ps qs : list Jac) (rs ss : list Affine) :
  length rs = length ps ->
  inverses (ps ++ qs) (rs ++ ss) = inverses ps rs ++ inverses qs ss.
Proof.
  revert rs. induction ps as [| p ps IH]; intros [| r rs] L;
    try discriminate L.
  - destruct qs; reflexivity.
  - cbn [app inverses]. injection L as L. f_equal. apply IH. exact L.
Qed.

Lemma len_snoc' {A} (l : list A) (x : A) : len (l ++ [x]) = len l + 1.
Proof. rewrite len_app. reflexivity. Qed.

(** The first loop marks the points at infinity and leaves in
    [result[i].X] the product of the [Z] before [i]. *)
Lemma first_loop (points : list Jac) :
  forall (pr pd : list Jac) (zd : list bool) (rd rr : list Affine) (acc : F),
    points = pd ++ pr -> len zd = len pd -> len rd = len pd ->
    (length pr <= length rr)%nat ->
    for_loop (length pr) (len pd)
      (fun i s =>
         let '(zeroes, result, accumulator) := s in
         pi <- index points i ;;
         if IsZero (JZ pi) then
           zeroes <- store zeroes i true ;;
           Return (zeroes, result, accumulator)
         else
           ri <- index result i ;;
           result <- store result i {| X := accumulator; Y := Y ri |} ;;
           Return (zeroes, result, Mul accumulator (JZ pi)))
      (zd ++ repeat false (length pr), rd ++ rr, acc)
    = Return (zd ++ map at_infinity pr, rd ++ partials acc pr rr, prod_Z acc pr).
Proof.
  induction pr as [| p pr IH]; intros pd zd rd rr acc Hp Hz Hr Hl.
  - cbn. destruct rr; reflexivity.
  - destruct rr as [| r rr]; [cbn in Hl; lia |].
    cbn [length for_loop repeat].
    rewrite Hp at 1. rewrite (index_at pd p pr (len pd) eq_refl).
    cbn [Go.bind]. cbn [map partials]. unfold prod_Z. cbn [fold_left].
    fold (prod_Z (if IsZero (JZ p) then acc else Mul acc (JZ p)) pr).
    unfold at_infinity at 1.
    destruct (IsZero (JZ p)) eqn:Ez.
    + rewrite (store_at zd false true (repeat false (length pr)) (len pd) Hz).
      cbn [Go.bind].
      replace (zd ++ true :: repeat false (length pr))
        with ((zd ++ [true]) ++ repeat false (length pr))
        by (rewrite <- app_assoc; reflexivity).
      replace (rd ++ r :: rr) with ((rd ++ [r]) ++ rr)
        by (rewrite <- app_assoc; reflexivity).
      replace (len pd + 1) with (len (pd ++ [p])) by apply len_snoc'.
      rewrite (IH (pd ++ [p]) (zd ++ [true]) (rd ++ [r]) rr acc).
      * rewrite <- !app_assoc. reflexivity.
      * rewrite <- app_assoc. exact Hp.
      * rewrite !len_snoc'. lia.
      * rewrite !len_snoc'. lia.
      * cbn in Hl. lia.
    + rewrite (index_at rd r rr (len pd) Hr). cbn [Go.bind].
      rewrite (store_at rd r _ rr (len pd) Hr). cbn [Go.bind Y].
      replace (zd ++ false :: repeat false (length pr))
        with ((zd ++ [false]) ++ repeat false (length pr))
        by (rewrite <- app_assoc; reflexivity).
      replace (rd ++ {| X := acc; Y := Y r |} :: rr)
        with ((rd ++ [{| X := acc; Y := Y r |}]) ++ rr)
        by (rewrite <- app_assoc; reflexivity).
      replace (len pd + 1) with (len (pd ++ [p])) by apply len_snoc'.
      rewrite (IH (pd ++ [p]) (zd ++ [false]) (rd ++ [{| X := acc; Y := Y r |}])
                 rr (Mul acc (JZ p))).
      * rewrite <- !app_assoc. reflexivity.
      * rewrite <- app_assoc. exact Hp.
      * rewrite !len_snoc'. lia.
      * rewrite !len_snoc'. lia.
      * cbn in Hl. lia.
Qed.

Lemma inv_step_1 (P Z : F) :
  P <> zero -> Z <> zero -> Mul P (Inverse (Mul P Z)) = Inverse Z.
Proof. intros HP HZ. field. split; assumption. Qed.

Lemma inv_step_2 (P Z : F) :
  P <> zero -> Z <> zero -> Mul (Inverse (Mul P Z)) Z = Inverse P.
Proof. intros HP HZ. field. split; assumption. Qed.

(** The second loop, downwards, turns the partial products into the
    inverses of the [Z], with one inversion in all. *)
Lemma second_loop (points : list Jac) (zeroes : list bool) :
  zeroes = map at_infinity points ->
  forall (pd pr : list Jac) (rd tail : list Affine) (a : F),
    a <> zero -> points = pd ++ pr -> length rd = length pd ->
    for_down (length pd) (len pd - 1)
      (fun i s =>
         let '(result, accInverse) := s in
         z <- index zeroes i ;;
         if z : bool then Return (result, accInverse)
         else
           ri <- index result i ;;
           result <- store result i
                       {| X := Mul (X ri) accInverse; Y := Y ri |} ;;
           pi <- index points i ;;
           Return (result, Mul accInverse (JZ pi)))
      (partials a pd rd ++ tail, Inverse (prod_Z a pd))
    = Return (inverses pd rd ++ tail, Inverse a).
Proof.
  intros Hzs.
  induction pd as [| p pd IH] using rev_ind; intros pr rd tail a Ha Hp Hl.
  - destruct rd; [| discriminate Hl]. reflexivity.
  - destruct (exists_last (l := rd)) as (rd' & r & ->).
    { intros ->. rewrite length_app in Hl. cbn in Hl. lia. }
    rewrite !length_app in Hl. cbn [length] in Hl.
    assert (Hl' : length rd' = length pd) by lia.
    rewrite length_app. cbn [length].
    replace (length pd + 1)%nat with (S (length pd)) by lia.
    cbn [for_down].
    rewrite len_snoc'.
    replace (len pd + 1 - 1) with (len pd) by lia.
    rewrite <- app_assoc in Hp. cbn [app] in Hp.
    assert (Ez : index zeroes (len pd) = Return (at_infinity p)).
    { rewrite Hzs, Hp, map_app. cbn [map].
      apply index_at. unfold len. rewrite length_map. reflexivity. }
    rewrite Ez. cbn [Go.bind].
    rewrite (partials_app a pd [p] rd' [r] Hl'), (inverses_app pd [p] rd' [r] Hl').
    rewrite prod_Z_app.
    cbn [partials inverses].
    change (prod_Z (prod_Z a pd) [p])
      with (if IsZero (JZ p) then prod_Z a pd else Mul (prod_Z a pd) (JZ p)).
    unfold at_infinity at 1.
    assert (HP : prod_Z a pd <> zero) by (apply prod_Z_nonzero; exact Ha).
    destruct (IsZero (JZ p)) eqn:E.
    + rewrite <- !app_assoc. cbn [app Go.bind].
      apply (IH (p :: pr) rd' (r :: tail) a Ha Hp Hl').
    + apply IsZero_false in E.
      assert (Ll : len (partials a pd rd') = len pd).
      { unfold len. rewrite length_partials, Hl'. reflexivity. }
      rewrite <- !app_assoc. cbn [app].
      rewrite (index_at _ _ _ (len pd) Ll). cbn [Go.bind X Y].
      rewrite (store_at _ _ _ _ (len pd) Ll). cbn [Go.bind].
      rewrite Hp at 1. rewrite (index_at pd p pr (len pd) eq_refl).
      cbn [Go.bind].
      rewrite (inv_step_1 _ _ HP E), (inv_step_2 _ _ HP E).
      apply (IH (p :: pr) rd' (_ :: tail) a Ha Hp Hl').
Qed.

(** The third loop scales [X] and [Y] by the inverse it finds in
    [result[i].X]. *)
Lemma third_loop (points : list Jac) (zeroes : list bool) :
  zeroes = map at_infinity points ->
  forall (pr pd : list Jac) (rd rr : list Affine),
    points = pd ++ pr -> len rd = len pd -> (length pr <= length rr)%nat ->
    for_loop (length pr) (len pd)
      (fun i result =>
         z <- index zeroes i ;;
         if z : bool then Return result
         else
           ri <- index result i ;;
           pi <- index points i ;;
           let a := X ri in
           let b := Square a in
           let x := Mul (JX pi) b in
           let y := Mul (Mul (JY pi) b) a in
           store result i {| X := x; Y := y |})
      (rd ++ inverses pr rr)
    = Return (rd ++ converted pr rr).
Proof.
  intros Hzs.
  induction pr as [| p pr IH]; intros pd rd rr Hp Hr Hl.
  - cbn. destruct rr; reflexivity.
  - destruct rr as [| r rr]; [cbn in Hl; lia |].
    cbn [length for_loop inverses converted].
    assert (Ez : index zeroes (len pd) = Return (at_infinity p)).
    { rewrite Hzs, Hp, map_app. cbn [map].
      apply index_at. unfold len. rewrite length_map. reflexivity. }
    rewrite Ez. cbn [Go.bind]. unfold at_infinity at 1.
    assert (Hp' : points = (pd ++ [p]) ++ pr)
      by (rewrite <- app_assoc; exact Hp).
    assert (Hl' : (length pr <= length rr)%nat) by (cbn in Hl; lia).
    destruct (IsZero (JZ p)) eqn:E.
    + cbn [Go.bind].
      replace (rd ++ r :: inverses pr rr) with ((rd ++ [r]) ++ inverses pr rr)
        by (rewrite <- app_assoc; reflexivity).
      replace (len pd + 1) with (len (pd ++ [p])) by apply len_snoc'.
      replace (rd ++ r :: converted pr rr) with ((rd ++ [r]) ++ converted pr rr)
        by (rewrite <- app_assoc; reflexivity).
      apply (IH (pd ++ [p]) (rd ++ [r]) rr Hp'); [rewrite !len_snoc'; lia | exact Hl'].
    + rewrite (index_at _ _ _ (len pd) Hr). cbn [Go.bind].
      rewrite Hp at 1. rewrite (index_at pd p pr (len pd) eq_refl).
      cbn [Go.bind X Y].
      rewrite (store_at _ _ _ _ (len pd) Hr).
      replace {| X := Mul (JX p) (Square (Inverse (JZ p)));
                 Y := Mul (Mul (JY p) (Square (Inverse (JZ p)))) (Inverse (JZ p)) |}
        with (FromJacobian p) by (unfold FromJacobian; rewrite E; reflexivity).
      replace (rd ++ FromJacobian p :: inverses pr rr)
        with ((rd ++ [FromJacobian p]) ++ inverses pr rr)
        by (rewrite <- app_assoc; reflexivity).
      replace (len pd + 1) with (len (pd ++ [p])) by apply len_snoc'.
      replace (rd ++ FromJacobian p :: converted pr rr)
        with ((rd ++ [FromJacobian p]) ++ converted pr rr)
        by (rewrite <- app_assoc; reflexivity).
      apply (IH (pd ++ [p]) (rd ++ [FromJacobian p]) rr Hp');
        [rewrite !len_snoc'; lia | exact Hl'].
Qed.

Lemma partials_split (a : F) (ps : list Jac) (rs : list Affine) :
  (length ps <= length rs)%nat ->
  partials a ps rs
  = partials a ps (firstn (length ps) rs) ++ skipn (length ps) rs
  /\ inverses ps rs
     = inverses ps (firstn (length ps) rs) ++ skipn (length ps) rs.
Proof.
  intros L.
  assert (E : rs = firstn (length ps) rs ++ skipn (length ps) rs)
    by (symmetry; apply firstn_skipn).
  assert (Lf : length (firstn (length ps) rs) = length ps)
    by (rewrite length_firstn; lia).
  split.
  - rewrite E at 1.
    replace ps with (ps ++ []) at 1 by apply app_nil_r.
    rewrite (partials_app a ps [] _ _ Lf). reflexivity.
  - rewrite E at 1.
    replace ps with (ps ++ []) at 1 by apply app_nil_r.
    rewrite (inverses_app ps [] _ _ Lf). reflexivity.
Qed.

(** *** Conversions, addition and doubling *)

(** X15: a point in affine coordinates is unchanged by the passage to
    Jacobian coordinates and back ([FromAffine] then [FromJacobian]), the
    point at infinity [(0, 0)] included. *)
Theorem FromJacobian_FromAffine (Q : Affine) :
  FromJacobian (FromAffine Q) = Q.
Proof.
  destruct Q as [x y]. unfold FromAffine, FromJacobian. cbn [X Y].
  destruct (IsZero x && IsZero y) eqn:E; cbn [JX JY JZ].
  - apply andb_true_iff in E. destruct E as [Ex Ey].
    apply IsZero_true in Ex, Ey. subst.
    replace (IsZero zero) with true by (symmetry; apply IsZero_true; reflexivity).
    reflexivity.
  - replace (IsZero one) with false
      by (symmetry; apply IsZero_false; exact one_neq_zero).
    unfold Square. rewrite Inverse_one. f_equal; ring.
Qed.

(** X16: on two points not at infinity whose abscissas differ, over
    coordinates where [2 <> 0], [AddAssign] returns a point not at
    infinity whose affine form is given by the chord rule. *)
Theorem AddAssign_chord (p a : Jac) :
  two <> zero ->
  JZ p <> zero -> JZ a <> zero ->
  X (FromJacobian p) <> X (FromJacobian a) ->
  JZ (AddAssign p a) <> zero
  /\ FromJacobian (AddAssign p a) = chord (FromJacobian p) (FromJacobian a).
Proof. apply AddAssign_generic. Qed.

(** X17: on a point not at infinity whose ordinate is not zero, over
    coordinates where [2 <> 0], [DoubleAssign] returns a point not at
    infinity whose affine form is given by the tangent rule of a curve
    [y^2 = x^3 + b]. *)
Theorem DoubleAssign_tangent (p : Jac) :
  two <> zero ->
  JZ p <> zero -> JY p <> zero ->
  JZ (DoubleAssign p) <> zero
  /\ FromJacobian (DoubleAssign p) = tangent (FromJacobian p).
Proof. apply DoubleAssign_generic. Qed.

(** X18: when its two arguments, not at infinity, are two writings of
    one affine point, [AddAssign] doubles: it returns what [DoubleAssign]
    returns on its receiver. *)
Theorem AddAssign_same (p a : Jac) :
  JZ p <> zero -> JZ a <> zero ->
  FromJacobian p = FromJacobian a ->
  AddAssign p a = DoubleAssign p.
Proof.
  intros Hp Ha E.
  destruct p as [x1 y1 z1], a as [x2 y2 z2]. cbn [JX JY JZ] in *.
  unfold FromJacobian in E. cbn [JX JY JZ] in E.
  rewrite (proj2 (IsZero_false _) Hp), (proj2 (IsZero_false _) Ha) in E.
  injection E as EX EY. unfold Square in *.
  unfold AddAssign. cbn [JX JY JZ].
  is_zero_false Hp. is_zero_false Ha. unfold Square.
  replace (Equal (Mul x2 (Mul z1 z1)) (Mul x1 (Mul z2 z2))) with true.
  replace (Equal (Mul (Mul y2 z1) (Mul z1 z1)) (Mul (Mul y1 z2) (Mul z2 z2)))
    with true.
  - reflexivity.
  - symmetry. apply Equal_spec.
    transitivity (Mul (Mul (Mul y2 (Mul (Inverse z2) (Inverse z2))) (Inverse z2))
                    (Mul (Mul (Mul z1 z1) z1) (Mul (Mul z2 z2) z2))).
    + field. exact Ha.
    + rewrite <- EY. field. exact Hp.
  - symmetry. apply Equal_spec.
    transitivity (Mul (Mul x2 (Mul (Inverse z2) (Inverse z2)))
                    (Mul (Mul z1 z1) (Mul z2 z2))).
    + field. exact Ha.
    + rewrite <- EX. field. exact Hp.
Qed.

(** X19: a point minus itself is the point at infinity: [SubAssign] of a
    point and itself returns a point whose [Z] is zero. *)
Theorem SubAssign_self (p : Jac) : JZ (SubAssign p p) = zero.
Proof.
  destruct p as [x y z]. unfold SubAssign, AddAssign. cbn [JX JY JZ].
  destruct (IsZero z) eqn:Ez.
  - cbn [JZ]. apply IsZero_true. exact Ez.
  - apply IsZero_false in Ez.
    replace (Equal (Mul x (Square z)) (Mul x (Square z))) with true
      by (symmetry; apply Equal_spec; reflexivity).
    cbn [andb].
    destruct (Equal (Mul (Mul (Neg y) z) (Square z)) (Mul (Mul y z) (Square z)))
      eqn:ES.
    + apply Equal_spec in ES.
      unfold DoubleAssign. cbn [JX JY JZ]. unfold Square in *.
      assert (E2 : Add y y = zero).
      { apply Neg_zero_inv. symmetry.
        apply (Mul_cancel_r _ _ (Mul z (Mul z z))).
        - repeat apply Mul_nonzero; assumption.
        - transitivity (Mul (Mul (Neg y) z) (Mul z z)); [ring |].
          rewrite ES. ring. }
      transitivity (Mul (Add y y) z); [ring | rewrite E2; ring].
    + cbn [JZ]. unfold Square. ring.
Qed.

(** X20: [AddMixed] agrees with [AddAssign]: adding an affine point gives
    a point that [Equal] identifies with the sum of the receiver and the
    Jacobian form of that point, at infinity or not. *)
Theorem AddMixed_AddAssign (p : Jac) (a : Affine) :
  Jac_Equal (AddMixed p a) (AddAssign p (FromAffine a)) = true.
Proof.
  destruct p as [x y z], a as [xa ya].
  unfold AddMixed, FromAffine. cbn [X Y JX JY JZ].
  destruct (IsZero xa && IsZero ya) eqn:Ea.
  - (* a is the point at infinity *)
    unfold AddAssign. cbn [JX JY JZ].
    destruct (IsZero z) eqn:Ez.
    + unfold Jac_Equal. cbn [JZ]. rewrite Ez.
      replace (IsZero zero) with true by (symmetry; apply Equal_refl).
      reflexivity.
    + replace (IsZero zero) with true by (symmetry; apply Equal_refl).
      apply Jac_Equal_refl.
  - unfold AddAssign. cbn [JX JY JZ].
    destruct (IsZero z) eqn:Ez; [apply Jac_Equal_refl |].
    rewrite (proj2 (IsZero_false _) one_neq_zero).
    rewrite (Equal_ext (Mul xa (Square z)) (Mul x (Square one))
               (Mul xa (Square z)) x)
      by (unfold Square; ring).
    rewrite (Equal_ext (Mul (Mul ya z) (Square z))
               (Mul (Mul y one) (Square one))
               (Mul (Mul ya z) (Square z)) y)
      by (unfold Square; ring).
    destruct (Equal (Mul xa (Square z)) x && Equal (Mul (Mul ya z) (Square z)) y);
      [apply Jac_Equal_refl |].
    match goal with
    | |- Jac_Equal ?m ?s = true =>
        replace s with (rescale (Neg one) m);
        [exact (proj2 (rescale_same (Neg one) m Neg_one_nonzero)) |]
    end.
    unfold rescale, Square, Double. cbn [JX JY JZ].
    f_equal; ring.
Qed.

(** X21: the coordinates [(l^2 X, l^3 Y, l Z)], [l <> 0], are those of
    the same point: [FromJacobian] returns the same affine point, and
    [Equal] holds. *)
Theorem FromJacobian_rescale (l : F) (p : Jac) :
  l <> zero ->
  FromJacobian (rescale l p) = FromJacobian p
  /\ Jac_Equal p (rescale l p) = true.
Proof. apply rescale_same. Qed.

(** X22: on a point not at infinity, [IsOnCurve] in Jacobian coordinates
    is the curve equation [y^2 = x^3 + b] of its affine form; and the
    affine point at infinity [(0, 0)] passes [IsOnCurve]. *)
Theorem Jac_IsOnCurve_affine (p : Jac) :
  (JZ p <> zero -> (Jac_IsOnCurve p = true <-> on_curve (FromJacobian p)))
  /\ Affine_IsOnCurve {| X := zero; Y := zero |} = true.
Proof.
  split; [apply IsOnCurve_iff |].
  unfold Affine_IsOnCurve, FromAffine. cbn [X Y].
  rewrite (proj2 (IsZero_true zero) eq_refl). cbn [andb].
  unfold Jac_IsOnCurve. cbn [JX JY JZ]. apply Equal_spec.
  unfold Square. ring.
Qed.

(** X23: the curve is closed under the operations: [DoubleAssign] of a
    point that passes [IsOnCurve] passes [IsOnCurve], and so does
    [AddAssign] of two points that pass it. *)
Theorem curve_closed (p a : Jac) :
  (Jac_IsOnCurve p = true -> Jac_IsOnCurve (DoubleAssign p) = true)
  /\ (Jac_IsOnCurve p = true -> Jac_IsOnCurve a = true ->
      Jac_IsOnCurve (AddAssign p a) = true).
Proof.
  split; [apply DoubleAssign_on_curve | apply AddAssign_on_curve].
Qed.

(** X24: [FromJacobian] to projective coordinates keeps the point: for
    [Z <> 0], [x / z] and [y / z] are the affine coordinates. *)
Theorem Proj_FromJacobian_affine (Q : Jac) :
  JZ Q <> zero ->
  Pz (Proj_FromJacobian Q) <> zero
  /\ Div (Px (Proj_FromJacobian Q)) (Pz (Proj_FromJacobian Q))
     = X (FromJacobian Q)
  /\ Div (Py (Proj_FromJacobian Q)) (Pz (Proj_FromJacobian Q))
     = Y (FromJacobian Q).
Proof.
  intros Hz. destruct Q as [x y z]. cbn [JZ] in Hz.
  unfold Proj_FromJacobian, FromJacobian. cbn [JX JY JZ Px Py Pz].
  is_zero_false Hz. cbn [X Y]. unfold Div, Square.
  repeat split.
  - repeat apply Mul_nonzero; assumption.
  - field. exact Hz.
  - field. exact Hz.
Qed.

(** X25: [Equal] on Jacobian coordinates holds exactly when the affine
    forms are one point; a point [(0, 0, z)] is thus equal to the point
    at infinity. *)
Theorem Jac_Equal_affine (p a : Jac) :
  Jac_Equal p a = true <-> FromJacobian p = FromJacobian a.
Proof.
  unfold Jac_Equal.
  destruct (IsZero (JZ p) && IsZero (JZ a)) eqn:E.
  - apply andb_true_iff in E. destruct E as [Ep Ea].
    unfold FromJacobian. rewrite Ep, Ea. split; reflexivity.
  - rewrite andb_true_iff, !Equal_spec.
    destruct (FromJacobian p) as [x y], (FromJacobian a) as [x' y'].
    cbn [X Y]. split.
    + intros [-> ->]. reflexivity.
    + intros H. injection H as -> ->. split; reflexivity.
Qed.

(** X26: [BatchJacobianToAffine] on [result] at least as long as
    [points] writes to [result[i]] the affine form of [points[i]] for
    every point not at infinity, and leaves the other entries as they
    were; on a [result] made of zeroes it is [FromJacobian] on every
    point. *)
Theorem BatchJacobianToAffine_converted (points : list Jac)
  (result : list Affine) :
  len points <= len result ->
  BatchJacobianToAffine points result = Return (converted points result)
  /\ (result = repeat {| X := zero; Y := zero |} (length points) ->
      converted points result = map FromJacobian points).
Proof.
  intros L. unfold len in L.
  assert (Ln : (length points <= length result)%nat) by lia.
  split.
  - unfold BatchJacobianToAffine.
    rewrite make_ok by apply len_nonneg. cbn [Go.bind].
    unfold len at 1. rewrite Nat2Z.id.
    pose proof (first_loop points points [] [] [] result one eq_refl
                  eq_refl eq_refl Ln) as L1.
    cbn [app] in L1. change (len (@nil Jac)) with 0 in L1.
    rewrite L1. cbn [Go.bind].
    destruct (partials_split one points result Ln) as [E1 E2].
    rewrite E1.
    assert (Lf : length (firstn (length points) result) = length points)
      by (rewrite length_firstn; lia).
    rewrite (second_loop points (map at_infinity points) eq_refl points []
               (firstn (length points) result) (skipn (length points) result)
               one one_neq_zero (eq_sym (app_nil_r _)) Lf).
    cbn [Go.bind fst]. rewrite <- E2.
    pose proof (third_loop points (map at_infinity points) eq_refl points [] []
                  result eq_refl eq_refl Ln) as L3.
    cbn [app] in L3. change (len (@nil Jac)) with 0 in L3.
    exact L3.
  - intros ->. clear L Ln.
    induction points as [| p ps IH]; [reflexivity |].
    cbn [length repeat converted map]. rewrite IH. f_equal.
    destruct (IsZero (JZ p)) eqn:E; [| reflexivity].
    unfold FromJacobian. rewrite E. reflexivity.
Qed.

(** *** Symmetry and scaling *)

Lemma Equal_sym (x y : F) : Equal x y = Equal y x.
Proof.
  destruct (Equal y x) eqn:E.
  - apply Equal_spec in E. subst. apply Equal_refl.
  - apply Equal_false in E. apply Equal_false. congruence.
Qed.

Lemma Equal_scale (t x y : F) :
  t <> zero -> Equal (Mul t x) (Mul t y) = Equal x y.
Proof.
  intros Ht. destruct (Equal x y) eqn:E.
  - apply Equal_spec in E. subst. apply Equal_refl.
  - apply Equal_false in E. apply Equal_false. intros H. apply E.
    apply (Mul_cancel_r _ _ t Ht).
    transitivity (Mul t x); [ring |]. rewrite H. ring.
Qed.

Lemma IsZero_scale (l z : F) : l <> zero -> IsZero (Mul l z) = IsZero z.
Proof.
  intros Hl. unfold IsZero.
  rewrite (Equal_ext (Mul l z) zero (Mul l z) (Mul l zero)) by ring.
  apply Equal_scale. exact Hl.
Qed.

Lemma Jac_Equal_sym (p a : Jac) : Jac_Equal p a = Jac_Equal a p.
Proof.
  unfold Jac_Equal. rewrite (andb_comm (IsZero (JZ p))).
  rewrite (Equal_sym (X (FromJacobian p))), (Equal_sym (Y (FromJacobian p))).
  reflexivity.
Qed.

Lemma fourth_nonzero (l : F) :
  l <> zero -> Mul (Square l) (Square l) <> zero.
Proof.
  intros H. unfold Square.
  apply Mul_nonzero; apply Mul_nonzero; exact H.
Qed.

Lemma cube_nonzero (l : F) : l <> zero -> Mul (Square l) l <> zero.
Proof.
  intros H. unfold Square.
  apply Mul_nonzero; [apply Mul_nonzero |]; exact H.
Qed.

Lemma DoubleAssign_rescale (l : F) (p : Jac) :
  DoubleAssign (rescale l p)
  = rescale (Mul (Square l) (Square l)) (DoubleAssign p).
Proof.
  destruct p as [x y z]. unfold DoubleAssign, rescale. cbn [JX JY JZ].
  unfold Square, Double. f_equal; ring.
Qed.

Lemma Jac_Equal_rescale (l : F) (p : Jac) :
  l <> zero -> Jac_Equal (rescale l p) p = true.
Proof.
  intros Hl. rewrite Jac_Equal_sym. exact (proj2 (rescale_same l p Hl)).
Qed.

(** Two writings of one point that is not at infinity differ by a
    scaling. *)
Lemma same_point_rescale (x1 y1 z1 x2 y2 z2 : F) :
  z1 <> zero -> z2 <> zero ->
  Mul x2 (Square z1) = Mul x1 (Square z2) ->
  Mul (Mul y2 z1) (Square z1) = Mul (Mul y1 z2) (Square z2) ->
  {| JX := x2; JY := y2; JZ := z2 |}
  = rescale (Mul z2 (Inverse z1)) {| JX := x1; JY := y1; JZ := z1 |}.
Proof.
  intros H1 H2 EU ES. unfold rescale, Square in *. cbn [JX JY JZ].
  f_equal.
  - transitivity (Mul (Mul x2 (Mul z1 z1)) (Mul (Inverse z1) (Inverse z1)));
      [field; exact H1 |].
    rewrite EU. field. exact H1.
  - transitivity (Mul (Mul (Mul y2 z1) (Mul z1 z1))
                    (Mul (Inverse z1) (Mul (Inverse z1) (Inverse z1))));
      [field; exact H1 |].
    rewrite ES. field. exact H1.
  - field. exact H1.
Qed.

(** X27: [AddAssign] is commutative: the two orders give points that
    [Equal] identifies, whatever the arguments. *)
Theorem AddAssign_comm (p a : Jac) :
  Jac_Equal (AddAssign p a) (AddAssign a p) = true.
Proof.
  destruct p as [x1 y1 z1], a as [x2 y2 z2].
  unfold AddAssign. cbn [JX JY JZ].
  destruct (IsZero z1) eqn:E1, (IsZero z2) eqn:E2.
  - unfold Jac_Equal. cbn [JZ]. rewrite E1, E2. reflexivity.
  - apply Jac_Equal_refl.
  - apply Jac_Equal_refl.
  - rewrite (Equal_sym (Mul x1 (Square z2)) (Mul x2 (Square z1))).
    rewrite (Equal_sym (Mul (Mul y1 z2) (Square z2))
               (Mul (Mul y2 z1) (Square z1))).
    destruct (Equal (Mul x2 (Square z1)) (Mul x1 (Square z2))
              && Equal (Mul (Mul y2 z1) (Square z1))
                   (Mul (Mul y1 z2) (Square z2))) eqn:T.
    + apply andb_true_iff in T. destruct T as [EU ES].
      apply Equal_spec in EU, ES.
      apply IsZero_false in E1, E2.
      rewrite (same_point_rescale x1 y1 z1 x2 y2 z2 E1 E2 EU ES).
      rewrite DoubleAssign_rescale, Jac_Equal_sym.
      apply Jac_Equal_rescale.
      assert (Hl : Mul z2 (Inverse z1) <> zero).
      { intros H. apply E2.
        transitivity (Mul (Mul z2 (Inverse z1)) z1); [field; exact E1 |].
        rewrite H. ring. }
      apply fourth_nonzero. exact Hl.
    + match goal with
      | |- Jac_Equal ?m ?s = true =>
          replace s with (rescale (Neg one) m);
          [exact (proj2 (rescale_same (Neg one) m Neg_one_nonzero)) |]
      end.
      unfold rescale, Square, Double. cbn [JX JY JZ].
      f_equal; ring.
Qed.

(** X28: the operations do not depend on the coordinates chosen for a
    point: scaling the arguments of [AddAssign] and of [DoubleAssign]
    ([(l^2 X, l^3 Y, l Z)] with [l <> 0]) gives points that [Equal]
    identifies with the results on the arguments themselves. *)
Theorem AddAssign_rescale (l m : F) (p a : Jac) :
  l <> zero -> m <> zero ->
  Jac_Equal (AddAssign (rescale l p) (rescale m a)) (AddAssign p a) = true
  /\ Jac_Equal (DoubleAssign (rescale l p)) (DoubleAssign p) = true.
Proof.
  intros Hl Hm.
  assert (Hl4 : Mul (Square l) (Square l) <> zero)
    by (apply fourth_nonzero; exact Hl).
  split; [| rewrite DoubleAssign_rescale; apply Jac_Equal_rescale; exact Hl4].
  destruct p as [x1 y1 z1], a as [x2 y2 z2].
  unfold AddAssign, rescale. cbn [JX JY JZ].
  rewrite (IsZero_scale l z1 Hl), (IsZero_scale m z2 Hm).
  destruct (IsZero z1) eqn:E1;
    [exact (Jac_Equal_rescale m {| JX := x2; JY := y2; JZ := z2 |} Hm) |].
  destruct (IsZero z2) eqn:E2;
    [exact (Jac_Equal_rescale l {| JX := x1; JY := y1; JZ := z1 |} Hl) |].
  set (t := Mul l m).
  assert (Ht : t <> zero) by (apply Mul_nonzero; assumption).
  rewrite (Equal_ext (Mul (Mul (Square m) x2) (Square (Mul l z1)))
             (Mul (Mul (Square l) x1) (Square (Mul m z2)))
             (Mul (Square t) (Mul x2 (Square z1)))
             (Mul (Square t) (Mul x1 (Square z2))))
    by (unfold t, Square; ring).
  rewrite (Equal_ext
             (Mul (Mul (Mul (Mul (Square m) m) y2) (Mul l z1))
                (Square (Mul l z1)))
             (Mul (Mul (Mul (Mul (Square l) l) y1) (Mul m z2))
                (Square (Mul m z2)))
             (Mul (Mul (Square t) t) (Mul (Mul y2 z1) (Square z1)))
             (Mul (Mul (Square t) t) (Mul (Mul y1 z2) (Square z2))))
    by (unfold t, Square; ring).
  rewrite (Equal_scale (Square t))
    by (unfold Square; apply Mul_nonzero; exact Ht).
  rewrite (Equal_scale (Mul (Square t) t)) by (apply cube_nonzero; exact Ht).
  destruct (Equal (Mul x2 (Square z1)) (Mul x1 (Square z2))
            && Equal (Mul (Mul y2 z1) (Square z1))
                 (Mul (Mul y1 z2) (Square z2))).
  - change {| JX := Mul (Square l) x1;
              JY := Mul (Mul (Square l) l) y1;
              JZ := Mul l z1 |}
      with (rescale l {| JX := x1; JY := y1; JZ := z1 |}).
    rewrite DoubleAssign_rescale. apply Jac_Equal_rescale. exact Hl4.
  - match goal with
    | |- Jac_Equal ?s ?m = true =>
        replace s with (rescale (Mul (Square t) t) m);
        [apply Jac_Equal_rescale; apply cube_nonzero; exact Ht |]
    end.
    unfold rescale, t, Square, Double. cbn [JX JY JZ].
    f_equal; ring.
Qed.

(** X29: [Neg] on Jacobian coordinates is [Neg] on the affine form; it
    is an involution, and keeps the answer of [IsOnCurve]. *)
Theorem Jac_Neg_affine (p : Jac) :
  FromJacobian (Jac_Neg p) = Affine_Neg (FromJacobian p)
  /\ Jac_Neg (Jac_Neg p) = p
  /\ Jac_IsOnCurve (Jac_Neg p) = Jac_IsOnCurve p.
Proof.
  destruct p as [x y z]. unfold Jac_Neg. cbn [JX JY JZ]. repeat split.
  - unfold FromJacobian, Affine_Neg. cbn [JX JY JZ].
    destruct (IsZero z); cbn [X Y]; f_equal; unfold Square; ring.
  - f_equal. ring.
  - unfold Jac_IsOnCurve. cbn [JX JY JZ]. apply Equal_ext; [| reflexivity].
    unfold Square. ring.
Qed.

(** *** Scalar multiplication *)

Lemma window_digit (w j : Z) :
  0 <= j < 4 ->
  0 <= Z.shiftr (Z.land w (Z.shiftr 0xc0 (2 * j))) (6 - 2 * j) <= 3.
Proof.
  intros Hj. rewrite Z.shiftr_land.
  replace (Z.shiftr (Z.shiftr 192 (2 * j)) (6 - 2 * j)) with (Z.ones 2)
    by (assert (j = 0 \/ j = 1 \/ j = 2 \/ j = 3) as [-> | [-> | [-> | ->]]]
          by lia; reflexivity).
  rewrite Z.land_ones by lia.
  pose proof (Z.mod_pos_bound (Z.shiftr w (6 - 2 * j)) (2 ^ 2) eq_refl).
  change (2 ^ 2) with 4 in *. lia.
Qed.

Lemma index_ops {A} (x y z : A) (c : Z) :
  1 <= c <= 3 ->
  exists op, index [x; y; z] (c - 1) = Return op /\ (op = x \/ op = y \/ op = z).
Proof.
  intros Hc.
  assert (c = 1 \/ c = 2 \/ c = 3) as [-> | [-> | ->]] by lia;
    eexists; (split; [reflexivity |]); auto.
Qed.

(** X30: [mulWindowed] returns for every scalar, with a point that
    passes [IsOnCurve] when its argument and the point at infinity of the
    package do; and it does not read the sign of the scalar. *)
Theorem mulWindowed_on_curve (g1Infinity a : Jac) (s : Z) :
  Jac_IsOnCurve g1Infinity = true -> Jac_IsOnCurve a = true ->
  (exists p, mulWindowed g1Infinity a s = Return p
             /\ Jac_IsOnCurve p = true)
  /\ mulWindowed g1Infinity a (- s) = mulWindowed g1Infinity a s.
Proof.
  intros Hinf Ha. split.
  2: { unfold mulWindowed, big_Bytes. rewrite Z.abs_opp. reflexivity. }
  unfold mulWindowed.
  set (ops1 := Jac_Double a). set (ops2 := AddAssign a ops1).
  assert (H1 : Jac_IsOnCurve ops1 = true)
    by (apply DoubleAssign_on_curve; exact Ha).
  assert (H2 : Jac_IsOnCurve ops2 = true)
    by (apply AddAssign_on_curve; assumption).
  set (b := big_Bytes s).
  destruct (for_loop_inv (fun _ res => Jac_IsOnCurve res = true)
              (fun i res =>
                 w <- index b i ;;
                 st <- for_loop 4 0
                         (fun j st =>
                            let '(res, mask) := st in
                            let res := DoubleAssign (DoubleAssign res) in
                            let c := Z.shiftr (Z.land w mask) (6 - 2 * j) in
                            res <- (if negb (c =? 0) then
                                      op <- index [a; ops1; ops2] (c - 1) ;;
                                      Return (AddAssign res op)
                                    else Return res) ;;
                            Return (res, Z.shiftr mask 2))
                         (res, 192) ;;
                 Return (fst st))
              (length b) 0 g1Infinity Hinf) as (p & E & Hp).
  - intros i res Hi Hres.
    rewrite (index_nth b i 0) by (unfold len; lia). cbn [Go.bind].
    set (w := nth (Z.to_nat i) b 0).
    destruct (for_loop_inv
                (fun j st => Jac_IsOnCurve (fst st) = true
                             /\ snd st = Z.shiftr 192 (2 * j))
                (fun j st =>
                   let '(res, mask) := st in
                   let res := DoubleAssign (DoubleAssign res) in
                   let c := Z.shiftr (Z.land w mask) (6 - 2 * j) in
                   res <- (if negb (c =? 0) then
                             op <- index [a; ops1; ops2] (c - 1) ;;
                             Return (AddAssign res op)
                           else Return res) ;;
                   Return (res, Z.shiftr mask 2))
                4 0 (res, 192)) as (st & Est & Hst & _).
    + split; [exact Hres | reflexivity].
    + intros j [r mask] Hj [Hr Hmask]. cbn [fst snd] in Hr, Hmask. subst mask.
      assert (Hd : Jac_IsOnCurve (DoubleAssign (DoubleAssign r)) = true)
        by (do 2 apply DoubleAssign_on_curve; exact Hr).
      pose proof (window_digit w j ltac:(lia)) as Hc.
      cbv zeta.
      destruct (Z.eqb_spec
                  (Z.shiftr (Z.land w (Z.shiftr 192 (2 * j))) (6 - 2 * j)) 0)
        as [Ec | Ec]; cbn [negb].
      * cbn [Go.bind]. eexists. split; [reflexivity |]. cbn [fst snd].
        split; [exact Hd |].
        rewrite Z.shiftr_shiftr by lia. f_equal. lia.
      * destruct (index_ops a ops1 ops2
                    (Z.shiftr (Z.land w (Z.shiftr 192 (2 * j))) (6 - 2 * j)))
          as (op & Eop & Hop); [lia |].
        rewrite Eop. cbn [Go.bind]. eexists. split; [reflexivity |].
        cbn [fst snd]. split.
        -- apply AddAssign_on_curve; [exact Hd |].
           destruct Hop as [-> | [-> | ->]]; assumption.
        -- rewrite Z.shiftr_shiftr by lia. f_equal. lia.
    + cbv zeta in Est. rewrite Est. cbn [Go.bind]. eexists.
      split; [reflexivity | exact Hst].
  - exists p. split; [exact E | exact Hp].
Qed.


End Facts.

(** *** The rational numbers as coordinates *)

Lemma rational_field : is_field rational.
Proof.
  split; [exact Qcft |].
  intros x y. split; [apply Qc_eq_bool_correct |].
  intros ->. unfold Equal, rational, Qc_eq_bool.
  destruct (Qc_eq_dec y y) as [_ | N]; [reflexivity | contradiction].
Qed.

Lemma rational_neq (x y : Qc) : Qc_eq_bool x y = false -> x <> y.
Proof.
  intros H E. apply (proj2 (proj2 rational_field x y)) in E.
  cbn in E. congruence.
Qed.

Lemma rational_eq (x y : Qc) : Qc_eq_bool x y = true -> x = y.
Proof. apply Qc_eq_bool_correct. Qed.

Lemma Affine_eq (p a : @Affine Qc) : Affine_Equal p a = true -> p = a.
Proof.
  destruct p as [x y], a as [x' y']. unfold Affine_Equal. cbn.
  intros H. apply andb_true_iff in H. destruct H as [Hx Hy].
  apply rational_eq in Hx, Hy. congruence.
Qed.

Ltac by_bool := apply rational_neq; vm_compute; reflexivity.

Lemma FromJacobian_FromAffine_witness :
  is_field rational /\ FromJacobian (FromAffine A1) = A1.
Proof.
  split; [exact rational_field |].
  exact (FromJacobian_FromAffine rational_field A1).
Defined.

Lemma AddAssign_chord_witness :
  is_field rational
  /\ two <> zero /\ JZ P1 <> zero /\ JZ P2 <> zero
  /\ X (FromJacobian P1) <> X (FromJacobian P2)
  /\ JZ (AddAssign P1 P2) <> zero
  /\ FromJacobian (AddAssign P1 P2) = chord (FromJacobian P1) (FromJacobian P2).
Proof.
  assert (H2 : @two Qc rational <> zero) by by_bool.
  assert (H1 : JZ P1 <> zero) by by_bool.
  assert (H3 : JZ P2 <> zero) by by_bool.
  assert (H4 : X (FromJacobian P1) <> X (FromJacobian P2)) by by_bool.
  repeat (split; [assumption |]).
  split; [exact rational_field |].
  repeat (split; [assumption |]).
  exact (AddAssign_chord rational_field P1 P2 H2 H1 H3 H4).
Defined.

Lemma DoubleAssign_tangent_witness :
  is_field rational
  /\ two <> zero /\ JZ P1 <> zero /\ JY P1 <> zero
  /\ JZ (DoubleAssign P1) <> zero
  /\ FromJacobian (DoubleAssign P1) = tangent (FromJacobian P1).
Proof.
  assert (H2 : @two Qc rational <> zero) by by_bool.
  assert (H1 : JZ P1 <> zero) by by_bool.
  assert (H3 : JY P1 <> zero) by by_bool.
  split; [exact rational_field |].
  repeat (split; [assumption |]).
  exact (DoubleAssign_tangent rational_field P1 H2 H1 H3).
Defined.

Lemma AddAssign_same_witness :
  is_field rational
  /\ JZ P1' <> zero /\ JZ P1 <> zero
  /\ FromJacobian P1' = FromJacobian P1
  /\ AddAssign P1' P1 = DoubleAssign P1'.
Proof.
  assert (H1 : JZ P1' <> zero) by by_bool.
  assert (H2 : JZ P1 <> zero) by by_bool.
  assert (H3 : FromJacobian P1' = FromJacobian P1)
    by (apply Affine_eq; vm_compute; reflexivity).
  split; [exact rational_field |].
  repeat (split; [assumption |]).
  exact (AddAssign_same rational_field P1' P1 H1 H2 H3).
Defined.

Lemma SubAssign_self_witness :
  is_field rational /\ JZ (SubAssign P2 P2) = zero.
Proof.
  split; [exact rational_field |].
  exact (SubAssign_self rational_field P2).
Defined.

Lemma AddMixed_AddAssign_witness :
  is_field rational
  /\ Jac_Equal (AddMixed P2 A1) (AddAssign P2 (FromAffine A1)) = true.
Proof.
  split; [exact rational_field |].
  exact (AddMixed_AddAssign rational_field P2 A1).
Defined.

Lemma FromJacobian_rescale_witness :
  is_field rational
  /\ Q2Qc 2 <> zero
  /\ rescale (Q2Qc 2) P1 = P1'
  /\ FromJacobian (rescale (Q2Qc 2) P1) = FromJacobian P1
  /\ Jac_Equal P1 (rescale (Q2Qc 2) P1) = true.
Proof.
  assert (H : Q2Qc 2 <> @zero Qc rational) by by_bool.
  split; [exact rational_field |].
  split; [exact H |].
  split.
  - unfold rescale, P1, P1'. cbn [JX JY JZ].
    f_equal; apply rational_eq; vm_compute; reflexivity.
  - exact (FromJacobian_rescale rational_field (Q2Qc 2) P1 H).
Defined.

Lemma Jac_IsOnCurve_affine_witness :
  is_field rational
  /\ (JZ P1' <> zero ->
      (Jac_IsOnCurve P1' = true <-> on_curve (FromJacobian P1')))
  /\ Affine_IsOnCurve {| X := zero; Y := zero |} = true.
Proof.
  split; [exact rational_field |].
  exact (Jac_IsOnCurve_affine rational_field P1').
Defined.

Lemma curve_closed_witness :
  is_field rational
  /\ Jac_IsOnCurve P1 = true /\ Jac_IsOnCurve P2 = true
  /\ Jac_IsOnCurve (DoubleAssign P1) = true
  /\ Jac_IsOnCurve (AddAssign P1 P2) = true.
Proof.
  assert (H1 : Jac_IsOnCurve P1 = true) by (vm_compute; reflexivity).
  assert (H2 : Jac_IsOnCurve P2 = true) by (vm_compute; reflexivity).
  refine (conj rational_field (conj H1 (conj H2 (conj _ _)))).
  - exact (proj1 (curve_closed rational_field P1 P2) H1).
  - exact (proj2 (curve_closed rational_field P1 P2) H1 H2).
Defined.

Lemma Proj_FromJacobian_affine_witness :
  is_field rational
  /\ JZ P1' <> zero
  /\ Pz (Proj_FromJacobian P1') <> zero
  /\ Div (Px (Proj_FromJacobian P1')) (Pz (Proj_FromJacobian P1'))
     = X (FromJacobian P1')
  /\ Div (Py (Proj_FromJacobian P1')) (Pz (Proj_FromJacobian P1'))
     = Y (FromJacobian P1').
Proof.
  assert (H : JZ P1' <> zero) by by_bool.
  split; [exact rational_field |].
  split; [exact H |].
  exact (Proj_FromJacobian_affine rational_field P1' H).
Defined.

Lemma Jac_Equal_affine_witness :
  is_field rational
  /\ (Jac_Equal P1 P1' = true <-> FromJacobian P1 = FromJacobian P1').
Proof.
  split; [exact rational_field |].
  exact (Jac_Equal_affine rational_field P1 P1').
Defined.

Lemma BatchJacobianToAffine_converted_witness :
  is_field rational
  /\ len batch <= len (zeroed 3)
  /\ BatchJacobianToAffine batch (zeroed 3)
     = Return (converted batch (zeroed 3))
  /\ (zeroed 3 = repeat {| X := zero; Y := zero |} (length batch) ->
      converted batch (zeroed 3) = map FromJacobian batch).
Proof.
  assert (H : len batch <= len (zeroed 3)) by (vm_compute; discriminate).
  split; [exact rational_field |].
  split; [exact H |].
  exact (BatchJacobianToAffine_converted rational_field batch (zeroed 3) H).
Defined.

Lemma AddAssign_comm_witness :
  is_field rational
  /\ Jac_Equal (AddAssign P1 P2) (AddAssign P2 P1) = true.
Proof.
  split; [exact rational_field |].
  exact (AddAssign_comm rational_field P1 P2).
Defined.

Lemma AddAssign_rescale_witness :
  is_field rational
  /\ Q2Qc 2 <> zero /\ Q2Qc 3 <> zero
  /\ Jac_Equal (AddAssign (rescale (Q2Qc 2) P1) (rescale (Q2Qc 3) P2))
       (AddAssign P1 P2) = true
  /\ Jac_Equal (DoubleAssign (rescale (Q2Qc 2) P1)) (DoubleAssign P1) = true.
Proof.
  assert (H2 : Q2Qc 2 <> @zero Qc rational) by by_bool.
  assert (H3 : Q2Qc 3 <> @zero Qc rational) by by_bool.
  refine (conj rational_field (conj H2 (conj H3 _))).
  exact (AddAssign_rescale rational_field (Q2Qc 2) (Q2Qc 3) P1 P2 H2 H3).
Defined.

Lemma Jac_Neg_affine_witness :
  is_field rational
  /\ FromJacobian (Jac_Neg P2) = Affine_Neg (FromJacobian P2)
  /\ Jac_Neg (Jac_Neg P2) = P2
  /\ Jac_IsOnCurve (Jac_Neg P2) = Jac_IsOnCurve P2.
Proof.
  split; [exact rational_field |].
  exact (Jac_Neg_affine rational_field P2).
Defined.

Lemma mulWindowed_on_curve_witness :
  is_field rational
  /\ Jac_IsOnCurve Pinf = true /\ Jac_IsOnCurve P1 = true
  /\ (exists p, mulWindowed Pinf P1 5 = Return p /\ Jac_IsOnCurve p = true)
  /\ mulWindowed Pinf P1 (- 5) = mulWindowed Pinf P1 5.
Proof.
  assert (Hi : Jac_IsOnCurve Pinf = true) by (vm_compute; reflexivity).
  assert (H1 : Jac_IsOnCurve P1 = true) by (vm_compute; reflexivity).
  refine (conj rational_field (conj Hi (conj H1 _))).
  exact (mulWindowed_on_curve rational_field Pinf P1 5 Hi H1).
Defined.

(** The scalars 1 and 2 on the point [(1, 2)] of [y^2 = x^3 + 3]. *)
Example mulWindowed_small :
  mulWindowed Pinf P1 1 = Return P1
  /\ (exists p, mulWindowed Pinf P1 2 = Return p
                /\ Jac_Equal p P2 = true)
  /\ mulWindowed Pinf P1 0 = Return Pinf.
Proof.
  split; [| split].
  - vm_compute. reflexivity.
  - eexists. split; [vm_compute; reflexivity |]. vm_compute. reflexivity.
  - reflexivity.
Qed.

End PointFacts.
